(** * renderdoc-analyzer: the unified analysis scheduler and its analyzers

    A shallow embedding of [scripts/unified/analyze_all.py] and of the
    [scripts/unified/analyzers] package, followed by the properties that the
    specification states about them.

    Conventions of the embedding:
    - a Python [int] is a [Z]; a Python [float] is the exact rational value of
      a finite binary64 number, and every operation that produces a float
      rounds its exact result to binary64 (module [PyFloat]);
    - [hasattr(o, 'f')] is an [option] field of the record that stands for [o];
    - a call that may raise returns a [Res]; a [try]/[except Exception] is the
      combinator [try_except], which lets pass what is not an instance of
      [Exception];
    - a dictionary with string keys is a [gmap string _];
    - what the scripts print is left out. *)

From Stdlib Require Import ZArith QArith Qround Qabs Qpower Lia Lqa.
From stdpp Require Import gmap strings list pretty sorting.

Open Scope Z_scope.

(** ** Python results and exceptions *)

(** An exception: its class, [str(e)], and whether the class derives from
    [Exception]. [SystemExit], [KeyboardInterrupt] and [GeneratorExit]
    derive from [BaseException] only. *)
Record exn := MkExn {
  exn_class : string;
  exn_str : string;
  is_Exception : bool;
}.

(** An instance of a subclass of [Exception]. *)
Definition PyExc (cls msg : string) : exn :=
  {| exn_class := cls; exn_str := msg; is_Exception := true |}.

(** [SystemExit(code)], as [sys.exit(code)] raises it. *)
Definition SystemExit (code : string) : exn :=
  {| exn_class := "SystemExit"; exn_str := code; is_Exception := false |}.

Inductive Res (A : Type) : Type :=
| Ok (a : A)
| Raise (e : exn).
Arguments Ok {A} a.
Arguments Raise {A} e.

#[global] Instance Res_ret : MRet Res := fun A a => Ok a.
#[global] Instance Res_bind : MBind Res := fun A B f r =>
  match r with
  | Ok a => f a
  | Raise e => Raise e
  end.

#[global] Instance Res_fmap : FMap Res := fun A B f r =>
  match r with
  | Ok a => Ok (f a)
  | Raise e => Raise e
  end.

Definition is_ok {A} (r : Res A) : bool :=
  match r with Ok _ => true | Raise _ => false end.

Definition OverflowError (msg : string) : exn := PyExc "OverflowError" msg.
Definition ZeroDivisionError (msg : string) : exn := PyExc "ZeroDivisionError" msg.

(** ** Binary64 arithmetic, as far as the scripts use it *)

Module PyFloat.

(** The value of a finite binary64 number. *)
Definition float := Q.

Definition pow2 (e : Z) : Q := Qpower 2 e.

(** [floor (log2 x)] for a positive rational [x]. *)
Definition ilog2 (x : Q) : Z :=
  let d := Z.log2 (Qnum x) - Z.log2 (Zpos (Qden x)) in
  if Qle_bool (pow2 d) x then d else d - 1.

(** Nearest integer, ties to the even one. *)
Definition round_half_even (y : Q) : Z :=
  let f := Qfloor y in
  match Qcompare (y - inject_Z f) (1 # 2) with
  | Lt => f
  | Gt => f + 1
  | Eq => if Z.even f then f else f + 1
  end.

(** Round a positive rational to 53 significant bits; below [2^-1022] the
    spacing stays [2^-1074] (subnormal numbers). *)
Definition round_pos (x : Q) : Q :=
  let e := Z.max (ilog2 x - 52) (-1074) in
  (inject_Z (round_half_even (x / pow2 e)) * pow2 e)%Q.

Definition round (x : Q) : Q :=
  match Qcompare x 0 with
  | Eq => 0%Q
  | Gt => round_pos x
  | Lt => (- round_pos (- x))%Q
  end.

(** The rounded value is beyond the largest finite binary64 number. *)
Definition overflows (v : Q) : bool := Qle_bool (pow2 1024) (Qabs v).

(** [float(n)], also what formatting an [int] with [.2f] does first. *)
Definition of_int (n : Z) : Res float :=
  let v := round (inject_Z n) in
  if overflows v then Raise (OverflowError "int too large to convert to float")
  else Ok v.

(** [a / b] on two ints: the correctly rounded quotient. *)
Definition int_truediv (a b : Z) : Res float :=
  if b =? 0 then Raise (ZeroDivisionError "division by zero")
  else
    let v := round (inject_Z a / inject_Z b) in
    if overflows v
    then Raise (OverflowError "integer division result too large for a float")
    else Ok v.

(** [v / n] on a float and a nonzero int constant whose magnitude is at
    least one: the quotient cannot leave the finite range. *)
Definition div_int (v : float) (n : Z) : float := round (v / inject_Z n).

Definition ltb (v w : Q) : bool := negb (Qle_bool w v).

Definition two_digits (n : Z) : string :=
  if n <? 10 then "0" +:+ pretty n else pretty n.

(** [f"{v:.2f}"]: the exact value rounded to hundredths, ties to even. *)
Definition format_2f (v : float) : string :=
  let h := round_half_even (Qabs v * 100) in
  (if ltb v 0 then "-" else "") +:+
  pretty (h / 100) +:+ "." +:+ two_digits (h mod 100).

End PyFloat.

(** A Python number that is an [int] or a [float]. *)
Inductive number :=
| NInt (n : Z)
| NFloat (v : PyFloat.float).

(** ** analyzers/base.py *)

Module Base.

(** [size < 1024] *)
Definition lt_1024 (size : number) : bool :=
  match size with
  | NInt n => n <? 1024
  | NFloat v => PyFloat.ltb v 1024
  end.

(** [size /= 1024] *)
Definition div_1024 (size : number) : Res number :=
  match size with
  | NInt n => v ← PyFloat.int_truediv n 1024; mret (NFloat v)
  | NFloat v => mret (NFloat (PyFloat.div_int v 1024))
  end.

(** [f"{size:.2f}"] *)
Definition format_size (size : number) : Res string :=
  match size with
  | NInt n => v ← PyFloat.of_int n; mret (PyFloat.format_2f v)
  | NFloat v => mret (PyFloat.format_2f v)
  end.

Definition units : list string := ["B"; "KB"; "MB"; "GB"].

(** The [for unit in ...] loop of [format_bytes] and the [return] after it. *)
Fixpoint format_bytes_loop (us : list string) (size : number) : Res string :=
  match us with
  | [] => s ← format_size size; mret (s +:+ " TB")
  | unit :: us' =>
      if lt_1024 size
      then s ← format_size size; mret (s +:+ " " +:+ unit)
      else size' ← div_1024 size; format_bytes_loop us' size'
  end.

Definition format_bytes (size : Z) : Res string :=
  format_bytes_loop units (NInt size).

End Base.

(** ** The objects of the replay library that the scripts read

    The [renderdoc] module is not part of the repository. Its enumeration
    values are taken as they come ([rd]); its objects are records of the
    attributes that the scripts read, optional where the scripts test them
    with [hasattr]. *)

Record ActionFlagsT := {
  Drawcall : Z;
  Dispatch : Z;
  Clear : Z;
  Copy : Z;
  PushMarker : Z;
}.

Definition ResourceId := Z.

Record RenderDoc := {
  ActionFlags : ActionFlagsT;
  (** [rd.ResourceId.Null()] *)
  ResourceId_Null : ResourceId;
  (** [int(rd.TextureCategory.ColorTarget)], when [rd] has [TextureCategory] *)
  TextureCategory_ColorTarget : option Z;
}.

Inductive ShaderStage := Vertex | Pixel | Geometry | Hull | Domain.

(** [ActionDescription]: a node of the command tree. *)
#[warnings="-register-all"]
Inductive ActionDescription : Type :=
  mkAction (eventId : Z) (flags : Z)
           (numIndices numInstances : option Z)
           (children : list ActionDescription).

Definition eventId (a : ActionDescription) : Z :=
  match a with mkAction e _ _ _ _ => e end.
Definition flags (a : ActionDescription) : Z :=
  match a with mkAction _ f _ _ _ => f end.
Definition numIndices (a : ActionDescription) : option Z :=
  match a with mkAction _ _ n _ _ => n end.
Definition numInstances (a : ActionDescription) : option Z :=
  match a with mkAction _ _ _ n _ => n end.
Definition children (a : ActionDescription) : list ActionDescription :=
  match a with mkAction _ _ _ _ cs => cs end.

(** The truth value of [flags & int(bit)]. *)
Definition has_flag (fl bit : Z) : bool := negb (Z.land fl bit =? 0).

(** [getattr(o, 'f', d)] on an optional attribute. *)
Definition attr_or {A} (d : A) (o : option A) : A := default d o.

Record ResourceFormat := {
  (** [fmt.Name()], when the format has that method *)
  fmt_Name : option string;
  fmt_str : string;
  compByteWidth : option Z;
  compCount : option Z;
}.

Record TextureDescription := {
  tex_resourceId : string;
  tex_name : option string;
  tex_byteSize : option Z;
  tex_format : ResourceFormat;
  tex_width : Z;
  tex_height : Z;
  tex_depth : Z;
  tex_mips : Z;
  tex_creationFlags : option Z;
}.

Record BufferDescription := {
  buf_resourceId : string;
  buf_name : option string;
  buf_length : option Z;
}.

(** [list.sort]: a stable sort. [before x y] says that the key of [x] may
    stand before the key of [y]; with [reverse=True] that is [key y <= key x],
    and elements with equal keys keep their order. *)
Fixpoint insert_sorted {A} (before : A -> A -> bool) (x : A) (l : list A) : list A :=
  match l with
  | [] => [x]
  | y :: l' => if before x y then x :: y :: l' else y :: insert_sorted before x l'
  end.

Definition stable_sort {A} (before : A -> A -> bool) (l : list A) : list A :=
  foldr (insert_sorted before) [] l.

(** ** analyzers/basic_stats.py *)

Module BasicStats.

Record results := {
  draw_count : Z;
  dispatch_count : Z;
  clear_count : Z;
  copy_count : Z;
  marker_count : Z;
  total_actions : Z;
  max_depth : Z;
}.

Definition init : results :=
  {| draw_count := 0; dispatch_count := 0; clear_count := 0; copy_count := 0;
     marker_count := 0; total_actions := 0; max_depth := 0 |}.

Definition bump (b : bool) (n : Z) : Z := if b then n + 1 else n.

(** The body of [count_actions] before its loop over the children. *)
Definition count_node (rd : RenderDoc) (action : ActionDescription)
    (depth : Z) (r : results) : results :=
  let fl := flags action in
  {| total_actions := total_actions r + 1;
     max_depth := Z.max (max_depth r) depth;
     draw_count := bump (has_flag fl (Drawcall (ActionFlags rd))) (draw_count r);
     dispatch_count := bump (has_flag fl (Dispatch (ActionFlags rd))) (dispatch_count r);
     clear_count := bump (has_flag fl (Clear (ActionFlags rd))) (clear_count r);
     copy_count := bump (has_flag fl (Copy (ActionFlags rd))) (copy_count r);
     marker_count := bump (has_flag fl (PushMarker (ActionFlags rd))) (marker_count r) |}.

Fixpoint count_actions (rd : RenderDoc) (action : ActionDescription)
    (depth : Z) (r : results) : results :=
  let r1 := count_node rd action depth r in
  (fix each (cs : list ActionDescription) (r : results) : results :=
     match cs with
     | [] => r
     | child :: cs' => each cs' (count_actions rd child (depth + 1) r)
     end) (children action) r1.

(** [analyze]: the loop over [controller.GetRootActions()]. *)
Definition analyze (rd : RenderDoc) (roots : list ActionDescription) : results :=
  foldl (fun r action => count_actions rd action 0 r) init roots.

End BasicStats.

(** ** analyzers/memory.py *)

Module Memory.

Record large_texture := {
  lt_id : string;
  lt_name : string;
  lt_size : Z;
  lt_format : string;
  lt_dimensions : string;
  lt_mips : Z;
}.

Record large_buffer := {
  lb_id : string;
  lb_name : string;
  lb_size : Z;
}.

(** One entry of [texture_formats]: ['count'] and ['size']. *)
Record format_stat := { fs_count : Z; fs_size : Z }.

Record results := {
  texture_count : Z;
  texture_size : Z;
  buffer_count : Z;
  buffer_size : Z;
  total_size : Z;
  texture_formats : gmap string format_stat;
  large_textures : list large_texture;
  large_buffers : list large_buffer;
}.

Definition init : results :=
  {| texture_count := 0; texture_size := 0; buffer_count := 0; buffer_size := 0;
     total_size := 0; texture_formats := ∅; large_textures := [];
     large_buffers := [] |}.

(** [x if x else d] on an optional string attribute: a missing and an empty
    name both give the fallback. *)
Definition name_or (o : option string) (d : string) : string :=
  match o with
  | Some s => if String.eqb s "" then d else s
  | None => d
  end.

Definition format_name (f : ResourceFormat) : string :=
  match fmt_Name f with Some n => n | None => fmt_str f end.

(** [texture_formats[k]] under [defaultdict(lambda: {'count': 0, 'size': 0})],
    with both counters updated. *)
Definition add_format (k : string) (size : Z)
    (m : gmap string format_stat) : gmap string format_stat :=
  let old := default {| fs_count := 0; fs_size := 0 |} (m !! k) in
  <[k := {| fs_count := fs_count old + 1; fs_size := fs_size old + size |}]> m.

Definition texture_step (st : results * gmap string format_stat)
    (tex : TextureDescription) : results * gmap string format_stat :=
  let '(r, texture_formats0) := st in
  let size := attr_or 0 (tex_byteSize tex) in
  let fmt_name := format_name (tex_format tex) in
  let large :=
    if 16 * 1024 * 1024 <? size
    then large_textures r ++
         [{| lt_id := tex_resourceId tex;
             lt_name := name_or (tex_name tex) ("Texture_" +:+ tex_resourceId tex);
             lt_size := size;
             lt_format := fmt_name;
             lt_dimensions := pretty (tex_width tex) +:+ "x" +:+
                              pretty (tex_height tex) +:+ "x" +:+
                              pretty (tex_depth tex);
             lt_mips := tex_mips tex |}]
    else large_textures r in
  ({| texture_count := texture_count r;
      texture_size := texture_size r + size;
      buffer_count := buffer_count r;
      buffer_size := buffer_size r;
      total_size := total_size r;
      texture_formats := texture_formats r;
      large_textures := large;
      large_buffers := large_buffers r |},
   add_format fmt_name size texture_formats0).

Definition buffer_step (r : results) (buf : BufferDescription) : results :=
  let size := attr_or 0 (buf_length buf) in
  let large :=
    if 8 * 1024 * 1024 <? size
    then large_buffers r ++
         [{| lb_id := buf_resourceId buf;
             lb_name := name_or (buf_name buf) ("Buffer_" +:+ buf_resourceId buf);
             lb_size := size |}]
    else large_buffers r in
  {| texture_count := texture_count r;
     texture_size := texture_size r;
     buffer_count := buffer_count r;
     buffer_size := buffer_size r + size;
     total_size := total_size r;
     texture_formats := texture_formats r;
     large_textures := large_textures r;
     large_buffers := large |}.

(** [analyze], given what [GetTextures()] and [GetBuffers()] return. *)
Definition analyze (textures : list TextureDescription)
    (buffers : list BufferDescription) : results :=
  let r0 :=
    {| texture_count := Z.of_nat (length textures);
       texture_size := 0; buffer_count := 0; buffer_size := 0; total_size := 0;
       texture_formats := ∅; large_textures := []; large_buffers := [] |} in
  let '(r1, texture_formats1) := foldl texture_step (r0, ∅) textures in
  let r2 :=
    {| texture_count := texture_count r1;
       texture_size := texture_size r1;
       buffer_count := Z.of_nat (length buffers);
       buffer_size := buffer_size r1;
       total_size := total_size r1;
       texture_formats := texture_formats r1;
       large_textures := large_textures r1;
       large_buffers := large_buffers r1 |} in
  let r3 := foldl buffer_step r2 buffers in
  {| texture_count := texture_count r3;
     texture_size := texture_size r3;
     buffer_count := buffer_count r3;
     buffer_size := buffer_size r3;
     total_size := texture_size r3 + buffer_size r3;
     texture_formats := texture_formats1;
     large_textures :=
       stable_sort (fun x y => lt_size y <=? lt_size x) (large_textures r3);
     large_buffers :=
       stable_sort (fun x y => lb_size y <=? lb_size x) (large_buffers r3) |}.

End Memory.

(** ** The pipeline state handed to [analyze_action] *)

Record SigParameter := {
  sig_semanticName : option string;
  sig_semanticIndex : option Z;
}.

Record ShaderReflection := { inputSignature : list SigParameter }.

Record VertexInputAttribute := {
  semanticName : option string;
  semanticIndex : option Z;
  format : option ResourceFormat;
}.

Record IAState := { attributes : option (list VertexInputAttribute) }.

Record Descriptor := { resource : ResourceId }.
Record DescriptorAccess := { staticallyUnused : option bool }.
Record UsedDescriptor := {
  descriptor : option Descriptor;
  access : option DescriptorAccess;
}.

Record PipelineState := {
  GetShaderReflection : ShaderStage -> Res (option ShaderReflection);
  (** absent when the pipeline object has no [GetIAState] *)
  GetIAState : option (Res (option IAState));
  GetShader : ShaderStage -> Res ResourceId;
  GetReadOnlyResources : ShaderStage -> Res (list UsedDescriptor);
  GetReadWriteResources : ShaderStage -> Res (list UsedDescriptor);
  GetConstantBlocks : ShaderStage -> bool -> Res (list UsedDescriptor);
}.

(** [f"{sem_name}{sem_idx}"] *)
Definition full_name (sem_name : string) (sem_idx : Z) : string :=
  sem_name +:+ pretty sem_idx.

(** ** analyzers/vertex_attrs.py *)

Module VertexAttrs.

Record sem_stat := { provided : Z; used : Z; wasted : Z }.

Record worst_draw := {
  wd_eid : Z;
  wd_vertices : Z;
  wd_wasted_bytes : Z;
  wd_wasted_attrs : list string;
}.

Record state := {
  total_draws : Z;
  wasted_draws : Z;
  wasted_bytes : Z;
  wasted_vertices : Z;
  semantic_stats : gmap string sem_stat;
  worst_draws : list worst_draw;
  MAX_DETAIL_RECORDS : Z;
}.

(** [__init__] *)
Definition init : state :=
  {| total_draws := 0; wasted_draws := 0; wasted_bytes := 0; wasted_vertices := 0;
     semantic_stats := ∅; worst_draws := []; MAX_DETAIL_RECORDS := 50 |}.

Record results := {
  r_total_draws : Z;
  r_wasted_draws : Z;
  r_wasted_bytes : Z;
  r_wasted_vertices : Z;
  r_semantic_stats : gmap string sem_stat;
  r_worst_draws : list worst_draw;
}.

Definition analyze (st : state) : results :=
  {| r_total_draws := total_draws st;
     r_wasted_draws := wasted_draws st;
     r_wasted_bytes := wasted_bytes st;
     r_wasted_vertices := wasted_vertices st;
     r_semantic_stats := semantic_stats st;
     r_worst_draws := take 10 (worst_draws st) |}.

(** [semantic_stats[k][field] += 1] under the [defaultdict]. *)
Definition stat_of (m : gmap string sem_stat) (k : string) : sem_stat :=
  default {| provided := 0; used := 0; wasted := 0 |} (m !! k).
Definition bump_used (k : string) (m : gmap string sem_stat) :=
  let s := stat_of m k in
  <[k := {| provided := provided s; used := used s + 1; wasted := wasted s |}]> m.
Definition bump_provided (k : string) (m : gmap string sem_stat) :=
  let s := stat_of m k in
  <[k := {| provided := provided s + 1; used := used s; wasted := wasted s |}]> m.
Definition bump_wasted (k : string) (m : gmap string sem_stat) :=
  let s := stat_of m k in
  <[k := {| provided := provided s; used := used s; wasted := wasted s + 1 |}]> m.

(** One round of the loop over [vs_refl.inputSignature]. *)
Definition sig_step (acc : gset string * gmap string sem_stat)
    (sig : SigParameter) : gset string * gmap string sem_stat :=
  let '(used_semantics, stats) := acc in
  match sig_semanticName sig with
  | Some sem_name =>
      let sem_idx := attr_or 0 (sig_semanticIndex sig) in
      ({[ full_name sem_name sem_idx ]} ∪ used_semantics, bump_used sem_name stats)
  | None => acc
  end.

(** The byte size of a wasted attribute. *)
Definition attr_byte_size (attr : VertexInputAttribute) : Z :=
  match format attr with
  | Some fmt =>
      match compByteWidth fmt, compCount fmt with
      | Some w, Some c => w * c
      | _, _ => 4
      end
  | None => 4
  end.

(** The loop state: [wasted_attrs], [wasted_bytes_per_vertex] and the
    statistics. *)
Record attr_acc := {
  acc_wasted_attrs : list (string * Z);
  acc_wasted_bytes_per_vertex : Z;
  acc_stats : gmap string sem_stat;
}.

(** One round of the loop over the input-assembly attributes. *)
Definition attr_step (used_semantics : gset string) (acc : attr_acc)
    (attr : VertexInputAttribute) : attr_acc :=
  match semanticName attr with
  | None => acc
  | Some sem_name =>
      let sem_idx := attr_or 0 (semanticIndex attr) in
      let stats1 := bump_provided sem_name (acc_stats acc) in
      if bool_decide (full_name sem_name sem_idx ∉ used_semantics) then
        let byte_size := attr_byte_size attr in
        {| acc_wasted_attrs := acc_wasted_attrs acc ++ [(sem_name, byte_size)];
           acc_wasted_bytes_per_vertex := acc_wasted_bytes_per_vertex acc + byte_size;
           acc_stats := bump_wasted sem_name stats1 |}
      else
        {| acc_wasted_attrs := acc_wasted_attrs acc;
           acc_wasted_bytes_per_vertex := acc_wasted_bytes_per_vertex acc;
           acc_stats := stats1 |}
  end.

Definition with_stats (st : state) (stats : gmap string sem_stat) : state :=
  {| total_draws := total_draws st; wasted_draws := wasted_draws st;
     wasted_bytes := wasted_bytes st; wasted_vertices := wasted_vertices st;
     semantic_stats := stats; worst_draws := worst_draws st;
     MAX_DETAIL_RECORDS := MAX_DETAIL_RECORDS st |}.

(** The tail of [analyze_action], from [if wasted_attrs:] on. *)
Definition record_waste (action : ActionDescription) (acc : attr_acc)
    (st : state) : state :=
  match acc_wasted_attrs acc with
  | [] => st
  | _ :: _ =>
      let num_verts := attr_or 0 (numIndices action) in
      let num_instances := attr_or 1 (numInstances action) in
      let total_verts := num_verts * num_instances in
      let wasted := acc_wasted_bytes_per_vertex acc * total_verts in
      {| total_draws := total_draws st;
         wasted_draws := wasted_draws st + 1;
         wasted_bytes := wasted_bytes st + wasted;
         wasted_vertices := wasted_vertices st + total_verts;
         semantic_stats := semantic_stats st;
         worst_draws :=
           if (100 * 1024 <? wasted) &&
              (Z.of_nat (length (worst_draws st)) <? MAX_DETAIL_RECORDS st)
           then worst_draws st ++
                [{| wd_eid := eventId action;
                    wd_vertices := total_verts;
                    wd_wasted_bytes := wasted;
                    wd_wasted_attrs := (acc_wasted_attrs acc).*1 |}]
           else worst_draws st;
         MAX_DETAIL_RECORDS := MAX_DETAIL_RECORDS st |}
  end.

Definition analyze_action (action : ActionDescription) (pipe : PipelineState)
    (st : state) : state :=
  let st0 :=
    {| total_draws := total_draws st + 1; wasted_draws := wasted_draws st;
       wasted_bytes := wasted_bytes st; wasted_vertices := wasted_vertices st;
       semantic_stats := semantic_stats st; worst_draws := worst_draws st;
       MAX_DETAIL_RECORDS := MAX_DETAIL_RECORDS st |} in
  match GetShaderReflection pipe Vertex with
  | Raise _ | Ok None => st0
  | Ok (Some vs_refl) =>
      let '(used_semantics, stats1) :=
        foldl sig_step (∅, semantic_stats st0) (inputSignature vs_refl) in
      let st1 := with_stats st0 stats1 in
      match GetIAState pipe with
      | None | Some (Raise _) | Some (Ok None) => st1
      | Some (Ok (Some ia)) =>
          let attrs := attr_or [] (attributes ia) in
          let acc :=
            foldl (attr_step used_semantics)
              {| acc_wasted_attrs := []; acc_wasted_bytes_per_vertex := 0;
                 acc_stats := stats1 |} attrs in
          record_waste action acc (with_stats st1 (acc_stats acc))
      end
  end.

(** [finalize] *)
Definition finalize (st : state) : state :=
  {| total_draws := total_draws st; wasted_draws := wasted_draws st;
     wasted_bytes := wasted_bytes st; wasted_vertices := wasted_vertices st;
     semantic_stats := semantic_stats st;
     worst_draws :=
       stable_sort (fun x y => wd_wasted_bytes y <=? wd_wasted_bytes x)
         (worst_draws st);
     MAX_DETAIL_RECORDS := MAX_DETAIL_RECORDS st |}.

End VertexAttrs.

(** ** analyzers/shader_bindings.py *)

Module ShaderBindings.

Record binding_stat := { bs_total : Z; bs_unused : Z }.

Record worst_draw := { wd_eid : Z; wd_unused_count : Z }.

Record state := {
  total_bindings : Z;
  unused_bindings : Z;
  binding_stats : gmap string binding_stat;
  draws_with_waste : Z;
  total_draws : Z;
  worst_draws : list worst_draw;
  MAX_DETAIL_RECORDS : Z;
}.

(** [__init__] *)
Definition init : state :=
  {| total_bindings := 0; unused_bindings := 0; binding_stats := ∅;
     draws_with_waste := 0; total_draws := 0; worst_draws := [];
     MAX_DETAIL_RECORDS := 50 |}.

Record results := {
  r_total_bindings : Z;
  r_unused_bindings : Z;
  r_binding_stats : gmap string binding_stat;
  r_total_draws : Z;
  r_draws_with_waste : Z;
  r_worst_draws : list worst_draw;
}.

Definition analyze (st : state) : results :=
  {| r_total_bindings := total_bindings st;
     r_unused_bindings := unused_bindings st;
     r_binding_stats := binding_stats st;
     r_total_draws := total_draws st;
     r_draws_with_waste := draws_with_waste st;
     r_worst_draws := take 10 (worst_draws st) |}.

Definition stages : list ShaderStage := [Vertex; Pixel; Geometry; Hull; Domain].

Definition stat_of (m : gmap string binding_stat) (k : string) : binding_stat :=
  default {| bs_total := 0; bs_unused := 0 |} (m !! k).
Definition bump_total (k : string) (m : gmap string binding_stat) :=
  let s := stat_of m k in
  <[k := {| bs_total := bs_total s + 1; bs_unused := bs_unused s |}]> m.
Definition bump_unused (k : string) (m : gmap string binding_stat) :=
  let s := stat_of m k in
  <[k := {| bs_total := bs_total s; bs_unused := bs_unused s + 1 |}]> m.

(** [hasattr(binding, 'access')] and
    [getattr(binding.access, 'staticallyUnused', False)] *)
Definition is_statically_unused (binding : UsedDescriptor) : bool :=
  match access binding with
  | Some acc => attr_or false (staticallyUnused acc)
  | None => false
  end.

(** One round of a loop over bindings of the kind [kind] (SRV, UAV or CBV);
    the second component is the local [draw_unused]. *)
Definition binding_step (rd : RenderDoc) (kind : string) (acc : state * Z)
    (binding : UsedDescriptor) : state * Z :=
  let '(st, draw_unused) := acc in
  match descriptor binding with
  | None => acc
  | Some d =>
      if resource d =? ResourceId_Null rd then acc
      else
        let unused := is_statically_unused binding in
        let stats1 := bump_total kind (binding_stats st) in
        ({| total_bindings := total_bindings st + 1;
            unused_bindings :=
              if unused then unused_bindings st + 1 else unused_bindings st;
            binding_stats := if unused then bump_unused kind stats1 else stats1;
            draws_with_waste := draws_with_waste st;
            total_draws := total_draws st;
            worst_draws := worst_draws st;
            MAX_DETAIL_RECORDS := MAX_DETAIL_RECORDS st |},
         if unused then draw_unused + 1 else draw_unused)
  end.

(** A [try: ... for binding in get(stage): ... except: pass] block. *)
Definition scan (rd : RenderDoc) (kind : string)
    (got : Res (list UsedDescriptor)) (acc : state * Z) : state * Z :=
  match got with
  | Ok bindings => foldl (binding_step rd kind) acc bindings
  | Raise _ => acc
  end.

(** One round of the loop over [stages]. *)
Definition stage_step (rd : RenderDoc) (pipe : PipelineState)
    (acc : state * Z) (stage : ShaderStage) : state * Z :=
  match GetShader pipe stage with
  | Raise _ => acc
  | Ok shader =>
      if shader =? ResourceId_Null rd then acc
      else
        let acc1 := scan rd "SRV" (GetReadOnlyResources pipe stage) acc in
        let acc2 := scan rd "UAV" (GetReadWriteResources pipe stage) acc1 in
        scan rd "CBV" (GetConstantBlocks pipe stage false) acc2
  end.

Definition analyze_action (rd : RenderDoc) (action : ActionDescription)
    (pipe : PipelineState) (st : state) : state :=
  let st0 :=
    {| total_bindings := total_bindings st; unused_bindings := unused_bindings st;
       binding_stats := binding_stats st; draws_with_waste := draws_with_waste st;
       total_draws := total_draws st + 1; worst_draws := worst_draws st;
       MAX_DETAIL_RECORDS := MAX_DETAIL_RECORDS st |} in
  let '(st1, draw_unused) := foldl (stage_step rd pipe) (st0, 0) stages in
  if 0 <? draw_unused then
    {| total_bindings := total_bindings st1; unused_bindings := unused_bindings st1;
       binding_stats := binding_stats st1;
       draws_with_waste := draws_with_waste st1 + 1;
       total_draws := total_draws st1;
       worst_draws :=
         if (3 <=? draw_unused) &&
            (Z.of_nat (length (worst_draws st1)) <? MAX_DETAIL_RECORDS st1)
         then worst_draws st1 ++
              [{| wd_eid := eventId action; wd_unused_count := draw_unused |}]
         else worst_draws st1;
       MAX_DETAIL_RECORDS := MAX_DETAIL_RECORDS st1 |}
  else st1.

(** [finalize] *)
Definition finalize (st : state) : state :=
  {| total_bindings := total_bindings st; unused_bindings := unused_bindings st;
     binding_stats := binding_stats st; draws_with_waste := draws_with_waste st;
     total_draws := total_draws st;
     worst_draws :=
       stable_sort (fun x y => wd_unused_count y <=? wd_unused_count x)
         (worst_draws st);
     MAX_DETAIL_RECORDS := MAX_DETAIL_RECORDS st |}.

End ShaderBindings.

(** ** analyzers/overdraw.py *)

Module Overdraw.

Record high_draw := {
  hd_eid : Z;
  hd_overdraw : PyFloat.float;
  hd_triangles : Z;
  hd_instances : Z;
}.

Record state := {
  total_triangles : Z;
  total_vertices : Z;
  total_instances : Z;
  main_screen_pixels : Z;
  high_overdraw_draws : list high_draw;
  MAX_DETAIL_RECORDS : Z;
}.

(** [rt_resolutions[(w, h)] += 1] on a [defaultdict(int)], which keeps its
    keys in the order of their first insertion. *)
Fixpoint bump_resolution (key : Z * Z) (l : list (Z * Z * Z)) : list (Z * Z * Z) :=
  match l with
  | [] => [(key, 1)]
  | (k, cnt) :: l' =>
      if bool_decide (k = key) then (k, cnt + 1) :: l'
      else (k, cnt) :: bump_resolution key l'
  end.

Definition resolution_step (rd : RenderDoc) (acc : list (Z * Z * Z))
    (tex : TextureDescription) : list (Z * Z * Z) :=
  match tex_creationFlags tex, TextureCategory_ColorTarget rd with
  | Some fl, Some color_target =>
      if has_flag fl color_target
      then bump_resolution (tex_width tex, tex_height tex) acc
      else acc
  | _, _ => acc
  end.

(** [_detect_main_resolution], given the outcome of [GetTextures()]. *)
Definition detect_main_resolution (rd : RenderDoc)
    (textures : Res (list TextureDescription)) : Z :=
  let rt_resolutions :=
    match textures with
    | Ok texs => foldl (resolution_step rd) [] texs
    | Raise _ => []
    end in
  let candidates :=
    filter (fun '(w, h, cnt) => 256 <= w ∧ 256 <= h ∧ w ≠ h) rt_resolutions in
  match stable_sort (fun x y => - x.2 <=? - y.2) candidates with
  | (w, h, _) :: _ => w * h
  | [] => 0
  end.

(** [__init__] *)
Definition init (rd : RenderDoc) (textures : Res (list TextureDescription)) : state :=
  {| total_triangles := 0; total_vertices := 0; total_instances := 0;
     main_screen_pixels := detect_main_resolution rd textures;
     high_overdraw_draws := []; MAX_DETAIL_RECORDS := 50 |}.

Record results := {
  r_total_triangles : Z;
  r_total_vertices : Z;
  r_total_instances : Z;
  r_main_screen_pixels : Z;
  r_avg_overdraw : number;
  r_high_overdraw_draws : list high_draw;
}.

Definition analyze (st : state) : Res results :=
  avg_overdraw ←
    (if 0 <? main_screen_pixels st then
       let estimated_total_pixels := total_triangles st * 100 in
       v ← PyFloat.int_truediv estimated_total_pixels (main_screen_pixels st);
       mret (NFloat v)
     else mret (NInt 0));
  mret {| r_total_triangles := total_triangles st;
          r_total_vertices := total_vertices st;
          r_total_instances := total_instances st;
          r_main_screen_pixels := main_screen_pixels st;
          r_avg_overdraw := avg_overdraw;
          r_high_overdraw_draws := take 10 (high_overdraw_draws st) |}.

(** [analyze_action]; the state is returned also when the division raises,
    since the counters are updated before it. *)
Definition analyze_action (action : ActionDescription) (st : state)
    : Res unit * state :=
  let num_verts := attr_or 0 (numIndices action) in
  let num_instances := attr_or 1 (numInstances action) in
  let triangles := (num_verts `div` 3) * num_instances in
  let st1 :=
    {| total_triangles := total_triangles st + triangles;
       total_vertices := total_vertices st + num_verts * num_instances;
       total_instances := total_instances st + num_instances;
       main_screen_pixels := main_screen_pixels st;
       high_overdraw_draws := high_overdraw_draws st;
       MAX_DETAIL_RECORDS := MAX_DETAIL_RECORDS st |} in
  if (0 <? main_screen_pixels st1) && (0 <? triangles) then
    let estimated_pixels := triangles * 100 in
    match PyFloat.int_truediv estimated_pixels (main_screen_pixels st1) with
    | Raise e => (Raise e, st1)
    | Ok overdraw =>
        if PyFloat.ltb 3 overdraw &&
           (Z.of_nat (length (high_overdraw_draws st1)) <? MAX_DETAIL_RECORDS st1)
        then
          (Ok (),
           {| total_triangles := total_triangles st1;
              total_vertices := total_vertices st1;
              total_instances := total_instances st1;
              main_screen_pixels := main_screen_pixels st1;
              high_overdraw_draws :=
                high_overdraw_draws st1 ++
                [{| hd_eid := eventId action; hd_overdraw := overdraw;
                    hd_triangles := triangles; hd_instances := num_instances |}];
              MAX_DETAIL_RECORDS := MAX_DETAIL_RECORDS st1 |})
        else (Ok (), st1)
    end
  else (Ok (), st1).

(** [finalize] *)
Definition finalize (st : state) : state :=
  {| total_triangles := total_triangles st; total_vertices := total_vertices st;
     total_instances := total_instances st;
     main_screen_pixels := main_screen_pixels st;
     high_overdraw_draws :=
       stable_sort (fun x y => Qle_bool (hd_overdraw y) (hd_overdraw x))
         (high_overdraw_draws st);
     MAX_DETAIL_RECORDS := MAX_DETAIL_RECORDS st |}.

End Overdraw.

(** ** analyze_all.py: the scheduler

    Analyzers and the replay controller are objects with state of their own,
    which they may share; [World] is the state of all of them. What an
    analyzer returns from [analyze] is a [Data]. *)

Module Scheduler.

Section Defs.

Context {World Data : Type}.

(** The interface of [BaseAnalyzer], as the scheduler calls it. *)
Record Analyzer := {
  analyze : World -> Res Data * World;
  analyze_action : ActionDescription -> PipelineState -> World -> Res unit * World;
  finalize : World -> Res unit * World;
  format_report : World -> Res string * World;
}.

(** The replay controller, as the scheduler calls it. *)
Record Controller := {
  SetFrameEvent : Z -> bool -> World -> Res unit * World;
  GetPipelineState : World -> Res PipelineState * World;
  GetRootActions : World -> Res (list ActionDescription) * World;
}.

(** A [threading.Timer]. *)
Record Timer := {
  interval : Z;
  daemon : bool;
  started : bool;
  cancelled : bool;
}.

(** An entry of [self.results]. *)
Inductive mod_result :=
| Success (data : Data) (analyzer : Analyzer)
| Error (error : string)
| Partial (error : string).

(** What the scheduler does that is visible outside it, in order. *)
Inductive event :=
| EvTimerStart (t : Timer)
| EvTimerCancel
| EvVisit (action : ActionDescription)
| EvSetFrameEvent (eid : Z) (force : bool)
| EvGetPipelineState
| EvAnalyzeAction (mod_id : string) (action : ActionDescription) (r : Res unit)
| EvFinalize (mod_id : string) (raised : option exn)
| EvAnalyze (mod_id : string) (raised : option exn).

(** An [AnalysisScheduler]. [processed] is the local variable of
    [run_iteration_analyzers] that [process_action] updates; [clock]
    counts the reads of [self.timed_out]; [trace] records the events. *)
Record Sched := {
  timeout : Z;
  timeout_timer : option Timer;
  timed_out : bool;
  results : gmap string mod_result;
  errors : gmap string string;
  processed : Z;
  world : World;
  clock : nat;
  trace : list event;
}.

(** [__init__], with the state of the objects around it. *)
Definition new (timeout : Z) (w : World) : Sched :=
  {| timeout := timeout; timeout_timer := None; timed_out := false;
     results := ∅; errors := ∅; processed := 0; world := w; clock := 0%nat;
     trace := [] |}.

Definition set_timer (t : option Timer) (s : Sched) : Sched :=
  {| timeout := timeout s; timeout_timer := t; timed_out := timed_out s;
     results := results s; errors := errors s; processed := processed s;
     world := world s; clock := clock s; trace := trace s |}.
Definition set_timed_out (b : bool) (s : Sched) : Sched :=
  {| timeout := timeout s; timeout_timer := timeout_timer s; timed_out := b;
     results := results s; errors := errors s; processed := processed s;
     world := world s; clock := clock s; trace := trace s |}.
Definition set_results (r : gmap string mod_result) (s : Sched) : Sched :=
  {| timeout := timeout s; timeout_timer := timeout_timer s;
     timed_out := timed_out s; results := r; errors := errors s;
     processed := processed s; world := world s; clock := clock s;
     trace := trace s |}.
Definition set_errors (e : gmap string string) (s : Sched) : Sched :=
  {| timeout := timeout s; timeout_timer := timeout_timer s;
     timed_out := timed_out s; results := results s; errors := e;
     processed := processed s; world := world s; clock := clock s;
     trace := trace s |}.
Definition set_processed (n : Z) (s : Sched) : Sched :=
  {| timeout := timeout s; timeout_timer := timeout_timer s;
     timed_out := timed_out s; results := results s; errors := errors s;
     processed := n; world := world s; clock := clock s; trace := trace s |}.
Definition set_world (w : World) (s : Sched) : Sched :=
  {| timeout := timeout s; timeout_timer := timeout_timer s;
     timed_out := timed_out s; results := results s; errors := errors s;
     processed := processed s; world := w; clock := clock s; trace := trace s |}.
Definition tick (s : Sched) : Sched :=
  {| timeout := timeout s; timeout_timer := timeout_timer s;
     timed_out := timed_out s; results := results s; errors := errors s;
     processed := processed s; world := world s; clock := S (clock s);
     trace := trace s |}.
Definition emit (ev : event) (s : Sched) : Sched :=
  {| timeout := timeout s; timeout_timer := timeout_timer s;
     timed_out := timed_out s; results := results s; errors := errors s;
     processed := processed s; world := world s; clock := clock s;
     trace := trace s ++ [ev] |}.

(** *** The timer thread *)

(** [fires n]: the timer thread has run its callback by the time of the
    [n]-th read of [self.timed_out]. *)
Context (fires : nat -> bool).

(** The callback [on_timeout]: it sets the flag; what it prints is left
    out, as all output is. *)
Definition on_timeout (s : Sched) : Sched := set_timed_out true s.

Definition timer_running (s : Sched) : bool :=
  match timeout_timer s with
  | Some t => started t && negb (cancelled t)
  | None => false
  end.

Definition start_timeout (s : Sched) : Sched :=
  let t := {| interval := timeout s; daemon := true; started := true;
              cancelled := false |} in
  emit (EvTimerStart t) (set_timer (Some t) s).

Definition cancel_timeout (s : Sched) : Sched :=
  match timeout_timer s with
  | Some t =>
      emit EvTimerCancel
        (set_timer (Some {| interval := interval t; daemon := daemon t;
                            started := started t; cancelled := true |}) s)
  | None => s
  end.

(** *** Scheduler code: state and exceptions *)

Definition M (A : Type) : Type := Sched -> Res A * Sched.

#[local] Instance M_ret : MRet M := fun A a s => (Ok a, s).
#[local] Instance M_bind : MBind M := fun A B f m s =>
  match m s with
  | (Ok a, s') => f a s'
  | (Raise e, s') => (Raise e, s')
  end.

(** [try: body except Exception as e: handler(e)]: an exception that is
    not an instance of [Exception] leaves the block. *)
Definition try_except {A} (body : M A) (handler : exn -> M A) : M A :=
  fun s =>
    match body s with
    | (Ok a, s') => (Ok a, s')
    | (Raise e, s') => if is_Exception e then handler e s' else (Raise e, s')
    end.

Definition modify (f : Sched -> Sched) : M unit := fun s => (Ok (), f s).
Definition gets {A} (f : Sched -> A) : M A := fun s => (Ok (f s), s).

(** A read of [self.timed_out]: the callback of a running timer that has
    fired is seen first. *)
Definition read_timed_out : M bool :=
  fun s =>
    let s1 := if timer_running s && fires (clock s) then on_timeout s else s in
    (Ok (timed_out s1), tick s1).

(** A call into an analyzer or the controller. *)
Definition call {A} (op : World -> Res A * World) : M A :=
  fun s => let '(r, w) := op (world s) in (r, set_world w s).

(** The exception that a call raised, if any. *)
Definition raised_by {A} (r : Res A) : option exn :=
  match r with Ok _ => None | Raise e => Some e end.

(** [analyzer.analyze()] and [analyzer.finalize()], on record. *)
Definition call_analyze (mod_id : string) (analyzer : Analyzer) : M Data :=
  fun s =>
    let '(r, w) := analyze analyzer (world s) in
    (r, emit (EvAnalyze mod_id (raised_by r)) (set_world w s)).

Definition call_finalize (mod_id : string) (analyzer : Analyzer) : M unit :=
  fun s =>
    let '(r, w) := finalize analyzer (world s) in
    (r, emit (EvFinalize mod_id (raised_by r)) (set_world w s)).

(** [for x in l: body(x)] *)
Fixpoint for_each {A} (l : list A) (body : A -> M unit) : M unit :=
  match l with
  | [] => mret ()
  | x :: l' => body x;; for_each l' body
  end.

(** ['analyze_action' in msg] *)
Fixpoint contains (needle hay : string) : bool :=
  String.prefix needle hay ||
  match hay with
  | EmptyString => false
  | String _ hay' => contains needle hay'
  end.

(** *** create_analyzers *)

Definition AnalyzerClass : Type := World -> Res Analyzer * World.

Definition create_analyzers
    (ALL_ANALYZERS : list (string * string * AnalyzerClass * bool))
    (enabled_modules : option (list string))
    : M (list (string * string * Analyzer * bool)) :=
  foldl
    (fun (acc : M (list (string * string * Analyzer * bool)))
         '(mod_id, mod_name, cls, needs_iteration) =>
       analyzers ← acc;
       let skip :=
         match enabled_modules with
         | Some ((_ :: _) as ms) => bool_decide (mod_id ∉ ms)
         | _ => false
         end in
       if skip then mret analyzers
       else
         try_except
           (analyzer ← call cls;
            mret (analyzers ++ [(mod_id, mod_name, analyzer, needs_iteration)]))
           (fun e =>
              modify (fun s =>
                set_errors (<[mod_id := "初始化失败: " +:+ exn_str e]> (errors s)) s);;
              mret analyzers))
    (mret []) ALL_ANALYZERS.

(** *** run_static_analyzers *)

Definition run_static_analyzer
    (entry : string * string * Analyzer * bool) : M unit :=
  let '(mod_id, mod_name, analyzer, needs_iteration) := entry in
  if needs_iteration then mret ()
  else
    timed ← read_timed_out;
    if timed : bool then
      modify (fun s => set_errors (<[mod_id := "超时跳过"]> (errors s)) s)
    else
      try_except
        (result ← call_analyze mod_id analyzer;
         modify (fun s =>
           set_results (<[mod_id := Success result analyzer]> (results s)) s))
        (fun e =>
           modify (fun s => set_errors (<[mod_id := exn_str e]> (errors s)) s);;
           modify (fun s =>
             set_results (<[mod_id := Error (exn_str e)]> (results s)) s)).

Definition run_static_analyzers
    (analyzers : list (string * string * Analyzer * bool)) : M unit :=
  for_each analyzers run_static_analyzer.

(** *** run_iteration_analyzers *)

Definition replay (controller : Controller) (action : ActionDescription)
    : M PipelineState :=
  modify (emit (EvSetFrameEvent (eventId action) false));;
  call (SetFrameEvent controller (eventId action) false);;
  modify (emit EvGetPipelineState);;
  call (GetPipelineState controller).

(** One round of the loop over [iter_analyzers] in [process_action]. *)
Definition call_analyzer (action : ActionDescription) (pipe : PipelineState)
    (entry : string * string * Analyzer) : M unit :=
  let '(mod_id, mod_name, analyzer) := entry in
  errs ← gets errors;
  if bool_decide (is_Some (errs !! mod_id)) then mret ()
  else
    try_except
      (fun s =>
         let '(r, w) := analyze_action analyzer action pipe (world s) in
         (r, emit (EvAnalyzeAction mod_id action r) (set_world w s)))
      (fun e =>
         errs ← gets errors;
         if bool_decide (is_Some (errs !! mod_id)) then mret ()
         else
           modify (fun s =>
             set_errors
               (<[mod_id := "analyze_action 失败: " +:+ exn_str e]> (errors s)) s)).

Definition is_draw_or_dispatch (rd : RenderDoc) (action : ActionDescription) : bool :=
  let fl := flags action in
  let is_draw := has_flag fl (Drawcall (ActionFlags rd)) in
  let is_dispatch := has_flag fl (Dispatch (ActionFlags rd)) in
  is_draw || is_dispatch.

(** The [if is_draw or is_dispatch:] block of [process_action]; [false]
    when it leaves [process_action] through its [return]. *)
Definition process_draw (controller : Controller)
    (iter_analyzers : list (string * string * Analyzer))
    (action : ActionDescription) : M bool :=
  modify (fun s => set_processed (processed s + 1) s);;
  got ← try_except (pipe ← replay controller action; mret (Some pipe))
                   (fun _ => mret None);
  match got with
  | None => mret false
  | Some pipe =>
      for_each iter_analyzers (call_analyzer action pipe);;
      mret true
  end.

Fixpoint process_action (rd : RenderDoc) (controller : Controller)
    (iter_analyzers : list (string * string * Analyzer))
    (action : ActionDescription) {struct action} : M unit :=
  timed ← read_timed_out;
  if timed : bool then mret ()
  else
    modify (emit (EvVisit action));;
    go_on ← (if is_draw_or_dispatch rd action
             then process_draw controller iter_analyzers action
             else mret true);
    if go_on : bool then
      (fix each (cs : list ActionDescription) : M unit :=
         match cs with
         | [] => mret ()
         | child :: cs' =>
             timed ← read_timed_out;
             if timed : bool then mret ()
             else process_action rd controller iter_analyzers child;; each cs'
         end) (children action)
    else mret ().

(** The loop over [controller.GetRootActions()], with its [break]. *)
Fixpoint process_roots (rd : RenderDoc) (controller : Controller)
    (iter_analyzers : list (string * string * Analyzer))
    (roots : list ActionDescription) : M unit :=
  match roots with
  | [] => mret ()
  | action :: roots' =>
      timed ← read_timed_out;
      if timed : bool then mret ()
      else process_action rd controller iter_analyzers action;;
           process_roots rd controller iter_analyzers roots'
  end.

(** The [try] block of the last loop of [run_iteration_analyzers]. *)
Definition finalize_and_analyze (mod_id : string) (analyzer : Analyzer) : M unit :=
  try_except
    (call_finalize mod_id analyzer;;
     result ← call_analyze mod_id analyzer;
     modify (fun s =>
       set_results (<[mod_id := Success result analyzer]> (results s)) s))
    (fun e =>
       modify (fun s => set_errors (<[mod_id := exn_str e]> (errors s)) s);;
       modify (fun s =>
         set_results (<[mod_id := Error (exn_str e)]> (results s)) s)).

(** One round of the last loop of [run_iteration_analyzers]. *)
Definition finish_analyzer (entry : string * string * Analyzer) : M unit :=
  let '(mod_id, mod_name, analyzer) := entry in
  errs ← gets errors;
  match errs !! mod_id with
  | Some msg =>
      if contains "analyze_action" msg
      then modify (fun s => set_results (<[mod_id := Partial msg]> (results s)) s)
      else finalize_and_analyze mod_id analyzer
  | None => finalize_and_analyze mod_id analyzer
  end.

(** [[(m, n, a) for m, n, a, needs in analyzers if needs]] *)
Definition iteration_entries (analyzers : list (string * string * Analyzer * bool))
    : list (string * string * Analyzer) :=
  omap (fun '(m, n, a, needs) => if needs : bool then Some (m, n, a) else None)
       analyzers.

Definition run_iteration_analyzers (rd : RenderDoc) (controller : Controller)
    (analyzers : list (string * string * Analyzer * bool)) : M unit :=
  let iter_analyzers := iteration_entries analyzers in
  match iter_analyzers with
  | [] => mret ()
  | _ :: _ =>
      modify (set_processed 0);;
      roots ← call (GetRootActions controller);
      process_roots rd controller iter_analyzers roots;;
      for_each iter_analyzers finish_analyzer
  end.

End Defs.

Arguments Analyzer : clear implicits.
Arguments Controller : clear implicits.
Arguments Sched : clear implicits.
Arguments event : clear implicits.
Arguments mod_result : clear implicits.
Arguments M : clear implicits.

End Scheduler.

(** ** Vocabulary of the statements *)

(** The nodes of the subtree of [a], parents before children, each with its
    nesting depth when [a] is at depth [depth]. *)
Fixpoint nodes_at (depth : Z) (a : ActionDescription) : list (Z * ActionDescription) :=
  (depth, a) ::
  (fix below (cs : list ActionDescription) : list (Z * ActionDescription) :=
     match cs with
     | [] => []
     | child :: cs' => nodes_at (depth + 1) child ++ below cs'
     end) (children a).

(** The nodes of the subtree of [a], parents before children. *)
Fixpoint preorder (a : ActionDescription) : list ActionDescription :=
  a ::
  (fix below (cs : list ActionDescription) : list ActionDescription :=
     match cs with
     | [] => []
     | child :: cs' => preorder child ++ below cs'
     end) (children a).

(** All nodes reachable from the roots through [children]. *)
Definition forest (roots : list ActionDescription) : list ActionDescription :=
  flat_map preorder roots.

Definition Zsum (l : list Z) : Z := foldr Z.add 0 l.

(** The largest of a list of depths; [0] for no node at all. *)
Definition deepest (ds : list Z) : Z := foldr Z.max 0 ds.

(** How many nodes carry the flag [bit]. *)
Definition count_flag (bit : Z) (ns : list ActionDescription) : Z :=
  Z.of_nat (length (filter (fun a => has_flag (flags a) bit = true) ns)).

(** The bytes that [MemoryAnalyzer] counts for a texture and for a buffer. *)
Definition texture_bytes (tex : TextureDescription) : Z := attr_or 0 (tex_byteSize tex).
Definition buffer_bytes (buf : BufferDescription) : Z := attr_or 0 (buf_length buf).

(** The string under which an entry of the input signature of the vertex
    shader, and an input-assembly attribute, is known: [semanticName]
    followed by [semanticIndex] (0 when absent). *)
Definition sig_name (sig : SigParameter) : option string :=
  name ← sig_semanticName sig;
  Some (full_name name (attr_or 0 (sig_semanticIndex sig))).

Definition attr_name (attr : VertexInputAttribute) : option string :=
  name ← semanticName attr;
  Some (full_name name (attr_or 0 (semanticIndex attr))).

Definition signature_names (refl : ShaderReflection) : list string :=
  omap sig_name (inputSignature refl).

(** An attribute is wasted when its string does not appear among the
    entries of the input signature. *)
Definition is_wasted (refl : ShaderReflection) (attr : VertexInputAttribute) : Prop :=
  match attr_name attr with
  | Some n => n ∉ signature_names refl
  | None => False
  end.

#[global] Instance is_wasted_dec refl attr : Decision (is_wasted refl attr).
Proof. unfold is_wasted. destruct (attr_name attr); apply _. Defined.

(** What [wasted_attrs] holds for a wasted attribute. *)
Definition wasted_entry (attr : VertexInputAttribute) : option (string * Z) :=
  name ← semanticName attr; Some (name, VertexAttrs.attr_byte_size attr).

(** ** Sample objects, for running the definitions *)

Module Sample.

Definition rd : RenderDoc :=
  {| ActionFlags :=
       {| Drawcall := 2; Dispatch := 4; Clear := 1; Copy := 1024; PushMarker := 64 |};
     ResourceId_Null := 0;
     TextureCategory_ColorTarget := Some 2 |}.

Definition float3 : ResourceFormat :=
  {| fmt_Name := Some "R32G32B32_FLOAT"; fmt_str := "R32G32B32_FLOAT";
     compByteWidth := Some 4; compCount := Some 3 |}.

Definition refl : ShaderReflection :=
  {| inputSignature :=
       [ {| sig_semanticName := Some "POSITION"; sig_semanticIndex := Some 0 |};
         {| sig_semanticName := Some "TEXCOORD"; sig_semanticIndex := None |} ] |}.

Definition ia : IAState :=
  {| attributes := Some
       [ {| semanticName := Some "POSITION"; semanticIndex := Some 0;
            format := Some float3 |};
         {| semanticName := Some "NORMAL"; semanticIndex := Some 0;
            format := Some float3 |};
         {| semanticName := Some "COLOR"; semanticIndex := None; format := None |};
         {| semanticName := Some "TEXCOORD"; semanticIndex := Some 0;
            format := Some float3 |} ] |}.

Definition unused_binding : UsedDescriptor :=
  {| descriptor := Some {| resource := 7 |};
     access := Some {| staticallyUnused := Some true |} |}.

Definition pipe : PipelineState :=
  {| GetShaderReflection := fun _ => Ok (Some refl);
     GetIAState := Some (Ok (Some ia));
     GetShader := fun stage => Ok (match stage with Vertex | Pixel => 5 | _ => 0 end);
     GetReadOnlyResources := fun _ => Ok [unused_binding; unused_binding];
     GetReadWriteResources := fun _ => Raise (PyExc "RuntimeError" "no UAV");
     GetConstantBlocks := fun _ _ => Ok [] |}.

(** A marker with a draw of 12000 indices and 2 instances, and a clear. *)
Definition draw : ActionDescription := mkAction 11 2 (Some 12000) (Some 2) [].
Definition clear : ActionDescription := mkAction 12 1 None None [].
Definition marker : ActionDescription := mkAction 10 64 None None [draw; clear].

(** A colour target of 1280 by 720 pixels. *)
Definition screen : TextureDescription :=
  {| tex_resourceId := "ResourceId::31"; tex_name := Some "backbuffer";
     tex_byteSize := Some 3686400; tex_format := float3;
     tex_width := 1280; tex_height := 720; tex_depth := 1; tex_mips := 1;
     tex_creationFlags := Some 2 |}.

End Sample.

(** The triangles that [OverdrawAnalyzer] counts for an action. *)
Definition triangles_of (a : ActionDescription) : Z :=
  (attr_or 0 (numIndices a) `div` 3) * attr_or 1 (numInstances a).

(** The state of an analyzer after [analyze_action] was called on each
    element of a list in turn. *)
Definition vertex_attrs_after (calls : list (ActionDescription * PipelineState))
    : VertexAttrs.state :=
  foldl (fun st c => VertexAttrs.analyze_action c.1 c.2 st) VertexAttrs.init calls.

Definition shader_bindings_after (rd : RenderDoc)
    (calls : list (ActionDescription * PipelineState)) : ShaderBindings.state :=
  foldl (fun st c => ShaderBindings.analyze_action rd c.1 c.2 st)
        ShaderBindings.init calls.

Definition overdraw_after (st : Overdraw.state) (actions : list ActionDescription)
    : Overdraw.state :=
  foldl (fun st a => (Overdraw.analyze_action a st).2) st actions.

(** [top] holds the greatest elements of [all]: the rest of [all] has no
    element with a greater key. [ge x y] says that the key of [x] is at
    least the key of [y]. *)
Definition top_of {A} (ge : A -> A -> Prop) (top all : list A) : Prop :=
  exists rest, top ++ rest ≡ₚ all /\ forall x y, x ∈ top -> y ∈ rest -> ge x y.

(** The unit and the number that [format_bytes] shows once the size is a
    float [v], in exact arithmetic. *)
Fixpoint pick_unit (us : list string) (v : Q) : Q * string :=
  match us with
  | [] => (v, "TB")
  | unit :: us' =>
      if PyFloat.ltb v 1024 then (v, unit) else pick_unit us' (v / 1024)
  end.

(** From this size on, [size / 1024] is beyond the binary64 range. *)
Definition format_bytes_limit : Z := 2 ^ 1034 - 2 ^ 980.

(** *** What a trace shows *)

(** A call into the replay engine. *)
Inductive replay_call :=
| CallSetFrameEvent (eid : Z) (force : bool)
| CallGetPipelineState.

Section TraceVocabulary.

Import Scheduler.

(** The actions that [process_action] examined, in order. *)
Definition visits (T : list event) : list ActionDescription :=
  omap (fun ev => match ev with EvVisit a => Some a | _ => None end) T.

(** The events that the replay engine was asked to replay to, in order. *)
Definition replays (T : list event) : list Z :=
  omap (fun ev => match ev with EvSetFrameEvent eid _ => Some eid | _ => None end) T.

(** The calls of [analyze_action] on the analyzer of module [m], each with
    its outcome. *)
Definition calls (m : string) (T : list event) : list (ActionDescription * Res unit) :=
  omap (fun ev =>
          match ev with
          | EvAnalyzeAction m' a r => if decide (m' = m) then Some (a, r) else None
          | _ => None
          end) T.

(** The modules whose [finalize], and whose [analyze], was called, each
    with the exception that the call raised, if any. *)
Definition finalized (T : list event) : list (string * option exn) :=
  omap (fun ev => match ev with EvFinalize m r => Some (m, r) | _ => None end) T.

Definition analyzed (T : list event) : list (string * option exn) :=
  omap (fun ev => match ev with EvAnalyze m r => Some (m, r) | _ => None end) T.

(** The timer threads that were started. *)
Definition timers (T : list event) : list Timer :=
  omap (fun ev => match ev with EvTimerStart t => Some t | _ => None end) T.

(** The starts and the cancellations of timers. *)
Definition timer_events (T : list event) : list event :=
  omap (fun ev =>
          match ev with
          | EvTimerStart _ | EvTimerCancel => Some ev
          | _ => None
          end) T.

(** The calls into the replay engine, in order. *)
Definition replay_calls (T : list event) : list replay_call :=
  omap (fun ev =>
          match ev with
          | EvSetFrameEvent eid force => Some (CallSetFrameEvent eid force)
          | EvGetPipelineState => Some CallGetPipelineState
          | _ => None
          end) T.

(** The replay to an action: [SetFrameEvent(action.eventId, False)], then
    [GetPipelineState()]. *)
Definition replay_to (a : ActionDescription) : list replay_call :=
  [CallSetFrameEvent (eventId a) false; CallGetPipelineState].

(** The module has a recorded [analyze_action] failure. *)
Definition action_failed (errs : gmap string string) (m : string) : bool :=
  match errs !! m with
  | Some msg => contains "analyze_action" msg
  | None => false
  end.

(** A call that returned. *)
Definition returned (a : ActionDescription) : ActionDescription * Res unit := (a, Ok ()).

End TraceVocabulary.

(** The timer never fires. *)
Definition no_timeout (fires : nat -> bool) : Prop := forall n, fires n = false.

(** Every replay to an event succeeds. *)
Definition replay_ok {World : Type} (controller : Scheduler.Controller World) : Prop :=
  forall w,
    (forall eid, (Scheduler.SetFrameEvent controller eid false w).1 = Ok ()) /\
    is_ok (Scheduler.GetPipelineState controller w).1 = true.

(** The module ids of a list of analyzer entries. *)
Definition entry_ids {X Y : Type} (entries : list (string * Y * X)) : list string :=
  (fun e => e.1.1) <$> entries.

(** Whatever the call raises is an instance of [Exception]. *)
Definition raises_Exceptions {W A : Type} (op : W -> Res A * W) : Prop :=
  forall w e, (op w).1 = Raise e -> is_Exception e = true.

(** Whatever the methods of the analyzer raise is an instance of
    [Exception]. *)
Definition analyzer_raises_Exceptions {World Data : Type}
    (an : Scheduler.Analyzer World Data) : Prop :=
  raises_Exceptions (Scheduler.analyze an) /\
  (forall a pipe, raises_Exceptions (Scheduler.analyze_action an a pipe)) /\
  raises_Exceptions (Scheduler.finalize an).

(** The same of every analyzer of a list, as [create_analyzers] returns it
    and as [run_iteration_analyzers] filters it. *)
Definition analyzers_raise_Exceptions {World Data : Type}
    (analyzers : list (string * string * Scheduler.Analyzer World Data * bool)) : Prop :=
  Forall (fun e => analyzer_raises_Exceptions e.1.2) analyzers.

Definition entries_raise_Exceptions {World Data : Type}
    (entries : list (string * string * Scheduler.Analyzer World Data)) : Prop :=
  Forall (fun e => analyzer_raises_Exceptions e.2) entries.

(** Whatever a replay raises is an instance of [Exception]. *)
Definition replay_raises_Exceptions {World : Type}
    (controller : Scheduler.Controller World) : Prop :=
  (forall eid, raises_Exceptions (Scheduler.SetFrameEvent controller eid false)) /\
  raises_Exceptions (Scheduler.GetPipelineState controller).

(** ** The traversal of the scheduler *)

Section TraversalVocabulary.

Import Scheduler.

Context {World Data : Type}.

(** The calls of module [m] at one place where the analyzers are called on
    the action [a], between the scheduler states [s] and [s']: none when the
    module had an error already, else one, whose failure is recorded. *)
Definition module_at_site (m : string) (a : ActionDescription)
    (s s' : Sched World Data) (T : list event) : Prop :=
  match errors s !! m with
  | Some msg => calls m T = [] /\ errors s' !! m = Some msg
  | None =>
      (calls m T = [returned a] /\ errors s' !! m = None) \/
      (exists e, calls m T = [(a, Raise e)] /\
         errors s' !! m = Some ("analyze_action 失败: " +:+ exn_str e))
  end.

(** The calls of module [m] along the places [S] where the analyzers are
    called: none when the module had an error already; else every place in
    order, up to and with the first call that raises, whose failure is
    recorded. *)
Definition module_along (m : string) (S : list ActionDescription)
    (s s' : Sched World Data) (T : list event) : Prop :=
  match errors s !! m with
  | Some msg => calls m T = [] /\ errors s' !! m = Some msg
  | None =>
      (calls m T = returned <$> S /\ errors s' !! m = None) \/
      (exists k a e, S !! k = Some a /\
         calls m T = (returned <$> take k S) ++ [(a, Raise e)] /\
         errors s' !! m = Some ("analyze_action 失败: " +:+ exn_str e))
  end.

(** What the scheduler state keeps through the calls of the analyzers. *)
Definition same_control (s s' : Sched World Data) : Prop :=
  timeout s' = timeout s /\ timeout_timer s' = timeout_timer s /\
  timed_out s' = timed_out s /\ results s' = results s /\ clock s' = clock s.

(** A stretch of the traversal from [s] to [s']: it examined the actions
    [ns] and called the analyzers at the places [S]. *)
Definition traversed (fires : nat -> bool) (rd : RenderDoc)
    (controller : Controller World)
    (it : list (string * string * Analyzer World Data))
    (ns S : list ActionDescription) (s s' : Sched World Data) : Prop :=
  exists T,
    trace s' = trace s ++ T /\
    visits T = ns /\
    replays T = eventId <$> filter (fun a => is_draw_or_dispatch rd a = true) ns /\
    timers T = [] /\ finalized T = [] /\ analyzed T = [] /\
    S `sublist_of` filter (fun a => is_draw_or_dispatch rd a = true) ns /\
    (replay_ok controller ->
       S = filter (fun a => is_draw_or_dispatch rd a = true) ns) /\
    timeout s' = timeout s /\ timeout_timer s' = timeout_timer s /\
    results s' = results s /\
    (no_timeout fires -> timed_out s' = timed_out s) /\
    (NoDup (entry_ids it) ->
     forall m, m ∈ entry_ids it -> module_along m S s s' T) /\
    (forall m, m ∉ entry_ids it -> calls m T = [] /\ errors s' !! m = errors s !! m) /\
    (forall m a r, (a, r) ∈ calls m T -> a ∈ S) /\
    (replay_ok controller ->
       replay_calls T =
         flat_map replay_to (filter (fun a => is_draw_or_dispatch rd a = true) ns)).

(** A stretch of the scheduler outside the traversal: it calls only
    [finalize] and [analyze], and leaves the timer and the timeout flag as
    they are unless the timer fires. *)
Definition outside_traversal (T : list event) : Prop :=
  visits T = [] /\ replays T = [] /\ timers T = [] /\ (forall m, calls m T = []) /\
  replay_calls T = [].

(** [analyze] was called for the modules whose [finalize] returned, and for
    no other. *)
Definition analyzed_after_finalize (T : list event) : Prop :=
  (analyzed T).*1 = (filter (fun p => p.2 = None) (finalized T)).*1.

(** What [self.results] and [self.errors] hold for a module whose
    [finalize] or [analyze] was called with the outcome [o]. *)
Definition recorded (m : string) (o : option exn) (s s' : Sched World Data) : Prop :=
  match o with
  | None =>
      errors s' !! m = errors s !! m /\
      exists d an, results s' !! m = Some (Success d an)
  | Some e =>
      errors s' !! m = Some (exn_str e) /\
      results s' !! m = Some (Error (exn_str e))
  end.

(** The ids of the analyzers that do not need the traversal. *)
Definition static_ids (analyzers : list (string * string * Analyzer World Data * bool))
    : list string :=
  omap (fun '(m, n, a, needs) => if needs : bool then None else Some m) analyzers.

End TraversalVocabulary.

(** Every call in the list returned. *)
Definition all_returned (cs : list (ActionDescription * Res unit)) : bool :=
  forallb (fun c => is_ok c.2) cs.

(** A run of the scheduler on small analyzers: the world counts the calls
    of [analyze_action] that returned, and [analyze] reports the count. *)
Module SampleRun.

Import Scheduler.

Definition counter : Analyzer nat nat :=
  {| analyze := fun w => (Ok w, w);
     analyze_action := fun _ _ w => (Ok (), S w);
     finalize := fun w => (Ok (), w);
     format_report := fun w => (Ok "report", w) |}.

(** An analyzer whose [analyze_action] raises. *)
Definition raiser : Analyzer nat nat :=
  {| analyze := fun w => (Ok w, w);
     analyze_action := fun _ _ w => (Raise (PyExc "KeyError" "stage"), w);
     finalize := fun w => (Ok (), w);
     format_report := fun w => (Ok "report", w) |}.

(** An analyzer whose [analyze] raises. *)
Definition static_raiser : Analyzer nat nat :=
  {| analyze := fun w => (Raise (PyExc "RuntimeError" "no resources"), w);
     analyze_action := fun _ _ w => (Ok (), w);
     finalize := fun w => (Ok (), w);
     format_report := fun w => (Ok "report", w) |}.

(** An analyzer that ends the interpreter: [sys.exit(1)] in [analyze] and
    in [analyze_action]. *)
Definition exiter : Analyzer nat nat :=
  {| analyze := fun w => (Raise (SystemExit "1"), w);
     analyze_action := fun _ _ w => (Raise (SystemExit "1"), w);
     finalize := fun w => (Ok (), w);
     format_report := fun w => (Ok "report", w) |}.

(** An analyzer whose [finalize] raises. *)
Definition finalize_raiser : Analyzer nat nat :=
  {| analyze := fun w => (Ok w, w);
     analyze_action := fun _ _ w => (Ok (), w);
     finalize := fun w => (Raise (PyExc "ValueError" "no data"), w);
     format_report := fun w => (Ok "report", w) |}.

Definition controller : Controller nat :=
  {| SetFrameEvent := fun _ _ w => (Ok (), w);
     GetPipelineState := fun w => (Ok Sample.pipe, w);
     GetRootActions := fun w => (Ok [Sample.marker], w) |}.

(** A draw with the sample draw below it, and a controller that cannot
    replay to the first of the two. *)
Definition nested : ActionDescription :=
  mkAction 20 2 (Some 3) (Some 1) [Sample.draw].

Definition failing_controller : Controller nat :=
  {| SetFrameEvent := fun eid _ w =>
       if eid =? 20 then (Raise (PyExc "RuntimeError" "replay failed"), w)
       else (Ok (), w);
     GetPipelineState := fun w => (Ok Sample.pipe, w);
     GetRootActions := fun w => (Ok [nested], w) |}.

(** Lists of analyzers with one that exits. *)
Definition static_with_exiter : list (string * string * Analyzer nat nat * bool) :=
  [ ("static_counter", "Static counter", counter, false);
    ("exiter", "Exiter", exiter, false);
    ("static_raiser", "Static raiser", static_raiser, false) ].

Definition iteration_with_exiter : list (string * string * Analyzer nat nat * bool) :=
  [ ("counter", "Counter", counter, true);
    ("exiter", "Exiter", exiter, true) ].

(** A list of analyzers with one whose [finalize] raises. *)
Definition with_finalize_raiser : list (string * string * Analyzer nat nat * bool) :=
  [ ("counter", "Counter", counter, true);
    ("fin", "Finalize raiser", finalize_raiser, true) ].

Definition analyzers : list (string * string * Analyzer nat nat * bool) :=
  [ ("static_raiser", "Static raiser", static_raiser, false);
    ("static_counter", "Static counter", counter, false);
    ("counter", "Counter", counter, true);
    ("raiser", "Raiser", raiser, true);
    ("counter2", "Second counter", counter, true) ].

(** The timer never fires. *)
Definition never : nat -> bool := fun _ => false.

Definition start : Sched nat nat := new 600 0%nat.

End SampleRun.

(** * Further definitions: the rest of the scheduler and of the analyzers *)

(** [not enabled_modules or mod_id in enabled_modules]: the module is
    selected; an empty list selects every module, as [None] does. *)
Definition selected (enabled_modules : option (list string)) (mod_id : string) : bool :=
  match enabled_modules with
  | Some ((_ :: _) as ms) => bool_decide (mod_id ∈ ms)
  | _ => true
  end.

(** The selected entries of the registry. *)
Definition selected_entries {X : Type} (enabled_modules : option (list string))
    (reg : list (string * string * X * bool)) : list (string * string * X * bool) :=
  filter (fun e => selected enabled_modules e.1.1.1 = true) reg.

(** The module ids of a registry or of a list of created analyzers. *)
Definition module_ids {X : Type} (l : list (string * string * X * bool)) : list string :=
  (fun e => e.1.1.1) <$> l.

(** A registry with a constructor that raises. *)
Module SampleRegistry.

Import Scheduler.

Definition registry
    : list (string * string * AnalyzerClass (World:=nat) (Data:=nat) * bool) :=
  [ ("static_counter", "Static counter", fun w => (Ok SampleRun.counter, w), false);
    ("broken", "Broken",
     fun w => (Raise (PyExc "RuntimeError" "no controller"), w), true);
    ("counter", "Counter", fun w => (Ok SampleRun.counter, w), true);
    ("raiser", "Raiser", fun w => (Ok SampleRun.raiser, w), true) ].

End SampleRegistry.

(** Either all of the nodes were examined, or the timeout flag is set and a
    prefix of them was. *)
Definition cut_or_complete {World Data : Type} (all ns : list ActionDescription)
    (s' : Scheduler.Sched World Data) : Prop :=
  ns = all \/ (Scheduler.timed_out s' = true /\ ns `prefix_of` all).

(** The textures whose format is shown as [k]. *)
Definition textures_of_format (k : string) (textures : list TextureDescription)
    : list TextureDescription :=
  filter (fun tex => Memory.format_name (tex_format tex) = k) textures.

(** The sizes above a threshold, in the order of the resources. *)
Definition sizes_above (threshold : Z) (sizes : list Z) : list Z :=
  filter (fun size => threshold < size) sizes.

(** The counters of a semantic are consistent: none is negative, and no
    more attributes were wasted than provided. *)
Definition consistent_sem_stat (st : VertexAttrs.sem_stat) : Prop :=
  0 <= VertexAttrs.used st /\ 0 <= VertexAttrs.wasted st /\
  VertexAttrs.wasted st <= VertexAttrs.provided st.

(** The entry of a binding kind, as [format_report] reads it:
    [bs.get(btype, {'total': 0, 'unused': 0})]. *)
Definition binding_stat_of (st : ShaderBindings.state) (kind : string)
    : ShaderBindings.binding_stat :=
  ShaderBindings.stat_of (ShaderBindings.binding_stats st) kind.

(** The texture has [creationFlags] with the bit of
    [TextureCategory.ColorTarget]. *)
Definition is_color_target (rd : RenderDoc) (tex : TextureDescription) : bool :=
  match tex_creationFlags tex, TextureCategory_ColorTarget rd with
  | Some fl, Some color_target => has_flag fl color_target
  | _, _ => false
  end.

(** The resolutions of the colour targets, one for each texture. *)
Definition color_target_resolutions (rd : RenderDoc)
    (textures : list TextureDescription) : list (Z * Z) :=
  (fun tex => (tex_width tex, tex_height tex)) <$>
  filter (fun tex => is_color_target rd tex = true) textures.

(** How often a resolution occurs. *)
Definition occurrences (key : Z * Z) (seen : list (Z * Z)) : Z :=
  Z.of_nat (length (filter (fun k => k = key) seen)).

(** A resolution that may be the main screen: at least 256 in both
    directions and not square. *)
Definition screen_candidate (key : Z * Z) : Prop :=
  256 <= key.1 /\ 256 <= key.2 /\ key.1 <> key.2.

(** The count that a table of resolutions holds for a key, 0 without an
    entry. *)
Fixpoint count_in (l : list (Z * Z * Z)) (key : Z * Z) : Z :=
  match l with
  | [] => 0
  | (k, cnt) :: l' => if decide (k = key) then cnt else count_in l' key
  end.

(** [x / y if y > 0 else 0] on two ints: a float, or the int 0. *)
Definition ratio_or_zero (x y : Z) : Res number :=
  if 0 <? y then v ← PyFloat.int_truediv x y; mret (NFloat v)
  else mret (NInt 0).

(** [VertexAttributeAnalyzer.get_summary] *)
Module VertexAttrsSummary.

Record summary := {
  vertex_waste_bytes : Z;
  vertex_waste_ratio : number;
}.

Definition get_summary (st : VertexAttrs.state) : Res summary :=
  ratio ← ratio_or_zero (VertexAttrs.wasted_draws st) (VertexAttrs.total_draws st);
  mret {| vertex_waste_bytes := VertexAttrs.wasted_bytes st;
          vertex_waste_ratio := ratio |}.

End VertexAttrsSummary.

(** [ShaderBindingAnalyzer.get_summary] *)
Module ShaderBindingsSummary.

Record summary := {
  binding_waste_ratio : number;
  unused_bindings : Z;
}.

Definition get_summary (st : ShaderBindings.state) : Res summary :=
  ratio ← ratio_or_zero (ShaderBindings.unused_bindings st)
                        (ShaderBindings.total_bindings st);
  mret {| binding_waste_ratio := ratio;
          unused_bindings := ShaderBindings.unused_bindings st |}.

End ShaderBindingsSummary.

(** A ratio that [get_summary] reports: the int 0, or a float from 0 to 1. *)
Definition unit_ratio (r : number) : Prop :=
  match r with
  | NInt n => n = 0
  | NFloat v => (0 <= v <= 1)%Q
  end.

(** ** AnalysisScheduler.run *)

Module SchedulerRun.

Section Defs.

Import Scheduler.

Context {World Data : Type}.
Context (fires : nat -> bool).

#[local] Existing Instance M_ret.
#[local] Existing Instance M_bind.

(** [try: body finally: final] *)
Definition try_finally {A} (body : M World Data A) (final : M World Data unit)
    : M World Data A :=
  fun s =>
    let '(r, s1) := body s in
    match final s1 with
    | (Ok _, s2) => (r, s2)
    | (Raise e, s2) => (Raise e, s2)
    end.

(** The methods of the scheduler that handle the capture file and the
    report. [close_capture] swallows every exception. [generate_report]
    reads [self.results] and [self.errors] and calls [format_report] of
    the analyzers; it is taken as given, since the order of its lines is
    the insertion order of the two dictionaries, which the maps of this
    model do not keep. *)
Record Capture := {
  init_renderdoc : World -> Res bool * World;
  open_capture : World -> Res bool * World;
  close_capture : World -> World;
  generate_report :
    gmap string (mod_result World Data) -> gmap string string -> World ->
    Res string * World;
}.

(** [self.generate_report()] *)
Definition call_generate_report (cap : Capture) : M World Data string :=
  fun s =>
    let '(r, w) := generate_report cap (results s) (errors s) (world s) in
    (r, set_world w s).

(** [run]; [None] stands for the [return None] of the source. [rd] and
    [controller] stand for [self.rd] and [self.controller], which
    [init_renderdoc] and [open_capture] assign before the analyzers read
    them. What [run] prints is left out. *)
Definition run (rd : RenderDoc) (controller : Controller World) (cap : Capture)
    (ALL_ANALYZERS : list (string * string * AnalyzerClass (World:=World) (Data:=Data) * bool))
    (enabled_modules : option (list string)) : M World Data (option string) :=
  modify start_timeout;;
  try_finally
    (ok ← call (init_renderdoc cap);
     if negb ok then mret None
     else
       ok ← call (open_capture cap);
       if negb ok then mret None
       else
         analyzers ← create_analyzers ALL_ANALYZERS enabled_modules;
         match analyzers with
         | [] => mret None
         | _ :: _ =>
             run_static_analyzers fires analyzers;;
             timed ← read_timed_out fires;
             (if timed : bool then mret ()
              else run_iteration_analyzers fires rd controller analyzers);;
             report ← call_generate_report cap;
             mret (Some report)
         end)
    (modify cancel_timeout;;
     modify (fun s => set_world (close_capture cap (world s)) s)).

End Defs.

Arguments Capture : clear implicits.

End SchedulerRun.

(** A stretch of the scheduler that starts and cancels no timer. *)
Definition timer_untouched {World Data : Type} (s s' : Scheduler.Sched World Data) : Prop :=
  exists T,
    Scheduler.trace s' = Scheduler.trace s ++ T /\ timer_events T = [] /\
    Scheduler.timeout_timer s' = Scheduler.timeout_timer s /\
    Scheduler.timeout s' = Scheduler.timeout s.

(** A piece of scheduler code that starts and cancels no timer, whatever it
    returns or raises. *)
Definition keeps_timer {World Data A : Type} (m : Scheduler.M World Data A) : Prop :=
  forall s, timer_untouched s (m s).2.

(** The outcomes of the constructors of the entries, called one after the
    other from the world [w]: each entry with what its constructor returned
    or raised, and the world after the last call. *)
Fixpoint constructor_outcomes {World Data : Type}
    (entries : list (string * string * Scheduler.AnalyzerClass (World:=World) (Data:=Data) * bool))
    (w : World)
    : list (string * string * Scheduler.AnalyzerClass (World:=World) (Data:=Data) * bool *
            Res (Scheduler.Analyzer World Data)) * World :=
  match entries with
  | [] => ([], w)
  | e :: entries' =>
      let '(r, w1) := e.1.2 w in
      let '(rs, w2) := constructor_outcomes entries' w1 in
      ((e, r) :: rs, w2)
  end.

(** The analyzers of the outcomes that are no exception, each with the id,
    the name and the flag of its entry. *)
Definition created {World Data : Type}
    (outs : list (string * string * Scheduler.AnalyzerClass (World:=World) (Data:=Data) * bool *
                  Res (Scheduler.Analyzer World Data)))
    : list (string * string * Scheduler.Analyzer World Data * bool) :=
  omap (fun o =>
          match o.2 with
          | Ok an => Some (o.1.1.1.1, o.1.1.1.2, an, o.1.2)
          | Raise _ => None
          end) outs.

(** What [self.errors] gets for a constructor that raised [e]. *)
Definition construction_error (e : exn) : string := "初始化失败: " +:+ exn_str e.

(** [self.errors] after one assignment for each outcome that is an
    exception, in order. *)
Definition errors_after {World Data : Type} (errs : gmap string string)
    (outs : list (string * string * Scheduler.AnalyzerClass (World:=World) (Data:=Data) * bool *
                  Res (Scheduler.Analyzer World Data)))
    : gmap string string :=
  foldl (fun errs o =>
           match o.2 with
           | Ok _ => errs
           | Raise e => <[o.1.1.1.1 := construction_error e]> errs
           end) errs outs.

(** * Properties *)

(** ** The command tree *)

(** Induction on a command tree, with the hypothesis for every child. *)
Lemma ActionDescription_forall_ind (P : ActionDescription -> Prop) :
  (forall e f ni nn cs, Forall P cs -> P (mkAction e f ni nn cs)) ->
  forall a, P a.
Proof.
  intros step. fix IH 1. intros [e f ni nn cs]. apply step.
  induction cs as [|c cs IHcs]; constructor; [apply IH | apply IHcs].
Qed.

Lemma nodes_at_unfold d a :
  nodes_at d a = (d, a) :: flat_map (nodes_at (d + 1)) (children a).
Proof.
  destruct a as [e f ni nn cs]; reflexivity.
Qed.

Lemma preorder_unfold a : preorder a = a :: flat_map preorder (children a).
Proof.
  destruct a as [e f ni nn cs]; reflexivity.
Qed.

Lemma nodes_at_preorder a : forall d, (nodes_at d a).*2 = preorder a.
Proof.
  induction a as [e f ni nn cs IH] using ActionDescription_forall_ind; intros d.
  rewrite nodes_at_unfold, preorder_unfold; simpl. f_equal.
  induction IH as [|c cs Hc _ IHcs]; simpl; [done |].
  etrans; [apply fmap_app |]. f_equal; [apply Hc | apply IHcs].
Qed.

Lemma forest_nodes_at roots : (flat_map (nodes_at 0) roots).*2 = forest roots.
Proof.
  unfold forest. induction roots as [|a roots IH]; simpl; [done |].
  etrans; [apply fmap_app |]. f_equal; [apply nodes_at_preorder | apply IH].
Qed.

(** ** BasicStatsAnalyzer *)

Section BasicStatsFacts.

Import BasicStats.

Variable rd : RenderDoc.

Let step (r : results) (n : Z * ActionDescription) : results :=
  count_node rd n.2 n.1 r.

Lemma count_actions_unfold a d r :
  count_actions rd a d r =
  foldl (fun r c => count_actions rd c (d + 1) r) (count_node rd a d r) (children a).
Proof.
  destruct a as [e f ni nn cs]. cbn [count_actions children].
  generalize (count_node rd (mkAction e f ni nn cs) d r).
  induction cs as [|c cs IH]; intros r1; [done | apply IH].
Qed.

(** The recursion of [count_actions] is one pass over the nodes. *)
Lemma count_actions_fold a : forall d r,
  count_actions rd a d r = foldl step r (nodes_at d a).
Proof.
  induction a as [e f ni nn cs IH] using ActionDescription_forall_ind.
  intros d r. rewrite count_actions_unfold, nodes_at_unfold.
  cbn [foldl children].
  assert (forall r1,
    foldl (fun r c => count_actions rd c (d + 1) r) r1 cs =
    foldl step r1 (flat_map (nodes_at (d + 1)) cs)) as Hcs; [| apply Hcs].
  induction IH as [|c cs Hc _ IHcs]; intros r1; cbn [foldl flat_map]; [done |].
  rewrite foldl_app, <- Hc. apply IHcs.
Qed.

Lemma analyze_fold roots r :
  foldl (fun r action => count_actions rd action 0 r) r roots =
  foldl step r (flat_map (nodes_at 0) roots).
Proof.
  revert r. induction roots as [|a roots IH]; intros r; simpl; [done |].
  by rewrite foldl_app, <- count_actions_fold, IH.
Qed.

Lemma fold_total l : forall r,
  total_actions (foldl step r l) = total_actions r + Z.of_nat (length l).
Proof.
  induction l as [|n l IH]; intros r; simpl; [lia |].
  rewrite IH. simpl. lia.
Qed.

Lemma fold_max_depth l : forall r,
  0 <= max_depth r ->
  max_depth (foldl step r l) = Z.max (max_depth r) (deepest l.*1).
Proof.
  induction l as [|n l IH]; intros r Hr; simpl.
  - unfold deepest; simpl. lia.
  - rewrite IH; simpl; [| lia]. symmetry. apply Z.max_assoc.
Qed.

Lemma bump_count (P : ActionDescription -> bool) a l n :
  bump (P a) n + Z.of_nat (length (filter (fun a => P a = true) l)) =
  n + Z.of_nat (length (filter (fun a => P a = true) (a :: l))).
Proof.
  rewrite filter_cons. unfold bump.
  destruct (P a) eqn:E; case_decide; simpl; try congruence; try lia.
Qed.

Lemma fold_flags l : forall r,
  let r' := foldl step r l in
  draw_count r' = draw_count r + count_flag (Drawcall (ActionFlags rd)) l.*2 /\
  dispatch_count r' = dispatch_count r + count_flag (Dispatch (ActionFlags rd)) l.*2 /\
  clear_count r' = clear_count r + count_flag (Clear (ActionFlags rd)) l.*2 /\
  copy_count r' = copy_count r + count_flag (Copy (ActionFlags rd)) l.*2 /\
  marker_count r' = marker_count r + count_flag (PushMarker (ActionFlags rd)) l.*2.
Proof.
  induction l as [|[d a] l IH]; intros r; simpl.
  - unfold count_flag; simpl. lia.
  - destruct (IH (step r (d, a))) as (H1 & H2 & H3 & H4 & H5).
    rewrite H1, H2, H3, H4, H5. unfold count_flag, step; simpl.
    repeat split;
      apply (bump_count (fun a => has_flag (flags a) _) a (l.*2)).
Qed.

(** C6. [BasicStatsAnalyzer.analyze] counts the nodes of the command tree:
    [total_actions] is the number of nodes reachable from the roots through
    [children], [max_depth] is the largest nesting depth with the roots at
    depth 0, and each category count is the number of nodes whose flags
    contain the bit of the category. *)
Theorem basic_stats_counts_the_tree (roots : list ActionDescription) :
  let r := analyze rd roots in
  total_actions r = Z.of_nat (length (forest roots)) /\
  max_depth r = deepest (flat_map (nodes_at 0) roots).*1 /\
  draw_count r = count_flag (Drawcall (ActionFlags rd)) (forest roots) /\
  dispatch_count r = count_flag (Dispatch (ActionFlags rd)) (forest roots) /\
  clear_count r = count_flag (Clear (ActionFlags rd)) (forest roots) /\
  copy_count r = count_flag (Copy (ActionFlags rd)) (forest roots) /\
  marker_count r = count_flag (PushMarker (ActionFlags rd)) (forest roots).
Proof.
  unfold analyze. rewrite analyze_fold.
  pose proof (fold_flags (flat_map (nodes_at 0) roots) init) as Hf.
  rewrite forest_nodes_at in Hf. simpl in Hf.
  split; [| split].
  - rewrite fold_total, <- forest_nodes_at, length_fmap. simpl. lia.
  - rewrite fold_max_depth; simpl; [| lia].
    assert (0 <= deepest (flat_map (nodes_at 0) roots).*1); [| lia].
    generalize ((flat_map (nodes_at 0) roots).*1). intros l.
    induction l; unfold deepest; simpl; [lia |]. unfold deepest in *. lia.
  - exact Hf.
Qed.

End BasicStatsFacts.

(** ** MemoryAnalyzer *)

Section MemoryFacts.

Import Memory.

Lemma texture_loop l : forall st,
  let st' := foldl texture_step st l in
  texture_count st'.1 = texture_count st.1 /\
  buffer_count st'.1 = buffer_count st.1 /\
  buffer_size st'.1 = buffer_size st.1 /\
  texture_size st'.1 = texture_size st.1 + Zsum (texture_bytes <$> l).
Proof.
  induction l as [|tex l IH]; intros [r m]; cbn [foldl].
  - cbn. lia.
  - destruct (IH (texture_step (r, m) tex)) as (H1 & H2 & H3 & H4).
    cbv zeta. rewrite H1, H2, H3, H4. cbn. unfold texture_bytes, Zsum. lia.
Qed.

Lemma buffer_loop l : forall r,
  let r' := foldl buffer_step r l in
  texture_count r' = texture_count r /\
  buffer_count r' = buffer_count r /\
  texture_size r' = texture_size r /\
  buffer_size r' = buffer_size r + Zsum (buffer_bytes <$> l).
Proof.
  induction l as [|buf l IH]; intros r; cbn [foldl].
  - cbn. lia.
  - destruct (IH (buffer_step r buf)) as (H1 & H2 & H3 & H4).
    cbv zeta. rewrite H1, H2, H3, H4. cbn. unfold buffer_bytes, Zsum. lia.
Qed.

(** C4. [MemoryAnalyzer.analyze] aggregates the resource lists of the
    replay engine: the counts are the lengths of [GetTextures()] and
    [GetBuffers()], the sizes are the sums of [byteSize] and of [length]
    (0 for a resource without the attribute), and [total_size] is their
    sum. *)
Theorem memory_usage_is_aggregation
    (textures : list TextureDescription) (buffers : list BufferDescription) :
  let r := analyze textures buffers in
  texture_count r = Z.of_nat (length textures) /\
  buffer_count r = Z.of_nat (length buffers) /\
  texture_size r = Zsum (texture_bytes <$> textures) /\
  buffer_size r = Zsum (buffer_bytes <$> buffers) /\
  total_size r = texture_size r + buffer_size r.
Proof.
  unfold analyze.
  match goal with |- context [foldl texture_step ?st textures] =>
    pose proof (texture_loop textures st) as Ht;
    destruct (foldl texture_step st textures) as [r1 m1] end.
  cbn in Ht. destruct Ht as (T1 & T2 & T3 & T4).
  match goal with |- context [foldl buffer_step ?r buffers] =>
    pose proof (buffer_loop buffers r) as Hb;
    destruct (foldl buffer_step r buffers) as [] eqn:E end.
  cbn in Hb. destruct Hb as (B1 & B2 & B3 & B4).
  cbn. repeat split; lia.
Qed.

End MemoryFacts.

(** ** VertexAttributeAnalyzer *)

Section VertexAttrsFacts.

Import VertexAttrs.

Lemma stat_of_insert k v (m : gmap string sem_stat) sem :
  stat_of (<[k := v]> m) sem = if decide (k = sem) then v else stat_of m sem.
Proof.
  unfold stat_of. case_decide as E.
  - subst. by rewrite lookup_insert_eq.
  - by rewrite lookup_insert_ne.
Qed.

Lemma wasted_bump_used k m sem :
  wasted (stat_of (bump_used k m) sem) = wasted (stat_of m sem).
Proof. unfold bump_used. rewrite stat_of_insert. case_decide; by subst. Qed.

Lemma wasted_bump_provided k m sem :
  wasted (stat_of (bump_provided k m) sem) = wasted (stat_of m sem).
Proof. unfold bump_provided. rewrite stat_of_insert. case_decide; by subst. Qed.

Lemma wasted_bump_wasted k m sem :
  wasted (stat_of (bump_wasted k m) sem) =
  wasted (stat_of m sem) + (if decide (k = sem) then 1 else 0).
Proof.
  unfold bump_wasted. rewrite stat_of_insert.
  case_decide; subst; simpl; lia.
Qed.

Lemma omap_cons_eq {A B} (f : A -> option B) x l :
  omap f (x :: l) = match f x with Some y => y :: omap f l | None => omap f l end.
Proof. done. Qed.

(** The loop over the input signature collects the strings of its entries
    and leaves the [wasted] counters alone. *)
Lemma sig_loop sigs : forall used m,
  let out := foldl sig_step (used, m) sigs in
  (forall x, x ∈ out.1 <-> x ∈ omap sig_name sigs \/ x ∈ used) /\
  (forall sem, wasted (stat_of out.2 sem) = wasted (stat_of m sem)).
Proof.
  induction sigs as [|sig sigs IH]; intros used m; cbn [foldl].
  - cbn. split; [| done]. intros x. rewrite elem_of_nil. tauto.
  - rewrite omap_cons_eq.
    destruct (sig_semanticName sig) as [name|] eqn:En.
    + replace (sig_step (used, m) sig) with
        ({[full_name name (attr_or 0 (sig_semanticIndex sig))]} ∪ used,
         bump_used name m) by (unfold sig_step; by rewrite En).
      replace (sig_name sig) with
        (Some (full_name name (attr_or 0 (sig_semanticIndex sig))))
        by (unfold sig_name; by rewrite En).
      destruct (IH ({[full_name name (attr_or 0 (sig_semanticIndex sig))]} ∪ used)
                   (bump_used name m)) as [H1 H2].
      split.
      * intros x. rewrite H1, elem_of_cons, elem_of_union, elem_of_singleton. tauto.
      * intros sem. by rewrite H2, wasted_bump_used.
    + replace (sig_step (used, m) sig) with (used, m)
        by (unfold sig_step; by rewrite En).
      replace (sig_name sig) with (@None string)
        by (unfold sig_name; by rewrite En).
      apply IH.
Qed.

(** The loop over the attributes keeps exactly the wasted ones. *)
Lemma attr_loop refl used attrs :
  (forall x, x ∈ used <-> x ∈ signature_names refl) ->
  forall acc,
  let out := foldl (attr_step used) acc attrs in
  let ws := filter (is_wasted refl) attrs in
  acc_wasted_attrs out = acc_wasted_attrs acc ++ omap wasted_entry ws /\
  length (omap wasted_entry ws) = length ws /\
  acc_wasted_bytes_per_vertex out =
    acc_wasted_bytes_per_vertex acc + Zsum (attr_byte_size <$> ws) /\
  (forall sem, wasted (stat_of (acc_stats out) sem) =
     wasted (stat_of (acc_stats acc) sem) +
     Z.of_nat (length (filter (fun a => semanticName a = Some sem) ws))).
Proof.
  intros Hused. induction attrs as [|attr attrs IH]; intros acc; cbn [foldl].
  - cbn. rewrite app_nil_r. repeat split; lia.
  - destruct (IH (attr_step used acc attr)) as (H1 & H2 & H3 & H4).
    cbv zeta. rewrite H1, H3. setoid_rewrite H4. clear H1 H3 H4 IH.
    rewrite filter_cons. unfold attr_step.
    destruct (decide (is_wasted refl attr)) as [Hw|Hw]; unfold is_wasted, attr_name in Hw;
      destruct (semanticName attr) as [name|] eqn:En; cbn [mbind option_bind] in Hw;
      try done.
    + rewrite bool_decide_true by (rewrite Hused; done).
      cbn [acc_wasted_attrs acc_wasted_bytes_per_vertex acc_stats].
      assert (wasted_entry attr = Some (name, attr_byte_size attr)) as Ew
        by (unfold wasted_entry; by rewrite En).
      rewrite !omap_cons_eq, Ew, <- app_assoc. cbn [length app].
      repeat split; [by rewrite H2 | unfold Zsum; cbn; lia |].
      intros sem. rewrite wasted_bump_wasted, wasted_bump_provided, filter_cons, En.
      repeat case_decide; simplify_eq; cbn [length]; lia.
    + rewrite bool_decide_false by (rewrite Hused; done).
      cbn [acc_wasted_attrs acc_wasted_bytes_per_vertex acc_stats].
      repeat split; [done |]. intros sem. by rewrite wasted_bump_provided.
Qed.

(** C5. An input-assembly attribute counts as wasted exactly when the
    string [semanticName + semanticIndex] is not among the entries of the
    input signature of the vertex shader; a draw adds to [wasted_bytes] the
    summed byte sizes of its wasted attributes ([compByteWidth * compCount],
    4 without a format) times [numIndices * numInstances], and counts as a
    wasted draw when it has a wasted attribute. *)
Theorem vertex_attribute_waste
    (action : ActionDescription) (pipe : PipelineState) (st : state)
    (refl : ShaderReflection) (ia : IAState) :
  GetShaderReflection pipe Vertex = Ok (Some refl) ->
  GetIAState pipe = Some (Ok (Some ia)) ->
  let ws := filter (is_wasted refl) (attr_or [] (attributes ia)) in
  let st' := analyze_action action pipe st in
  (forall sem,
     wasted (stat_of (semantic_stats st') sem) =
     wasted (stat_of (semantic_stats st) sem) +
     Z.of_nat (length (filter (fun a => semanticName a = Some sem) ws))) /\
  wasted_draws st' = wasted_draws st + (if ws is [] then 0 else 1) /\
  wasted_bytes st' =
    wasted_bytes st +
    Zsum (attr_byte_size <$> ws) *
      (attr_or 0 (numIndices action) * attr_or 1 (numInstances action)).
Proof.
  intros Hvs Hia. unfold analyze_action. rewrite Hvs, Hia.
  cbn [total_draws wasted_draws wasted_bytes wasted_vertices semantic_stats
       worst_draws MAX_DETAIL_RECORDS].
  pose proof (sig_loop (inputSignature refl) ∅ (semantic_stats st)) as Hs.
  destruct (foldl sig_step (∅, semantic_stats st) (inputSignature refl))
    as [used stats1].
  cbn in Hs. destruct Hs as [Hused Hstats].
  assert (forall x, x ∈ used <-> x ∈ signature_names refl) as Hu.
  { intros x. rewrite Hused, elem_of_empty. unfold signature_names. tauto. }
  match goal with |- context [foldl (attr_step used) ?acc ?l] =>
    pose proof (attr_loop refl used l Hu acc) as Ha;
    destruct (foldl (attr_step used) acc l) as [wa wb ws1] end.
  cbn in Ha. destruct Ha as (A1 & A2 & A3 & A4).
  cbv zeta. unfold record_waste.
  cbn [acc_wasted_attrs acc_wasted_bytes_per_vertex acc_stats].
  set (ws := filter (is_wasted refl) (attr_or [] (attributes ia))) in *.
  assert (wa = [] <-> ws = []) as Hnil.
  { subst wa. split; intros E.
    - apply length_zero_iff_nil. rewrite <- A2, E. done.
    - by rewrite E. }
  destruct wa as [|w wa]; destruct ws as [|a ws'] eqn:Ews;
    try (exfalso; destruct Hnil as [Hn1 Hn2]; (by specialize (Hn1 eq_refl)) ||
         (by specialize (Hn2 eq_refl))).
  - cbn. split; [| split; unfold Zsum; cbn; lia].
    intros sem. rewrite A4, Hstats. done.
  - cbn [wasted_draws wasted_bytes semantic_stats with_stats].
    split; [| split; [done | rewrite A3; lia]].
    intros sem. rewrite A4, Hstats. done.
Qed.

End VertexAttrsFacts.

(** On the sample draw, [NORMAL0] and [COLOR0] are wasted: 12 + 4 bytes for
    each of 24000 vertices. *)
Lemma vertex_attribute_waste_witness :
  let st' := VertexAttrs.analyze_action Sample.draw Sample.pipe VertexAttrs.init in
  VertexAttrs.wasted_draws st' = 1 /\ VertexAttrs.wasted_bytes st' = 16 * 24000.
Proof.
  pose proof (vertex_attribute_waste Sample.draw Sample.pipe VertexAttrs.init
                Sample.refl Sample.ia eq_refl eq_refl) as (_ & Hd & Hb).
  split; [rewrite Hd | rewrite Hb]; vm_compute; reflexivity.
Defined.

(** ** OverdrawAnalyzer *)

Section OverdrawFacts.

Import Overdraw.

Lemma analyze_action_counters a st :
  let st' := (analyze_action a st).2 in
  total_triangles st' = total_triangles st + triangles_of a /\
  main_screen_pixels st' = main_screen_pixels st /\
  MAX_DETAIL_RECORDS st' = MAX_DETAIL_RECORDS st.
Proof.
  unfold analyze_action, triangles_of.
  repeat (match goal with
          | |- context [if ?b then _ else _] => destruct b
          | |- context [match ?r with Ok _ => _ | Raise _ => _ end] => destruct r
          end; cbn); done.
Qed.

Lemma overdraw_after_counters actions : forall st,
  let st' := overdraw_after st actions in
  total_triangles st' = total_triangles st + Zsum (triangles_of <$> actions) /\
  main_screen_pixels st' = main_screen_pixels st.
Proof.
  induction actions as [|a actions IH]; intros st.
  - cbn. unfold Zsum; cbn. lia.
  - destruct (IH (analyze_action a st).2) as [H1 H2].
    destruct (analyze_action_counters a st) as (C1 & C2 & _).
    unfold overdraw_after in *. cbn [foldl]. cbv zeta.
    rewrite H1, H2, C1, C2. unfold Zsum; cbn. lia.
Qed.

(** C7. After [analyze_action] on a list of actions, [total_triangles] is
    the sum of [(numIndices // 3) * numInstances] over them (0 indices and
    1 instance when the attribute is missing), and [avg_overdraw] is
    [total_triangles * 100 / main_screen_pixels] when [main_screen_pixels]
    is positive and the int 0 otherwise. *)
Theorem overdraw_estimate (rd : RenderDoc)
    (textures : Res (list TextureDescription)) (actions : list ActionDescription) :
  let st := overdraw_after (init rd textures) actions in
  let triangles := Zsum (triangles_of <$> actions) in
  let pixels := main_screen_pixels st in
  total_triangles st = triangles /\
  pixels = detect_main_resolution rd textures /\
  r_avg_overdraw <$> analyze st =
    (if 0 <? pixels
     then NFloat <$> PyFloat.int_truediv (triangles * 100) pixels
     else Ok (NInt 0)) /\
  (forall r, analyze st = Ok r -> r_total_triangles r = triangles).
Proof.
  destruct (overdraw_after_counters actions (init rd textures)) as [H1 H2].
  cbn [init total_triangles main_screen_pixels] in H1, H2. cbv zeta.
  rewrite H2, H1, Z.add_0_l. split; [done | split; [done |]].
  unfold analyze. rewrite H1, H2, Z.add_0_l.
  destruct (0 <? detect_main_resolution rd textures).
  - destruct (PyFloat.int_truediv _ _); cbn; (split; [done |]);
      intros r [= <-]; done.
  - cbn. split; [done |]. intros r [= <-]. done.
Qed.

End OverdrawFacts.

(** ** Sorting and the detail records *)

Section Sorting.

Context {A : Type} (before : A -> A -> bool).

Lemma insert_sorted_perm x l : insert_sorted before x l ≡ₚ x :: l.
Proof.
  induction l as [|y l IH]; cbn; [done |].
  destruct (before x y); [done |]. rewrite IH. apply Permutation_swap.
Qed.

Lemma stable_sort_perm l : stable_sort before l ≡ₚ l.
Proof.
  induction l as [|x l IH]; cbn; [done |].
  rewrite insert_sorted_perm. by f_equiv.
Qed.

Hypothesis before_total : forall x y, before x y = true \/ before y x = true.
Hypothesis before_trans :
  forall x y z, before x y = true -> before y z = true -> before x z = true.

Let R (x y : A) : Prop := before x y = true.

Lemma insert_sorted_sorted x l :
  StronglySorted R l -> StronglySorted R (insert_sorted before x l).
Proof.
  induction 1 as [|y l Hl IH Hy]; cbn.
  - repeat constructor.
  - destruct (before x y) eqn:E.
    + constructor; [by constructor |]. constructor; [done |].
      eapply Forall_impl; [exact Hy |]. intros z Hz. by eapply before_trans.
    + constructor; [done |].
      rewrite insert_sorted_perm. constructor; [| done].
      destruct (before_total x y); [congruence | done].
Qed.

Lemma stable_sort_sorted l : StronglySorted R (stable_sort before l).
Proof.
  induction l as [|x l IH]; cbn; [constructor | by apply insert_sorted_sorted].
Qed.

(** The first [n] elements of the sorted list are its greatest. *)
Lemma stable_sort_top n l :
  top_of R (take n (stable_sort before l)) l.
Proof.
  exists (drop n (stable_sort before l)). split.
  - rewrite take_drop. apply stable_sort_perm.
  - intros x y Hx Hy.
    eapply (StronglySorted_app_1_elem_of R); [| exact Hx | exact Hy].
    rewrite take_drop. apply stable_sort_sorted.
Qed.

End Sorting.

Section DetailRecords.

Lemma vertex_attrs_bound calls :
  let st := vertex_attrs_after calls in
  (length (VertexAttrs.worst_draws st) <= 50)%nat /\
  VertexAttrs.MAX_DETAIL_RECORDS st = 50.
Proof.
  unfold vertex_attrs_after.
  induction calls as [|c calls IH] using rev_ind; [cbn; split; [lia | done] |].
  rewrite foldl_app. cbn [foldl].
  destruct IH as [IH1 IH2]. revert IH1 IH2.
  generalize (foldl (fun st c => VertexAttrs.analyze_action c.1 c.2 st)
                    VertexAttrs.init calls). intros st IH1 IH2.
  unfold VertexAttrs.analyze_action, VertexAttrs.record_waste.
  repeat (match goal with
          | |- context [match ?x with _ => _ end] => destruct x eqn:?
          end; cbn in *); try (split; [lia | done]).
  rewrite length_app; cbn. split; [lia | done].
Qed.

Lemma shader_binding_step_frame rd kind b acc :
  ShaderBindings.worst_draws (ShaderBindings.binding_step rd kind acc b).1 =
    ShaderBindings.worst_draws acc.1 /\
  ShaderBindings.MAX_DETAIL_RECORDS (ShaderBindings.binding_step rd kind acc b).1 =
    ShaderBindings.MAX_DETAIL_RECORDS acc.1.
Proof.
  destruct acc as [st n]. unfold ShaderBindings.binding_step.
  repeat (match goal with
          | |- context [match ?x with _ => _ end] => destruct x
          end; cbn); done.
Qed.

Lemma shader_scan_frame rd kind got acc :
  ShaderBindings.worst_draws (ShaderBindings.scan rd kind got acc).1 =
    ShaderBindings.worst_draws acc.1 /\
  ShaderBindings.MAX_DETAIL_RECORDS (ShaderBindings.scan rd kind got acc).1 =
    ShaderBindings.MAX_DETAIL_RECORDS acc.1.
Proof.
  destruct got as [bs|e]; cbn; [| done].
  revert acc. induction bs as [|b bs IH]; intros acc; cbn; [done |].
  destruct (IH (ShaderBindings.binding_step rd kind acc b)) as [H1 H2].
  destruct (shader_binding_step_frame rd kind b acc) as [H3 H4].
  split; congruence.
Qed.

Lemma shader_stages_frame rd pipe stages acc :
  let out := foldl (ShaderBindings.stage_step rd pipe) acc stages in
  ShaderBindings.worst_draws out.1 = ShaderBindings.worst_draws acc.1 /\
  ShaderBindings.MAX_DETAIL_RECORDS out.1 = ShaderBindings.MAX_DETAIL_RECORDS acc.1.
Proof.
  revert acc. induction stages as [|s stages IH]; intros acc; cbn; [done |].
  destruct (IH (ShaderBindings.stage_step rd pipe acc s)) as [H1 H2].
  cbn in H1, H2. rewrite H1, H2. clear.
  unfold ShaderBindings.stage_step.
  destruct (GetShader pipe s) as [sh|]; [| done].
  destruct (sh =? ResourceId_Null rd); [done |].
  repeat match goal with
         | |- context [ShaderBindings.scan rd ?k ?g ?a] =>
             let H := fresh in
             destruct (shader_scan_frame rd k g a) as [H ?];
             rewrite H; clear H;
             generalize dependent (ShaderBindings.scan rd k g a); intros
         end.
  split; congruence.
Qed.

Lemma shader_bindings_bound rd calls :
  let st := shader_bindings_after rd calls in
  (length (ShaderBindings.worst_draws st) <= 50)%nat /\
  ShaderBindings.MAX_DETAIL_RECORDS st = 50.
Proof.
  unfold shader_bindings_after.
  induction calls as [|c calls IH] using rev_ind; [cbn; split; [lia | done] |].
  rewrite foldl_app. cbn [foldl].
  destruct IH as [IH1 IH2]. revert IH1 IH2.
  generalize (foldl (fun st c => ShaderBindings.analyze_action rd c.1 c.2 st)
                    ShaderBindings.init calls). intros st IH1 IH2.
  unfold ShaderBindings.analyze_action.
  match goal with |- context [foldl (ShaderBindings.stage_step rd ?p) ?acc ?l] =>
    destruct (shader_stages_frame rd p l acc) as [H1 H2];
    destruct (foldl (ShaderBindings.stage_step rd p) acc l) as [st1 n] end.
  cbn in H1, H2. rewrite <- H1 in IH1. rewrite <- H2 in IH2.
  repeat (match goal with
          | |- context [if ?x then _ else _] => destruct x eqn:?
          end; cbn in *); try (split; [lia | congruence]).
  rewrite length_app; cbn. split; [lia | congruence].
Qed.

Lemma overdraw_bound st actions :
  (length (Overdraw.high_overdraw_draws st) <= 50)%nat ->
  Overdraw.MAX_DETAIL_RECORDS st = 50 ->
  let st' := overdraw_after st actions in
  (length (Overdraw.high_overdraw_draws st') <= 50)%nat /\
  Overdraw.MAX_DETAIL_RECORDS st' = 50.
Proof.
  unfold overdraw_after.
  induction actions as [|a actions IH] using rev_ind; [done |].
  intros H0 H0'. rewrite foldl_app. cbn [foldl].
  destruct (IH H0 H0') as [IH1 IH2]. revert IH1 IH2.
  generalize (foldl (fun st a => (Overdraw.analyze_action a st).2) st actions).
  intros st1 IH1 IH2. unfold Overdraw.analyze_action.
  repeat (match goal with
          | |- context [if ?x then _ else _] => destruct x eqn:?
          | |- context [match ?x with Ok _ => _ | Raise _ => _ end] => destruct x eqn:?
          end; cbn in *); try (split; [lia | done]).
  rewrite length_app; cbn. split; [lia | done].
Qed.

End DetailRecords.

Lemma top_of_impl {A} (R1 R2 : A -> A -> Prop) top all :
  (forall x y, R1 x y -> R2 x y) -> top_of R1 top all -> top_of R2 top all.
Proof. intros HR (rest & Hp & Hr). exists rest. split; [done |]. eauto. Qed.

Lemma top_by_Z_key {A} (key : A -> Z) n l :
  top_of (fun x y => key y <= key x)
    (take n (stable_sort (fun x y => key y <=? key x) l)) l.
Proof.
  eapply top_of_impl; [| apply stable_sort_top].
  - intros x y H. by apply Z.leb_le in H.
  - intros x y. rewrite !Z.leb_le. lia.
  - intros x y z. rewrite !Z.leb_le. lia.
Qed.

Lemma top_by_Q_key {A} (key : A -> Q) n l :
  top_of (fun x y => (key y <= key x)%Q)
    (take n (stable_sort (fun x y => Qle_bool (key y) (key x)) l)) l.
Proof.
  eapply top_of_impl; [| apply stable_sort_top].
  - intros x y H. by apply Qle_bool_iff in H.
  - intros x y. rewrite !Qle_bool_iff.
    destruct (Qlt_le_dec (key x) (key y)) as [H|H]; [right | left]; [| done].
    by apply Qlt_le_weak.
  - intros x y z. rewrite !Qle_bool_iff. intros H1 H2. by eapply Qle_trans.
Qed.


(** ** Binary64 rounding and format_bytes *)

Section Binary64Facts.

Import PyFloat.

Lemma pow2_pos e : (0 < pow2 e)%Q.
Proof. apply Qpower_0_lt. reflexivity. Qed.

Lemma pow2_nonzero e : ~ (pow2 e == 0)%Q.
Proof. intros H. pose proof (pow2_pos e) as Hp. rewrite H in Hp. by apply Qlt_irrefl in Hp. Qed.

Lemma pow2_add a b : (pow2 (a + b) == pow2 a * pow2 b)%Q.
Proof. apply Qpower_plus. discriminate. Qed.

Lemma pow2_sub a b : (pow2 (a - b) == pow2 a / pow2 b)%Q.
Proof. apply Qpower_minus. discriminate. Qed.

Lemma pow2_Z e : 0 <= e -> (pow2 e == inject_Z (2 ^ e))%Q.
Proof. intros He. symmetry. apply (Zpower_Qpower 2 e He). Qed.

Lemma pow2_le a b : a <= b -> (pow2 a <= pow2 b)%Q.
Proof. intros H. apply Qpower_le_compat_l; [done | discriminate]. Qed.

Lemma pow2_lt a b : a < b -> (pow2 a < pow2 b)%Q.
Proof. intros H. apply Qpower_lt_compat_l; [done | reflexivity]. Qed.

Lemma pow2_lt_inv a b : (pow2 a < pow2 b)%Q -> a < b.
Proof. intros H. eapply Qpower_lt_compat_l_inv; [exact H | reflexivity]. Qed.

Lemma Qdiv_lt_div A B P L :
  (0 < B -> 0 < L -> A * L < P * B -> A / B < P / L)%Q.
Proof.
  intros HB HL H. apply Qlt_shift_div_r; [done |].
  assert (P / L * B == P * B / L)%Q as E
    by (field; intros E; rewrite E in HL; by apply Qlt_irrefl in HL).
  rewrite E.
  by apply Qlt_shift_div_l.
Qed.

Lemma Qdiv_le_div A B P L :
  (0 < B -> 0 < L -> A * L <= P * B -> A / B <= P / L)%Q.
Proof.
  intros HB HL H. apply Qle_shift_div_r; [done |].
  assert (P / L * B == P * B / L)%Q as E
    by (field; intros E; rewrite E in HL; by apply Qlt_irrefl in HL).
  rewrite E.
  by apply Qle_shift_div_l.
Qed.

Lemma inject_Z_pos n : 0 < n -> (0 < inject_Z n)%Q.
Proof. intros H. by rewrite Zlt_Qlt in H. Qed.

Lemma ilog2_spec x :
  (0 < x)%Q -> (pow2 (ilog2 x) <= x)%Q /\ (x < pow2 (ilog2 x + 1))%Q.
Proof.
  intros Hx. destruct x as [a b].
  assert (0 < a) as Ha by (unfold Qlt in Hx; cbn in Hx; lia).
  unfold ilog2. cbn [Qnum Qden].
  set (la := Z.log2 a). set (lb := Z.log2 (Z.pos b)).
  destruct (Z.log2_spec a Ha) as [Ha1 Ha2]. fold la in Ha1, Ha2.
  destruct (Z.log2_spec (Z.pos b) ltac:(lia)) as [Hb1 Hb2]. fold lb in Hb1, Hb2.
  assert (0 <= la) as Hla by apply Z.log2_nonneg.
  assert (0 <= lb) as Hlb by apply Z.log2_nonneg.
  assert (a # b == inject_Z a / inject_Z (Z.pos b))%Q as Hab by apply Qmake_Qdiv.
  assert (a # b < pow2 (la - lb + 1))%Q as Hup.
  { rewrite Hab. replace (la - lb + 1) with (Z.succ la - lb) by lia.
    rewrite pow2_sub, !pow2_Z by lia.
    apply Qdiv_lt_div; [by apply inject_Z_pos | apply inject_Z_pos; lia |].
    rewrite <- !inject_Z_mult, <- Zlt_Qlt. nia. }
  assert (pow2 (la - lb - 1) <= a # b)%Q as Hlow.
  { rewrite Hab. replace (la - lb - 1) with (la - Z.succ lb) by lia.
    rewrite pow2_sub, !pow2_Z by lia.
    apply Qdiv_le_div; [apply inject_Z_pos; lia | by apply inject_Z_pos |].
    rewrite <- !inject_Z_mult, <- Zle_Qle. nia. }
  destruct (Qle_bool (pow2 (la - lb)) (a # b)) eqn:E.
  - apply Qle_bool_iff in E. done.
  - replace (la - lb - 1 + 1) with (la - lb) by lia. split; [done |].
    apply Qnot_le_lt. intros H. apply Qle_bool_iff in H. congruence.
Qed.

Lemma ilog2_unique x k :
  (pow2 k <= x)%Q -> (x < pow2 (k + 1))%Q -> ilog2 x = k.
Proof.
  intros H1 H2.
  assert (0 < x)%Q as Hx by (eapply Qlt_le_trans; [apply (pow2_pos k) | done]).
  destruct (ilog2_spec x Hx) as [S1 S2].
  assert (ilog2 x < k + 1).
  { apply pow2_lt_inv. eapply Qle_lt_trans; [exact S1 | exact H2]. }
  assert (k < ilog2 x + 1).
  { apply pow2_lt_inv. eapply Qle_lt_trans; [exact H1 | exact S2]. }
  lia.
Qed.

Lemma round_half_even_comp x y : (x == y)%Q -> round_half_even x = round_half_even y.
Proof.
  intros H. unfold round_half_even. rewrite (Qfloor_comp _ _ H).
  assert (x - inject_Z (Qfloor y) == y - inject_Z (Qfloor y))%Q as E by (by rewrite H).
  by rewrite (Qcompare_comp _ _ E _ _ (Qeq_refl _)).
Qed.

Lemma round_half_even_Z n : round_half_even (inject_Z n) = n.
Proof.
  unfold round_half_even. rewrite Qfloor_Z.
  destruct (Qcompare_spec (inject_Z n - inject_Z n) (1 # 2)) as [H|H|H]; try done.
  - exfalso. revert H. unfold Qeq, Qminus, Qplus, Qopp, inject_Z; cbn. lia.
  - exfalso. revert H. unfold Qlt, Qminus, Qplus, Qopp, inject_Z; cbn. lia.
Qed.

Lemma round_half_even_floor y :
  Qfloor y <= round_half_even y <= Qfloor y + 1.
Proof.
  unfold round_half_even.
  destruct (Qcompare _ _); [destruct (Z.even _) | |]; lia.
Qed.

Lemma round_half_even_ge y N : (inject_Z N <= y)%Q -> N <= round_half_even y.
Proof.
  intros H. pose proof (round_half_even_floor y).
  apply Qfloor_resp_le in H. rewrite Qfloor_Z in H. lia.
Qed.

Lemma Qfloor_lt_Z y N : (y < inject_Z N)%Q -> Qfloor y < N.
Proof.
  intros H. pose proof (Qfloor_le y) as Hf.
  rewrite Zlt_Qlt. by eapply Qle_lt_trans.
Qed.

Lemma round_half_even_le y N : (y <= inject_Z N)%Q -> round_half_even y <= N.
Proof.
  intros H. apply Qle_lt_or_eq in H as [H|H].
  - apply Qfloor_lt_Z in H. pose proof (round_half_even_floor y). lia.
  - rewrite (round_half_even_comp _ _ H), round_half_even_Z. lia.
Qed.

Lemma inject_Z_pred N : (inject_Z (N - 1) == inject_Z N - 1)%Q.
Proof. unfold Qeq, Qminus, Qplus, Qopp, inject_Z; cbn. lia. Qed.

(** Below the midpoint under [N], rounding stays below [N]. *)
Lemma round_half_even_lt_half y N :
  (y < inject_Z N - (1 # 2))%Q -> round_half_even y < N.
Proof.
  intros H. unfold round_half_even.
  assert (Qfloor y < N) as Hf by (apply Qfloor_lt_Z; lra).
  assert (Qfloor y = N - 1 -> (y - inject_Z (Qfloor y) < 1 # 2)%Q) as Hc.
  { intros E. rewrite E, inject_Z_pred. lra. }
  destruct (Qcompare_spec (y - inject_Z (Qfloor y)) (1 # 2)) as [E|E|E]; [| lia |].
  - destruct (Z.eq_dec (Qfloor y) (N - 1)) as [E'|E'].
    + specialize (Hc E'). lra.
    + destruct (Z.even _); lia.
  - destruct (Z.eq_dec (Qfloor y) (N - 1)) as [E'|E'].
    + specialize (Hc E'). lra.
    + lia.
Qed.

(** From the midpoint under an even [N] on, rounding reaches [N]. *)
Lemma round_half_even_ge_half y N :
  Z.even N = true -> (inject_Z N - (1 # 2) <= y)%Q -> N <= round_half_even y.
Proof.
  intros Hev H. unfold round_half_even.
  assert (N - 1 <= Qfloor y) as Hf.
  { assert (inject_Z (N - 1) <= y)%Q as H' by (rewrite inject_Z_pred; lra).
    apply Qfloor_resp_le in H'. by rewrite Qfloor_Z in H'. }
  destruct (Z.eq_dec (Qfloor y) (N - 1)) as [E'|E'].
  - rewrite E'.
    assert (Z.even (N - 1) = false) as Hodd by (by rewrite Z.even_sub, Hev).
    rewrite Hodd.
    destruct (Qcompare_spec (y - inject_Z (N - 1)) (1 # 2)) as [E|E|E]; [lia | | lia].
    exfalso. rewrite inject_Z_pred in E. lra.
  - destruct (Qcompare _ _); [destruct (Z.even (Qfloor y)) | |]; lia.
Qed.

Lemma pow2_opp e : (pow2 (- e) == / pow2 e)%Q.
Proof. apply Qpower_opp. Qed.

Lemma div_pow2 x e : (x / pow2 e == x * pow2 (- e))%Q.
Proof. unfold Qdiv. by rewrite pow2_opp. Qed.

Lemma pow2_0 : (pow2 0 == 1)%Q.
Proof. reflexivity. Qed.

Lemma pow2_cancel a b : (pow2 a * pow2 (b - a) == pow2 b)%Q.
Proof. rewrite <- pow2_add. by replace (a + (b - a)) with b by lia. Qed.

Lemma ilog2_comp x y : (0 < x)%Q -> (x == y)%Q -> ilog2 x = ilog2 y.
Proof.
  intros Hx E. assert (0 < y)%Q as Hy by (by rewrite <- E).
  destruct (ilog2_spec y Hy) as [S1 S2].
  apply ilog2_unique; by rewrite E.
Qed.

Lemma round_pos_comp x y : (0 < x)%Q -> (x == y)%Q -> (round_pos x == round_pos y)%Q.
Proof.
  intros Hx E. unfold round_pos. rewrite (ilog2_comp x y Hx E).
  set (e := Z.max (ilog2 y - 52) (-1074)).
  assert (x / pow2 e == y / pow2 e)%Q as E' by (by rewrite E).
  by rewrite (round_half_even_comp _ _ E').
Qed.

(** The logarithm of a scaled integer. *)
Lemma ilog2_scaled n j : 0 < n -> ilog2 (inject_Z n * pow2 j) = Z.log2 n + j.
Proof.
  intros Hn. destruct (Z.log2_spec n Hn) as [L1 L2].
  pose proof (Z.log2_nonneg n) as L0. pose proof (pow2_pos j) as Hj.
  apply ilog2_unique.
  - rewrite pow2_add, (pow2_Z (Z.log2 n)) by done.
    apply Qmult_le_compat_r; [by rewrite <- Zle_Qle | by apply Qlt_le_weak].
  - replace (Z.log2 n + j + 1) with (Z.succ (Z.log2 n) + j) by lia.
    rewrite pow2_add, (pow2_Z (Z.succ (Z.log2 n))) by lia.
    apply Qmult_lt_compat_r; [done | by rewrite <- Zlt_Qlt].
Qed.

(** A number with at most 53 significant bits, and not below the subnormal
    spacing, is its own rounding. *)
Lemma round_pos_exact_lt n j :
  0 < n < 2 ^ 53 -> -1074 <= j ->
  (round_pos (inject_Z n * pow2 j) == inject_Z n * pow2 j)%Q.
Proof.
  intros [Hn Hn'] Hj. unfold round_pos. rewrite ilog2_scaled by done.
  assert (Z.log2 n < 53) as HL by (apply Z.log2_lt_pow2; lia).
  set (e := Z.max (Z.log2 n + j - 52) (-1074)).
  assert (e <= j) as He by lia.
  assert (inject_Z n * pow2 j / pow2 e == inject_Z (n * 2 ^ (j - e)))%Q as Ey.
  { rewrite div_pow2, inject_Z_mult, <- (pow2_Z (j - e)), <- Qmult_assoc, <- pow2_add by lia.
    by replace (j + - e) with (j - e) by lia. }
  rewrite (round_half_even_comp _ _ Ey), round_half_even_Z.
  rewrite inject_Z_mult, <- (pow2_Z (j - e)), <- Qmult_assoc by lia.
  rewrite (Qmult_comm (pow2 (j - e))), pow2_cancel. reflexivity.
Qed.

Lemma round_pos_exact n j :
  0 < n <= 2 ^ 53 -> -1074 <= j ->
  (round_pos (inject_Z n * pow2 j) == inject_Z n * pow2 j)%Q.
Proof.
  intros [Hn Hn'] Hj. destruct (Z.eq_dec n (2 ^ 53)) as [E|E].
  - subst n.
    assert (inject_Z (2 ^ 53) * pow2 j == inject_Z (2 ^ 52) * pow2 (j + 1))%Q as Ex.
    { rewrite (pow2_add j 1). change (pow2 1) with 2%Q.
      rewrite (Qmult_comm (pow2 j)), Qmult_assoc.
      change (2 ^ 53) with (2 ^ 52 * 2). by rewrite inject_Z_mult. }
    rewrite round_pos_comp; [| | exact Ex].
    + rewrite round_pos_exact_lt; [by symmetry | lia | lia].
    + apply Qmult_lt_0_compat; [done | apply pow2_pos].
  - apply round_pos_exact_lt; lia.
Qed.

(** The mantissa that [round_pos] computes. *)
Lemma round_pos_mantissa x :
  (0 < x)%Q ->
  let e := Z.max (ilog2 x - 52) (-1074) in
  let m := round_half_even (x / pow2 e) in
  0 <= m <= 2 ^ 53 /\ (-1074 <= ilog2 x - 52 -> 2 ^ 52 <= m).
Proof.
  intros Hx e m. destruct (ilog2_spec x Hx) as [S1 S2].
  set (L := ilog2 x) in *. pose proof (pow2_pos (- e)) as Hpe.
  assert (x / pow2 e < inject_Z (2 ^ 53))%Q as Hup.
  { rewrite div_pow2, <- (pow2_Z 53) by lia.
    eapply Qlt_le_trans; [apply Qmult_lt_compat_r; [done | exact S2] |].
    rewrite <- pow2_add. apply pow2_le. lia. }
  repeat split.
  - apply round_half_even_ge. rewrite div_pow2.
    apply Qlt_le_weak, Qmult_lt_0_compat; done.
  - apply round_half_even_le. by apply Qlt_le_weak.
  - intros HL. apply round_half_even_ge. rewrite div_pow2, <- (pow2_Z 52) by lia.
    replace e with (L - 52) by lia.
    eapply Qle_trans;
      [| apply Qmult_le_compat_r; [exact S1 | apply Qlt_le_weak, pow2_pos]].
    rewrite <- pow2_add. apply pow2_le. lia.
Qed.

(** Rounding keeps a number at or above a power of two that it reaches. *)
Lemma round_pos_ge_pow2 x k :
  -1022 <= k -> (pow2 k <= x)%Q -> (pow2 k <= round_pos x)%Q.
Proof.
  intros Hk Hx.
  assert (0 < x)%Q as Hx0 by (eapply Qlt_le_trans; [apply (pow2_pos k) | done]).
  destruct (ilog2_spec x Hx0) as [S1 S2].
  assert (k <= ilog2 x) as HkL.
  { assert (k < ilog2 x + 1); [| lia].
    apply pow2_lt_inv. by eapply Qle_lt_trans. }
  destruct (round_pos_mantissa x Hx0) as [_ Hm]. specialize (Hm ltac:(lia)).
  unfold round_pos. replace (Z.max (ilog2 x - 52) (-1074)) with (ilog2 x - 52) in * by lia.
  eapply Qle_trans; [apply (pow2_le k (ilog2 x) HkL) |].
  rewrite <- (pow2_cancel 52 (ilog2 x)), (pow2_Z 52) by lia.
  apply Qmult_le_compat_r; [by rewrite <- Zle_Qle | apply Qlt_le_weak, pow2_pos].
Qed.

(** Scaling by a power of two commutes with rounding, above the subnormal
    range. *)
Lemma round_pos_scale x j :
  (0 < x)%Q -> -1074 <= ilog2 x - 52 -> -1074 <= ilog2 x - 52 + j ->
  (round_pos (x * pow2 j) == round_pos x * pow2 j)%Q.
Proof.
  intros Hx H1 H2. destruct (ilog2_spec x Hx) as [S1 S2].
  pose proof (pow2_pos j) as Hj.
  assert (ilog2 (x * pow2 j) = ilog2 x + j) as EL.
  { apply ilog2_unique.
    - rewrite pow2_add. apply Qmult_le_compat_r; [done | by apply Qlt_le_weak].
    - replace (ilog2 x + j + 1) with (ilog2 x + 1 + j) by lia.
      rewrite pow2_add. by apply Qmult_lt_compat_r. }
  unfold round_pos. rewrite EL.
  replace (Z.max (ilog2 x + j - 52) (-1074)) with (ilog2 x - 52 + j) by lia.
  replace (Z.max (ilog2 x - 52) (-1074)) with (ilog2 x - 52) by lia.
  set (e := ilog2 x - 52).
  assert (x * pow2 j / pow2 (e + j) == x / pow2 e)%Q as Ey.
  { rewrite !div_pow2, <- Qmult_assoc, <- pow2_add.
    by replace (j + - (e + j)) with (- e) by lia. }
  rewrite (round_half_even_comp _ _ Ey), pow2_add. ring.
Qed.

(** Where rounding leaves the finite range. *)
Lemma round_pos_finite x :
  (0 < x)%Q -> (x < pow2 1024 - pow2 970)%Q -> (round_pos x < pow2 1024)%Q.
Proof.
  intros Hx Hlt. destruct (ilog2_spec x Hx) as [S1 S2].
  destruct (round_pos_mantissa x Hx) as [[_ Hm] _].
  assert (ilog2 x < 1024) as HL.
  { apply pow2_lt_inv. eapply Qle_lt_trans; [exact S1 |].
    eapply Qlt_trans; [exact Hlt |]. pose proof (pow2_pos 970). lra. }
  unfold round_pos in *. set (e := Z.max (ilog2 x - 52) (-1074)) in *.
  pose proof (pow2_pos e) as Hpe.
  destruct (Z.eq_dec (ilog2 x) 1023) as [E|E].
  - assert (e = 971) as Ee by lia. rewrite Ee in *.
    assert (round_half_even (x / pow2 971) < 2 ^ 53) as Hm'.
    { apply round_half_even_lt_half. apply Qlt_shift_div_r; [done |].
      eapply Qlt_le_trans; [exact Hlt |]. apply Qle_lteq. right.
      rewrite <- (pow2_Z 53) by lia.
      rewrite <- (pow2_cancel 971 1024), <- (pow2_cancel 970 971).
      replace (1024 - 971) with 53 by lia. replace (971 - 970) with 1 by lia.
      change (pow2 1) with 2%Q. field. }
    eapply Qlt_le_trans;
      [apply Qmult_lt_compat_r; [done | rewrite <- Zlt_Qlt; exact Hm'] |].
    rewrite <- (pow2_Z 53), <- pow2_add by lia. apply pow2_le. lia.
  - eapply Qle_lt_trans;
      [apply Qmult_le_compat_r; [rewrite <- Zle_Qle; exact Hm | by apply Qlt_le_weak] |].
    rewrite <- (pow2_Z 53), <- pow2_add by lia. apply pow2_lt. lia.
Qed.

Lemma round_pos_overflow x :
  (pow2 1024 - pow2 970 <= x)%Q -> (pow2 1024 <= round_pos x)%Q.
Proof.
  intros Hge.
  assert (pow2 1023 <= x)%Q as H1023.
  { eapply Qle_trans; [| exact Hge].
    rewrite <- (pow2_cancel 1023 1024), <- (pow2_cancel 970 1023).
    replace (1024 - 1023) with 1 by lia. change (pow2 1) with 2%Q.
    assert (pow2 (1023 - 970) >= 1)%Q.
    { change 1%Q with (pow2 0). apply pow2_le. lia. }
    pose proof (pow2_pos 970). nra. }
  destruct (Qlt_le_dec x (pow2 1024)) as [Hlt|Hle];
    [| by apply round_pos_ge_pow2].
  assert (ilog2 x = 1023) as EL by (by apply ilog2_unique).
  unfold round_pos. rewrite EL.
  replace (Z.max (1023 - 52) (-1074)) with 971 by lia.
  pose proof (pow2_pos 971) as Hpe.
  assert (2 ^ 53 <= round_half_even (x / pow2 971)) as Hm.
  { apply round_half_even_ge_half; [done |].
    apply Qle_shift_div_l; [done |].
    eapply Qle_trans; [| exact Hge]. apply Qle_lteq. right.
    rewrite <- (pow2_Z 53) by lia.
    rewrite <- (pow2_cancel 971 1024), <- (pow2_cancel 970 971).
    replace (1024 - 971) with 53 by lia. replace (971 - 970) with 1 by lia.
    change (pow2 1) with 2%Q. field. }
  eapply Qle_trans;
    [| apply Qmult_le_compat_r; [rewrite <- Zle_Qle; exact Hm | by apply Qlt_le_weak]].
  rewrite <- (pow2_Z 53), <- pow2_add by lia. apply pow2_le. lia.
Qed.

Lemma ltb_comp v w a : (v == w)%Q -> PyFloat.ltb v a = PyFloat.ltb w a.
Proof. intros E. unfold PyFloat.ltb. by rewrite (Qleb_comp _ _ (Qeq_refl a) _ _ E). Qed.

Lemma ltb_lt v a : PyFloat.ltb v a = true <-> (v < a)%Q.
Proof.
  unfold PyFloat.ltb. rewrite negb_true_iff, <- not_true_iff_false, Qle_bool_iff.
  split; [apply Qnot_le_lt | apply Qlt_not_le].
Qed.

Lemma ltb_ge v a : PyFloat.ltb v a = false <-> (a <= v)%Q.
Proof. unfold PyFloat.ltb. by rewrite negb_false_iff, Qle_bool_iff. Qed.

Lemma format_2f_comp v w : (v == w)%Q -> format_2f v = format_2f w.
Proof.
  intros E. unfold format_2f. rewrite (ltb_comp v w 0 E).
  assert (Qabs v * 100 == Qabs w * 100)%Q as E' by (by rewrite E).
  by rewrite (round_half_even_comp _ _ E').
Qed.

Lemma pick_unit_comp us : forall v w,
  (v == w)%Q ->
  ((pick_unit us v).1 == (pick_unit us w).1)%Q /\
  (pick_unit us v).2 = (pick_unit us w).2.
Proof.
  induction us as [|u us IH]; intros v w E; cbn; [done |].
  rewrite (ltb_comp v w 1024 E). destruct (PyFloat.ltb w 1024); [done |].
  apply IH. by rewrite E.
Qed.

Lemma round_of_pos x : (0 < x)%Q -> round x = round_pos x.
Proof. intros H. unfold round. apply Qgt_alt in H. by rewrite H. Qed.

(** Dividing a float with room below it by 1024 is exact. *)
Lemma div_int_1024_exact v m e :
  (v == inject_Z m * pow2 e)%Q -> 0 < m <= 2 ^ 53 -> -1074 <= e - 10 ->
  (div_int v 1024 == v / 1024)%Q /\
  (v / 1024 == inject_Z m * pow2 (e - 10))%Q.
Proof.
  intros E Hm He.
  assert (v / 1024 == inject_Z m * pow2 (e - 10))%Q as E'.
  { rewrite E, pow2_sub. change (pow2 10) with 1024%Q. field. }
  split; [| done]. unfold div_int. change (inject_Z 1024) with 1024%Q.
  assert (0 < inject_Z m * pow2 (e - 10))%Q as Hpos.
  { apply Qmult_lt_0_compat; [apply inject_Z_pos; lia | apply pow2_pos]. }
  rewrite round_of_pos by (by rewrite E').
  rewrite round_pos_comp; [| by rewrite E' | exact E'].
  rewrite round_pos_exact by done. by symmetry.
Qed.

(** The loop of [format_bytes] on a float with room below it. *)
Lemma format_bytes_loop_float us : forall v m e,
  (v == inject_Z m * pow2 e)%Q -> 0 < m <= 2 ^ 53 ->
  -1074 <= e - 10 * Z.of_nat (length us) ->
  Base.format_bytes_loop us (NFloat v) =
  Ok (format_2f (pick_unit us v).1 +:+ " " +:+ (pick_unit us v).2).
Proof.
  induction us as [|u us IH]; intros v m e E Hm He; cbn [Base.format_bytes_loop].
  - done.
  - cbn [Base.lt_1024 pick_unit]. destruct (PyFloat.ltb v 1024); [done |].
    cbn [length] in He.
    destruct (div_int_1024_exact v m e E Hm ltac:(lia)) as [D1 D2].
    cbn [Base.div_1024 mbind mret Res_bind Res_ret].
    rewrite (IH _ m (e - 10)); [| by rewrite D1 | done | lia].
    destruct (pick_unit_comp us _ _ D1) as [P1 P2].
    by rewrite (format_2f_comp _ _ P1), P2.
Qed.

Lemma ilog2_ge x k : (pow2 k <= x)%Q -> k <= ilog2 x.
Proof.
  intros H.
  assert (0 < x)%Q as Hx by (eapply Qlt_le_trans; [apply (pow2_pos k) | done]).
  destruct (ilog2_spec x Hx) as [_ S2].
  assert (k < ilog2 x + 1); [| lia].
  apply pow2_lt_inv. by eapply Qle_lt_trans.
Qed.

Lemma limit_as_Q :
  (pow2 1024 - pow2 970 == inject_Z format_bytes_limit / 1024)%Q.
Proof. vm_compute. reflexivity. Qed.

Lemma overflows_false v : (0 <= v)%Q -> (v < pow2 1024)%Q -> overflows v = false.
Proof.
  intros H0 H. unfold overflows. apply not_true_iff_false. rewrite Qle_bool_iff.
  rewrite (Qabs_pos v H0). by apply Qlt_not_le.
Qed.

Lemma overflows_true v : (pow2 1024 <= v)%Q -> overflows v = true.
Proof.
  intros H. unfold overflows. apply Qle_bool_iff.
  eapply Qle_trans; [exact H | apply Qle_Qabs].
Qed.

Lemma round_pos_pos x : (pow2 0 <= x)%Q -> (0 < round_pos x)%Q.
Proof.
  intros H. eapply Qlt_le_trans; [apply (pow2_pos 0) |].
  by apply round_pos_ge_pow2.
Qed.

(** The first division of [format_bytes], on the int [size]. *)
Lemma first_division size :
  1024 <= size ->
  let x := (inject_Z size / 1024)%Q in
  (size < format_bytes_limit -> int_truediv size 1024 = Ok (round_pos x)) /\
  (format_bytes_limit <= size -> is_ok (int_truediv size 1024) = false).
Proof.
  intros Hs x. unfold int_truediv. cbn [Z.eqb].
  change (inject_Z 1024) with 1024%Q. fold x.
  assert (pow2 0 <= x)%Q as Hx1.
  { change (pow2 0) with 1%Q. unfold x. apply Qle_shift_div_l; [done |].
    change (1 * 1024)%Q with (inject_Z 1024). by rewrite <- Zle_Qle. }
  assert (0 < x)%Q as Hx0 by (eapply Qlt_le_trans; [apply (pow2_pos 0) | done]).
  rewrite round_of_pos by done. split; intros H.
  - rewrite overflows_false; [done | by apply Qlt_le_weak, round_pos_pos |].
    apply round_pos_finite; [done |]. rewrite limit_as_Q. unfold x, Qdiv.
    apply Qmult_lt_compat_r; [done | by rewrite <- Zlt_Qlt].
  - rewrite overflows_true; [done |].
    apply round_pos_overflow. rewrite limit_as_Q. unfold x, Qdiv.
    apply Qmult_le_compat_r; [by rewrite <- Zle_Qle | done].
Qed.

Lemma format_bytes_loop_cons u us sz :
  Base.format_bytes_loop (u :: us) sz =
  if Base.lt_1024 sz
  then s ← Base.format_size sz; mret (s +:+ " " +:+ u)
  else sz' ← Base.div_1024 sz; Base.format_bytes_loop us sz'.
Proof. reflexivity. Qed.

(** After the first division, the loop is the exact one. *)
Lemma format_bytes_from_KB size :
  1024 <= size < format_bytes_limit ->
  let v := round_pos (inject_Z size / 1024) in
  Base.format_bytes size =
  Ok (format_2f (pick_unit ["KB"; "MB"; "GB"] v).1 +:+ " " +:+
      (pick_unit ["KB"; "MB"; "GB"] v).2).
Proof.
  intros [Hs Hlim] v. unfold Base.format_bytes, Base.units.
  rewrite format_bytes_loop_cons. cbn [Base.lt_1024].
  replace (size <? 1024) with false by (symmetry; apply Z.ltb_ge; lia).
  cbn [Base.div_1024].
  destruct (first_division size Hs) as [Hdiv _]. rewrite (Hdiv Hlim).
  cbn [mbind mret Res_bind Res_ret]. fold v.
  set (x := (inject_Z size / 1024)%Q) in *.
  assert (pow2 0 <= x)%Q as Hx1.
  { change (pow2 0) with 1%Q. unfold x. apply Qle_shift_div_l; [done |].
    change (1 * 1024)%Q with (inject_Z 1024). by rewrite <- Zle_Qle. }
  assert (0 < x)%Q as Hx0 by (eapply Qlt_le_trans; [apply (pow2_pos 0) | done]).
  pose proof (ilog2_ge x 0 Hx1) as HL.
  destruct (round_pos_mantissa x Hx0) as [[_ Hm] Hm']. specialize (Hm' ltac:(lia)).
  eapply (format_bytes_loop_float _ v _ (Z.max (ilog2 x - 52) (-1074)));
    [reflexivity | lia | cbn [length]; lia].
Qed.

Lemma inject_Z_1024_pow k :
  0 <= k -> (inject_Z (1024 ^ k) == pow2 (10 * k))%Q.
Proof.
  intros Hk. rewrite pow2_Z by lia. apply inject_Z_injective.
  rewrite Z.pow_mul_r by lia. done.
Qed.

(** Below [2^53] the first division is exact. *)
Lemma first_division_exact size :
  1024 <= size < 2 ^ 53 ->
  (round_pos (inject_Z size / 1024) == inject_Z size / 1024)%Q.
Proof.
  intros Hs.
  assert (inject_Z size / 1024 == inject_Z size * pow2 (-10))%Q as E.
  { change 1024%Q with (pow2 10). apply div_pow2. }
  rewrite round_pos_comp; [| | exact E].
  - rewrite round_pos_exact; [by symmetry | lia | lia].
  - apply Qlt_shift_div_l; [done |]. rewrite Qmult_0_l. apply inject_Z_pos. lia.
Qed.

Lemma of_int_small n :
  0 <= n < 2 ^ 53 -> exists v, of_int n = Ok v /\ (v == inject_Z n)%Q.
Proof.
  intros [H0 Hn]. unfold of_int. destruct (Z.eq_dec n 0) as [->|Hne].
  - exists 0%Q. split; [| done]. vm_compute. reflexivity.
  - assert (0 < inject_Z n)%Q as Hpos by (apply inject_Z_pos; lia).
    assert (inject_Z n == inject_Z n * pow2 0)%Q as E by (change (pow2 0) with 1%Q; ring).
    assert (round_pos (inject_Z n) == inject_Z n)%Q as Ev.
    { rewrite round_pos_comp; [| done | exact E].
      rewrite round_pos_exact; [by symmetry | lia | lia]. }
    rewrite round_of_pos by done. exists (round_pos (inject_Z n)). split; [| done].
    rewrite overflows_false; [done | rewrite Ev; by apply Qlt_le_weak |].
    rewrite Ev, (pow2_Z 1024), <- Zlt_Qlt by lia.
    eapply Z.lt_trans; [exact Hn |]. by apply Z.pow_lt_mono_r.
Qed.

Lemma pick_KB v : (v < 1024)%Q -> pick_unit ["KB"; "MB"; "GB"] v = (v, "KB").
Proof. intros H. cbn. by rewrite (proj2 (ltb_lt v 1024) H). Qed.

Lemma pick_MB v :
  (1024 <= v)%Q -> (v / 1024 < 1024)%Q ->
  pick_unit ["KB"; "MB"; "GB"] v = ((v / 1024)%Q, "MB").
Proof.
  intros H1 H2. cbn.
  by rewrite (proj2 (ltb_ge v 1024) H1), (proj2 (ltb_lt _ 1024) H2).
Qed.

Lemma pick_GB v :
  (1024 <= v)%Q -> (1024 <= v / 1024)%Q -> (v / 1024 / 1024 < 1024)%Q ->
  pick_unit ["KB"; "MB"; "GB"] v = ((v / 1024 / 1024)%Q, "GB").
Proof.
  intros H1 H2 H3. cbn.
  by rewrite (proj2 (ltb_ge v 1024) H1), (proj2 (ltb_ge _ 1024) H2),
    (proj2 (ltb_lt _ 1024) H3).
Qed.

Lemma pick_TB v :
  (1024 <= v)%Q -> (1024 <= v / 1024)%Q -> (1024 <= v / 1024 / 1024)%Q ->
  pick_unit ["KB"; "MB"; "GB"] v = ((v / 1024 / 1024 / 1024)%Q, "TB").
Proof.
  intros H1 H2 H3. cbn.
  by rewrite (proj2 (ltb_ge v 1024) H1), (proj2 (ltb_ge _ 1024) H2),
    (proj2 (ltb_ge _ 1024) H3).
Qed.

Lemma two_digits_length n : 0 <= n < 100 -> String.length (two_digits n) = 2%nat.
Proof.
  intros Hn.
  assert (forallb (fun n => Nat.eqb (String.length (two_digits n)) 2) (seqZ 0 100) = true)
    as Hall by (vm_compute; reflexivity).
  rewrite forallb_forall in Hall.
  apply Nat.eqb_eq, Hall, list_elem_of_In, elem_of_seqZ. lia.
Qed.

(** [f"{v:.2f}"] of a float that is not negative: the hundredths, written
    as an integer part, a point and two digits. *)
Lemma format_2f_shape v :
  (0 <= v)%Q ->
  let h := round_half_even (v * 100) in
  0 <= h /\
  format_2f v = pretty (h / 100) +:+ "." +:+ two_digits (h `mod` 100) /\
  String.length (two_digits (h `mod` 100)) = 2%nat.
Proof.
  intros Hv h.
  assert (0 <= h) as Hh.
  { apply round_half_even_ge. change (inject_Z 0) with 0%Q.
    apply Qmult_le_0_compat; done. }
  split; [done |]. split.
  - unfold format_2f. rewrite (proj2 (ltb_ge v 0) Hv).
    assert (Qabs v * 100 == v * 100)%Q as E by (by rewrite (Qabs_pos v Hv)).
    by rewrite (round_half_even_comp _ _ E).
  - apply two_digits_length. by apply Z.mod_pos_bound.
Qed.

Lemma Qdiv_lt_Z s d c :
  0 < d -> s < c * d -> (inject_Z s / inject_Z d < inject_Z c)%Q.
Proof.
  intros Hd H. apply Qlt_shift_div_r; [by apply inject_Z_pos |].
  by rewrite <- inject_Z_mult, <- Zlt_Qlt.
Qed.

Lemma Qdiv_ge_Z s d c :
  0 < d -> c * d <= s -> (inject_Z c <= inject_Z s / inject_Z d)%Q.
Proof.
  intros Hd H. apply Qle_shift_div_l; [by apply inject_Z_pos |].
  by rewrite <- inject_Z_mult, <- Zle_Qle.
Qed.

Lemma format_bytes_cases (size : Z) :
  0 <= size ->
  (size < 1024 ->
     Base.format_bytes size = Ok (format_2f (inject_Z size) +:+ " B")) /\
  (1024 <= size < 1024 ^ 2 ->
     Base.format_bytes size =
     Ok (format_2f (inject_Z size / inject_Z 1024)%Q +:+ " KB")) /\
  (1024 ^ 2 <= size < 1024 ^ 3 ->
     Base.format_bytes size =
     Ok (format_2f (inject_Z size / inject_Z (1024 ^ 2))%Q +:+ " MB")) /\
  (1024 ^ 3 <= size < 1024 ^ 4 ->
     Base.format_bytes size =
     Ok (format_2f (inject_Z size / inject_Z (1024 ^ 3))%Q +:+ " GB")) /\
  (1024 ^ 4 <= size < format_bytes_limit ->
     Base.format_bytes size =
     Ok (format_2f (round (inject_Z size / inject_Z (1024 ^ 4))%Q) +:+ " TB")).
Proof.
  intros H0.
  assert (2 ^ 40 < format_bytes_limit) as Hlim40 by (vm_compute; reflexivity).
  assert (1024 ^ 4 < 2 ^ 53) as H53 by (vm_compute; reflexivity).
  split; [| split; [| split; [| split]]].
  - intros Hs. unfold Base.format_bytes, Base.units.
    rewrite format_bytes_loop_cons. cbn [Base.lt_1024].
    replace (size <? 1024) with true by (symmetry; apply Z.ltb_lt; lia).
    destruct (of_int_small size) as (v & Hv & Ev); [lia |].
    cbn [Base.format_size]. rewrite Hv. cbn [mbind mret Res_bind Res_ret].
    by rewrite (format_2f_comp _ _ Ev).
  - intros Hs. rewrite format_bytes_from_KB by lia.
    pose proof (first_division_exact size ltac:(lia)) as Ex.
    destruct (pick_unit_comp ["KB"; "MB"; "GB"] _ _ Ex) as [P1 P2].
    rewrite (format_2f_comp _ _ P1), P2, pick_KB; [done |].
    apply (Qdiv_lt_Z size 1024 1024); lia.
  - intros Hs. rewrite format_bytes_from_KB by lia.
    pose proof (first_division_exact size ltac:(lia)) as Ex.
    destruct (pick_unit_comp ["KB"; "MB"; "GB"] _ _ Ex) as [P1 P2].
    rewrite (format_2f_comp _ _ P1), P2, pick_MB.
    + cbn [fst snd]. f_equal. f_equal. apply format_2f_comp.
      change (inject_Z (1024 ^ 2)) with (1024 * 1024)%Q. field.
    + apply (Qdiv_ge_Z size 1024 1024); lia.
    + apply Qlt_shift_div_r; [done |]. apply (Qdiv_lt_Z size 1024 (1024 * 1024)); lia.
  - intros Hs. rewrite format_bytes_from_KB by lia.
    pose proof (first_division_exact size ltac:(lia)) as Ex.
    destruct (pick_unit_comp ["KB"; "MB"; "GB"] _ _ Ex) as [P1 P2].
    rewrite (format_2f_comp _ _ P1), P2, pick_GB.
    + cbn [fst snd]. f_equal. f_equal. apply format_2f_comp.
      change (inject_Z (1024 ^ 3)) with (1024 * 1024 * 1024)%Q. field.
    + apply (Qdiv_ge_Z size 1024 1024); lia.
    + apply Qle_shift_div_l; [done |]. apply (Qdiv_ge_Z size 1024 (1024 * 1024)); lia.
    + do 2 (apply Qlt_shift_div_r; [done |]).
      apply (Qdiv_lt_Z size 1024 (1024 * 1024 * 1024)); lia.
  - intros Hs. rewrite format_bytes_from_KB by lia.
    set (x := (inject_Z size / 1024)%Q).
    assert (pow2 30 <= x)%Q as Hx.
    { rewrite (pow2_Z 30) by lia. apply (Qdiv_ge_Z size 1024 (2 ^ 30)); lia. }
    assert (0 < x)%Q as Hx0 by (eapply Qlt_le_trans; [apply (pow2_pos 30) | done]).
    pose proof (round_pos_ge_pow2 x 30 ltac:(lia) Hx) as Hv.
    change (pow2 30) with (1024 * 1024 * 1024)%Q in Hv.
    rewrite pick_TB.
    + cbn [fst snd]. f_equal. f_equal. apply format_2f_comp.
      pose proof (ilog2_ge x 30 Hx) as HL.
      assert (inject_Z size / inject_Z (1024 ^ 4) == x * pow2 (-30))%Q as E.
      { unfold x. change (pow2 (-30)) with (/ (1024 * 1024 * 1024))%Q.
        change (inject_Z (1024 ^ 4)) with (1024 * 1024 * 1024 * 1024)%Q. field. }
      assert (0 < x * pow2 (-30))%Q as Hpos.
      { apply Qmult_lt_0_compat; [done | apply pow2_pos]. }
      assert (0 < inject_Z size / inject_Z (1024 ^ 4))%Q as Hpos' by (by rewrite E).
      rewrite round_of_pos by done.
      rewrite (round_pos_comp _ _ Hpos' E).
      rewrite round_pos_scale by (done || lia).
      change (pow2 (-30)) with (/ (1024 * 1024 * 1024))%Q. field.
    + lra.
    + apply Qle_shift_div_l; [done |]. lra.
    + do 2 (apply Qle_shift_div_l; [done |]). lra.
Qed.

(** The counterexample to C10 as stated: [format_bytes] is not total on
    the non-negative sizes, it raises [OverflowError] on [2^1040]. *)
Lemma format_bytes_not_total :
  0 <= 2 ^ 1040 /\
  Base.format_bytes (2 ^ 1040) =
  Raise (OverflowError "integer division result too large for a float").
Proof. split; [done |]. vm_compute. reflexivity. Qed.

(** C10, amended. On a non-negative int [size], [format_bytes] returns
    exactly when [size < 2^1034 - 2^980] (from there on [size / 1024]
    overflows binary64 and it raises). When it returns, the result is a
    number with two decimals, a space and a unit among B, KB, MB, GB, TB:
    below 1024 the unit is B and the number is [size]; for
    [1024^k <= size < 1024^(k+1)] with [k] in 1, 2, 3 the unit is the [k]-th
    of KB, MB, GB and the number is [size / 1024^k]; from [1024^4] on the
    unit is TB and the number is [size / 1024^4] rounded to binary64. *)
Theorem format_bytes_units (size : Z) :
  0 <= size ->
  (is_ok (Base.format_bytes size) = true <-> size < format_bytes_limit) /\
  (size < format_bytes_limit ->
     exists h unit,
       0 <= h /\ unit ∈ ["B"; "KB"; "MB"; "GB"; "TB"] /\
       String.length (two_digits (h `mod` 100)) = 2%nat /\
       Base.format_bytes size =
       Ok ((pretty (h / 100) +:+ "." +:+ two_digits (h `mod` 100)) +:+ " " +:+ unit)) /\
  (size < 1024 ->
     Base.format_bytes size = Ok (format_2f (inject_Z size) +:+ " B")) /\
  (1024 <= size < 1024 ^ 2 ->
     Base.format_bytes size =
     Ok (format_2f (inject_Z size / inject_Z 1024)%Q +:+ " KB")) /\
  (1024 ^ 2 <= size < 1024 ^ 3 ->
     Base.format_bytes size =
     Ok (format_2f (inject_Z size / inject_Z (1024 ^ 2))%Q +:+ " MB")) /\
  (1024 ^ 3 <= size < 1024 ^ 4 ->
     Base.format_bytes size =
     Ok (format_2f (inject_Z size / inject_Z (1024 ^ 3))%Q +:+ " GB")) /\
  (1024 ^ 4 <= size < format_bytes_limit ->
     Base.format_bytes size =
     Ok (format_2f (round (inject_Z size / inject_Z (1024 ^ 4))%Q) +:+ " TB")).
Proof.
  intros H0. destruct (format_bytes_cases size H0) as (CB & CK & CM & CG & CT).
  assert (1024 ^ 4 < format_bytes_limit) as Hlim by (vm_compute; reflexivity).
  assert (0 <= inject_Z size)%Q as Hs0 by (change 0%Q with (inject_Z 0); by rewrite <- Zle_Qle).
  assert (forall d, 0 < d -> (0 <= inject_Z size / inject_Z d)%Q) as Hdiv.
  { intros d Hd. apply Qle_shift_div_l; [by apply inject_Z_pos |]. by rewrite Qmult_0_l. }
  assert (size < format_bytes_limit ->
          exists v unit, (0 <= v)%Q /\ unit ∈ ["B"; "KB"; "MB"; "GB"; "TB"] /\
            Base.format_bytes size = Ok (format_2f v +:+ " " +:+ unit)) as Hok.
  { intros Hl.
    destruct (Z.lt_ge_cases size 1024) as [H1|H1];
      [exists (inject_Z size), "B"; rewrite CB by done; split; [done | split; [set_solver | done]] |].
    destruct (Z.lt_ge_cases size (1024 ^ 2)) as [H2|H2];
      [exists (inject_Z size / inject_Z 1024)%Q, "KB"; rewrite CK by done; split; [apply Hdiv; lia | split; [set_solver | done]] |].
    destruct (Z.lt_ge_cases size (1024 ^ 3)) as [H3|H3];
      [exists (inject_Z size / inject_Z (1024 ^ 2))%Q, "MB"; rewrite CM by done; split; [apply Hdiv; lia | split; [set_solver | done]] |].
    destruct (Z.lt_ge_cases size (1024 ^ 4)) as [H4|H4];
      [exists (inject_Z size / inject_Z (1024 ^ 3))%Q, "GB"; rewrite CG by done; split; [apply Hdiv; lia | split; [set_solver | done]] |].
    exists (round (inject_Z size / inject_Z (1024 ^ 4))%Q), "TB". rewrite CT by done. split; [| split; [set_solver | done]].
    assert (pow2 0 <= inject_Z size / inject_Z (1024 ^ 4))%Q as Hge
      by (apply (Qdiv_ge_Z size (1024 ^ 4) 1); lia).
    rewrite round_of_pos.
    - by apply Qlt_le_weak, round_pos_pos.
    - eapply Qlt_le_trans; [apply (pow2_pos 0) | exact Hge]. }
  split; [| split; [| done]].
  - split.
    + intros Hr. destruct (Z.lt_ge_cases size format_bytes_limit) as [|Hge]; [done |].
      exfalso. revert Hr. unfold Base.format_bytes, Base.units.
      rewrite format_bytes_loop_cons. cbn [Base.lt_1024].
      replace (size <? 1024) with false by (symmetry; apply Z.ltb_ge; lia).
      cbn [Base.div_1024].
      destruct (first_division size ltac:(lia)) as [_ Hraise].
      specialize (Hraise Hge). destruct (int_truediv size 1024); [done |].
      cbn. done.
    + intros Hl. destruct (Hok Hl) as (v & unit & _ & _ & ->). done.
  - intros Hl. destruct (Hok Hl) as (v & unit & Hv & Hu & ->).
    destruct (format_2f_shape v Hv) as (Hh & -> & Hlen).
    eexists _, unit. split; [exact Hh |]. split; [done |]. split; [exact Hlen | done].
Qed.

(** 1536 bytes are shown as 1.50 KB. *)
Lemma format_bytes_units_witness :
  0 <= 1536 /\ Base.format_bytes 1536 = Ok "1.50 KB".
Proof.
  assert (0 <= 1536) as H by lia. split; [exact H |].
  destruct (format_bytes_units 1536 H) as (_ & _ & _ & HK & _).
  rewrite HK by (vm_compute; split; [discriminate | reflexivity]).
  vm_compute. reflexivity.
Defined.

End Binary64Facts.

(** ** AnalysisScheduler *)

Section SchedulerFacts.

Import Scheduler.

Context {World Data : Type}.
Context (fires : nat -> bool) (rd : RenderDoc) (controller : Controller World).

#[local] Existing Instance M_ret.
#[local] Existing Instance M_bind.

Implicit Types s : Sched World Data.
Implicit Types T : list event.

Ltac run_monad :=
  unfold mbind, M_bind, mret, M_ret, modify, gets, call, try_except.

Lemma calls_app m T1 T2 : calls m (T1 ++ T2) = calls m T1 ++ calls m T2.
Proof. unfold calls. apply omap_app. Qed.

Lemma same_control_refl s : same_control s s.
Proof. by repeat split. Qed.

Lemma same_control_trans s1 s2 s3 :
  same_control s1 s2 -> same_control s2 s3 -> same_control s1 s3.
Proof. unfold same_control. intros (?&?&?&?&?) (?&?&?&?&?). repeat split; congruence. Qed.

(** One round of the loop over the analyzers, run. *)
Lemma call_analyzer_run a pipe m n (an : Analyzer World Data) s :
  call_analyzer a pipe (m, n, an) s =
  match errors s !! m with
  | Some _ => (Ok (), s)
  | None =>
      let s1 := emit (EvAnalyzeAction m a (analyze_action an a pipe (world s)).1)
                     (set_world (analyze_action an a pipe (world s)).2 s) in
      match (analyze_action an a pipe (world s)).1 with
      | Ok _ => (Ok (), s1)
      | Raise e =>
          if is_Exception e
          then (Ok (),
                set_errors (<[m := "analyze_action 失败: " +:+ exn_str e]> (errors s1)) s1)
          else (Raise e, s1)
      end
  end.
Proof.
  unfold call_analyzer. run_monad.
  destruct (errors s !! m) as [msg|] eqn:E.
  - rewrite bool_decide_true by eauto. done.
  - rewrite bool_decide_false by (by intros [? ?]).
    destruct (analyze_action an a pipe (world s)) as [[[]|e] w]; cbn; [done |].
    destruct (is_Exception e); [| done].
    rewrite E. rewrite bool_decide_false by (by intros [? ?]). done.
Qed.

Lemma call_analyzer_spec a pipe m n (an : Analyzer World Data) s :
  analyzer_raises_Exceptions an ->
  exists s' T,
    call_analyzer a pipe (m, n, an) s = (Ok (), s') /\
    trace s' = trace s ++ T /\ same_control s s' /\
    Forall (fun ev => exists r, ev = EvAnalyzeAction m a r) T /\
    module_at_site m a s s' T /\
    (forall m', m' <> m -> errors s' !! m' = errors s !! m').
Proof.
  intros (_ & Hexc & _).
  rewrite call_analyzer_run. unfold module_at_site.
  destruct (errors s !! m) as [msg|] eqn:E.
  - exists s, []. rewrite app_nil_r, E. repeat split; done.
  - specialize (Hexc a pipe (world s)).
    destruct (analyze_action an a pipe (world s)) as [[[]|e] w]; cbn.
    + eexists _, [_]. split; [done |]. cbn. rewrite E.
      split; [done |]. split; [done |].
      split; [repeat constructor; eauto |]. split; [| done].
      left. unfold calls; cbn. by rewrite decide_True.
    + rewrite (Hexc e eq_refl).
      eexists _, [_]. split; [done |]. cbn.
      split; [done |]. split; [done |].
      split; [repeat constructor; eauto |]. split.
      * right. exists e. unfold calls; cbn. rewrite decide_True by done.
        by rewrite lookup_insert_eq.
      * intros m' Hne. by rewrite lookup_insert_ne.
Qed.

Lemma calls_other m m1 a T :
  Forall (fun ev => exists r, ev = EvAnalyzeAction m1 a r) T -> m <> m1 -> calls m T = [].
Proof.
  intros HT Hne. induction HT as [|ev T [r ->] _ IH]; [done |].
  unfold calls in *. cbn. rewrite decide_False by done. exact IH.
Qed.

Lemma for_each_cons {A} (x : A) l (body : A -> M World Data ()) s :
  for_each (x :: l) body s =
  match body x s with
  | (Ok _, s1) => for_each l body s1
  | (Raise e, s1) => (Raise e, s1)
  end.
Proof. reflexivity. Qed.

(** The loop over the analyzers at one action. *)
Lemma call_analyzers_spec a pipe (it : list (string * string * Analyzer World Data)) :
  entries_raise_Exceptions it ->
  forall s, exists s' T,
    for_each it (call_analyzer a pipe) s = (Ok (), s') /\
    trace s' = trace s ++ T /\ same_control s s' /\
    Forall (fun ev => exists m r, ev = EvAnalyzeAction m a r) T /\
    (NoDup (entry_ids it) ->
     forall m, m ∈ entry_ids it -> module_at_site m a s s' T) /\
    (forall m, m ∉ entry_ids it -> calls m T = [] /\ errors s' !! m = errors s !! m).
Proof.
  induction it as [|[[m1 n1] an1] it IH]; intros Hexc s.
  - exists s, []. rewrite app_nil_r. split; [done |]. split; [done |].
    split; [apply same_control_refl |]. split; [done |].
    split; [intros _ m Hm; by apply elem_of_nil in Hm | done].
  - apply Forall_cons in Hexc as [Hexc1 Hexc].
    destruct (call_analyzer_spec a pipe m1 n1 an1 s Hexc1)
      as (s1 & T1 & Hrun1 & Htr1 & Hc1 & HT1 & Hsite1 & Hoth1).
    destruct (IH Hexc s1) as (s' & T2 & Hrun2 & Htr2 & Hc2 & HT2 & Hin2 & Hout2).
    exists s', (T1 ++ T2). rewrite for_each_cons, Hrun1, Hrun2.
    split; [done |]. split; [by rewrite Htr2, Htr1, app_assoc |].
    split; [by eapply same_control_trans |].
    split; [apply Forall_app; split; [| done];
            eapply Forall_impl; [exact HT1 |]; intros ev [r ->]; eauto |].
    split.
    + intros Hnd m Hm. unfold entry_ids in Hnd, Hm. cbn in Hnd, Hm.
      apply NoDup_cons in Hnd as [Hm1 Hnd].
      apply elem_of_cons in Hm as [->|Hm].
      * destruct (Hout2 m1 Hm1) as [Hc Herr]. unfold module_at_site in *.
        rewrite calls_app, Hc, app_nil_r, Herr. exact Hsite1.
      * assert (m <> m1) as Hne by (intros ->; done).
        specialize (Hin2 Hnd m Hm). unfold module_at_site in *.
        rewrite (Hoth1 m Hne) in Hin2.
        by rewrite calls_app, (calls_other m m1 a T1 HT1 Hne).
    + intros m Hm. unfold entry_ids in Hm. cbn in Hm.
      apply not_elem_of_cons in Hm as [Hne Hm].
      destruct (Hout2 m Hm) as [Hc Herr].
      rewrite calls_app, (calls_other m m1 a T1 HT1 Hne), Hc, Herr, (Hoth1 m Hne).
      done.
Qed.

Lemma module_along_idle m s s' T :
  calls m T = [] -> errors s' !! m = errors s !! m -> module_along m [] s s' T.
Proof.
  intros Hc He. unfold module_along. rewrite He, Hc.
  destruct (errors s !! m); [done | by left].
Qed.

Lemma module_along_site m a s s' T :
  module_at_site m a s s' T -> module_along m [a] s s' T.
Proof.
  unfold module_at_site, module_along. destruct (errors s !! m); [done |].
  intros [H|(e & Hc & He)]; [by left | right].
  exists 0%nat, a, e. by rewrite Hc.
Qed.

Lemma module_along_trans m S1 S2 s1 s2 s3 T1 T2 :
  module_along m S1 s1 s2 T1 -> module_along m S2 s2 s3 T2 ->
  module_along m (S1 ++ S2) s1 s3 (T1 ++ T2).
Proof.
  unfold module_along. rewrite calls_app. destruct (errors s1 !! m) as [msg|].
  - intros [-> ->] [-> ->]. done.
  - intros [[-> ->]|(k & a & e & Hk & -> & ->)].
    + intros [[-> ->]|(k & a & e & Hk & -> & ->)].
      * left. by rewrite fmap_app.
      * right. exists (length S1 + k)%nat, a, e.
        split; [by rewrite lookup_app_r, Nat.add_comm, Nat.add_sub by lia |].
        split; [| done].
        by rewrite take_app_add, fmap_app, app_assoc.
    + intros [-> ->]. right. exists k, a, e.
      split; [by apply lookup_app_l_Some |]. split; [| done].
      rewrite app_nil_r, take_app_le; [done |].
      apply lookup_lt_Some in Hk. lia.
Qed.

Section Traversal.

Context (it : list (string * string * Analyzer World Data)).

Hypothesis it_exc : entries_raise_Exceptions it.
Hypothesis replay_exc : replay_raises_Exceptions controller.

#[local] Abbreviation traversed := (traversed fires rd controller it).
#[local] Abbreviation dd := (fun a => is_draw_or_dispatch rd a = true).

Lemma traversed_refl s : traversed [] [] s s.
Proof.
  exists []. rewrite app_nil_r. repeat split; try done.
  - intros _ m _. by apply module_along_idle.
  - intros m a r Hin. by apply elem_of_nil in Hin.
Qed.

Lemma calls_only a T :
  Forall (fun ev => exists m r, ev = EvAnalyzeAction m a r) T ->
  forall m a' r, (a', r) ∈ calls m T -> a' = a.
Proof.
  induction 1 as [|ev T (m1 & r1 & ->) _ IH]; intros m a' r Hin.
  - by apply elem_of_nil in Hin.
  - unfold calls in Hin. cbn in Hin. destruct (decide (m1 = m)).
    + apply elem_of_cons in Hin as [[= -> _]|Hin]; [done |]. by eapply IH.
    + by eapply IH.
Qed.

Lemma traversed_trans ns1 ns2 S1 S2 s1 s2 s3 :
  traversed ns1 S1 s1 s2 -> traversed ns2 S2 s2 s3 ->
  traversed (ns1 ++ ns2) (S1 ++ S2) s1 s3.
Proof.
  intros (T1 & Htr1 & Hv1 & Hr1 & Ht1 & Hf1 & Ha1 & Hs1 & Hok1 & Hto1 & Htm1 & Hre1
          & Hcalm1 & Hin1 & Hout1 & Hat1 & Hrc1)
         (T2 & Htr2 & Hv2 & Hr2 & Ht2 & Hf2 & Ha2 & Hs2 & Hok2 & Hto2 & Htm2 & Hre2
          & Hcalm2 & Hin2 & Hout2 & Hat2 & Hrc2).
  exists (T1 ++ T2).
  split; [by rewrite Htr2, Htr1, app_assoc |].
  split; [unfold visits in *; by rewrite omap_app, Hv1, Hv2 |].
  split; [unfold replays in *; by rewrite omap_app, Hr1, Hr2, filter_app, fmap_app |].
  split; [unfold timers in *; by rewrite omap_app, Ht1, Ht2 |].
  split; [unfold finalized in *; by rewrite omap_app, Hf1, Hf2 |].
  split; [unfold analyzed in *; by rewrite omap_app, Ha1, Ha2 |].
  split; [rewrite filter_app; by apply sublist_app |].
  split; [intros Hok; by rewrite filter_app, <- Hok1, <- Hok2 |].
  split; [congruence |]. split; [congruence |]. split; [congruence |].
  split; [intros Hc; rewrite Hcalm2, Hcalm1; done |].
  split; [| split; [| split]].
  - intros Hnd m Hm. eapply module_along_trans; eauto.
  - intros m Hm. destruct (Hout1 m Hm) as [C1 E1]. destruct (Hout2 m Hm) as [C2 E2].
    by rewrite calls_app, C1, C2, E2, E1.
  - intros m a r. rewrite calls_app, elem_of_app, elem_of_app.
    intros [H|H]; [left; by eapply Hat1 | right; by eapply Hat2].
  - intros Hok. specialize (Hrc1 Hok). specialize (Hrc2 Hok).
    unfold replay_calls in *. by rewrite omap_app, Hrc1, Hrc2, filter_app, flat_map_app.
Qed.

(** A read of [self.timed_out] leaves everything else alone. *)
Lemma read_timed_out_spec s :
  exists b s', read_timed_out fires s = (Ok b, s') /\ traversed [] [] s s' /\
    b = timed_out s' /\
    (no_timeout fires -> b = timed_out s).
Proof.
  unfold read_timed_out. eexists _, _. split; [reflexivity |].
  assert (forall s0 : Sched World Data, trace (tick s0) = trace s0) as Htick by done.
  split; [| split; [done |]].
  - exists []. rewrite app_nil_r.
    split; [by destruct (timer_running s && fires (clock s)) |].
    repeat split; try done; try (by destruct (timer_running s && fires (clock s))).
    + intros Hc. rewrite (Hc (clock s)), andb_false_r. done.
    + intros _ m _. apply module_along_idle; [done |].
      by destruct (timer_running s && fires (clock s)).
    + intros m a r Hin. by apply elem_of_nil in Hin.
  - intros Hc. rewrite (Hc (clock s)), andb_false_r. done.
Qed.

Lemma only_calls_quiet a T :
  Forall (fun ev => exists m r, ev = EvAnalyzeAction m a r) T ->
  visits T = [] /\ replays T = [] /\ timers T = [] /\ finalized T = [] /\
  analyzed T = [] /\ replay_calls T = [].
Proof.
  induction 1 as [|ev T (m & r & ->) _ IH]; [done |]. exact IH.
Qed.

Lemma filter_dd_true a : is_draw_or_dispatch rd a = true -> filter dd [a] = [a].
Proof. intros H. by rewrite filter_cons, decide_True. Qed.

Lemma filter_dd_false a : is_draw_or_dispatch rd a = false -> filter dd [a] = [].
Proof. intros H. rewrite filter_cons, decide_False; [done | congruence]. Qed.

(** An action at which no analyzer is called. *)
Lemma traversed_idle a s s' T :
  trace s' = trace s ++ T ->
  visits T = [a] -> replays T = eventId <$> filter dd [a] ->
  timers T = [] -> finalized T = [] -> analyzed T = [] ->
  (forall m, calls m T = []) ->
  errors s' = errors s -> timeout s' = timeout s ->
  timeout_timer s' = timeout_timer s -> results s' = results s ->
  timed_out s' = timed_out s ->
  (replay_ok controller -> filter dd [a] = [] /\ replay_calls T = []) ->
  traversed [a] [] s s'.
Proof.
  intros Htr Hv Hr Ht Hf Ha Hc He Hto Htm Hre Hti Hok. exists T.
  split_and!; try done.
  - apply sublist_nil_l.
  - intros H. by rewrite (proj1 (Hok H)).
  - intros _ m _. apply module_along_idle; [done | by rewrite He].
  - intros m _. split; [done | by rewrite He].
  - intros m a' r. by rewrite Hc, elem_of_nil.
  - intros H. destruct (Hok H) as [-> ->]. done.
Qed.

(** Examining one action: the visit, and for a draw or dispatch the replay
    and the calls of the analyzers. *)
Lemma node_spec a s :
  exists b s' S,
    (modify (emit (EvVisit a));;
     if is_draw_or_dispatch rd a
     then process_draw controller it a
     else mret true) s = (Ok b, s') /\
    traversed [a] S s s' /\
    (replay_ok controller -> b = true).
Proof.
  destruct replay_exc as [Hset Hget].
  run_monad. cbn [fst snd]. destruct (is_draw_or_dispatch rd a) eqn:Hdd.
  - unfold process_draw, replay. run_monad. cbn.
    destruct (SetFrameEvent controller (eventId a) false (world s)) as [[[]|e1] w1] eqn:E1;
      cbn.
    + destruct (GetPipelineState controller w1) as [[pipe|e2] w2] eqn:E2; cbn.
      * match goal with |- context [for_each it _ ?s0] => set (s_mid := s0) end.
        destruct (call_analyzers_spec a pipe it it_exc s_mid)
          as (s' & Tc & Hrun & Htr & Hctl & HTc & Hin & Hout).
        rewrite Hrun. exists true, s', [a]. split; [done |]. split; [| done].
        destruct (only_calls_quiet a Tc HTc) as (Q1 & Q2 & Q3 & Q4 & Q5 & Q6).
        destruct Hctl as (C1 & C2 & C3 & C4 & C5).
        exists ([EvVisit a; EvSetFrameEvent (eventId a) false; EvGetPipelineState] ++ Tc).
        split; [rewrite Htr; cbn; by rewrite <- !app_assoc |].
        split; [unfold visits in *; rewrite omap_app, Q1; done |].
        split; [unfold replays in *; rewrite omap_app, Q2, filter_dd_true; done |].
        split; [unfold timers in *; rewrite omap_app, Q3; done |].
        split; [unfold finalized in *; rewrite omap_app, Q4; done |].
        split; [unfold analyzed in *; rewrite omap_app, Q5; done |].
        split; [by rewrite filter_dd_true |].
        split; [by rewrite filter_dd_true |].
        split; [by rewrite C1 |]. split; [by rewrite C2 |]. split; [by rewrite C4 |].
        split; [by rewrite C3 |].
        split; [| split; [| split]].
        -- intros Hnd m Hm. apply module_along_site. exact (Hin Hnd m Hm).
        -- intros m Hm. exact (Hout m Hm).
        -- intros m a' r Hin'. change (calls m ([EvVisit a; EvSetFrameEvent (eventId a) false; EvGetPipelineState] ++ Tc)) with (calls m Tc) in Hin'.
           rewrite (calls_only a Tc HTc m a' r Hin'). apply list_elem_of_singleton. done.
        -- intros _. unfold replay_calls in *. rewrite omap_app, Q6, filter_dd_true; done.
      * assert (is_Exception e2 = true) as ->
          by (apply (Hget w1); by rewrite E2).
        exists false. eexists _, []. split; [done |]. split.
        -- eapply (traversed_idle a _ _
                    [EvVisit a; EvSetFrameEvent (eventId a) false; EvGetPipelineState]);
             try done.
           ++ cbn. by rewrite <- !app_assoc.
           ++ by rewrite filter_dd_true.
           ++ intros Hok. destruct (Hok w1) as [_ H]. by rewrite E2 in H.
        -- intros Hok. destruct (Hok w1) as [_ H]. by rewrite E2 in H.
    + assert (is_Exception e1 = true) as ->
        by (apply (Hset (eventId a) (world s)); by rewrite E1).
      exists false. eexists _, []. split; [done |]. split.
      * eapply (traversed_idle a _ _ [EvVisit a; EvSetFrameEvent (eventId a) false]);
          try done.
        -- cbn. by rewrite <- !app_assoc.
        -- by rewrite filter_dd_true.
        -- intros Hok. destruct (Hok (world s)) as [H _].
           specialize (H (eventId a)). by rewrite E1 in H.
      * intros Hok. destruct (Hok (world s)) as [H _].
        specialize (H (eventId a)). by rewrite E1 in H.
  - exists true. eexists _, []. split; [done |]. split; [| done].
    eapply (traversed_idle a _ _ [EvVisit a]); try done.
    + by rewrite filter_dd_false.
    + intros _. split; [by apply filter_dd_false | done].
Qed.

(** [process_action], one level unfolded; the loop over the children is
    the loop over the roots. *)
Lemma process_action_unfold a s :
  process_action fires rd controller it a s =
  match read_timed_out fires s with
  | (Ok true, s1) => (Ok (), s1)
  | (Ok false, s1) =>
      match (modify (emit (EvVisit a));;
             if is_draw_or_dispatch rd a
             then process_draw controller it a
             else mret true) s1 with
      | (Ok true, s2) => process_roots fires rd controller it (children a) s2
      | (Ok false, s2) => (Ok (), s2)
      | (Raise e, s2) => (Raise e, s2)
      end
  | (Raise e, s1) => (Raise e, s1)
  end.
Proof.
  destruct a as [e f ni nn cs]. cbn [process_action children].
  unfold mbind at 1. unfold M_bind at 1.
  destruct (read_timed_out fires s) as [[[]|] s1]; [done | | done].
  run_monad. cbn [fst snd].
  match goal with |- (let (r, s') := ?X in _) = _ =>
    destruct X as [[[]|e0] s2] end; [| done | done].
  revert s2. induction cs as [|c cs IH]; intros s2; [done |].
  cbn [process_roots]. run_monad.
  destruct (read_timed_out fires s2) as [[[]|] s3]; [done | | done].
  destruct (process_action fires rd controller it c s3) as [[[]|] s4]; [| done].
  apply IH.
Qed.

Lemma process_roots_cons a roots s :
  process_roots fires rd controller it (a :: roots) s =
  match read_timed_out fires s with
  | (Ok true, s1) => (Ok (), s1)
  | (Ok false, s1) =>
      match process_action fires rd controller it a s1 with
      | (Ok _, s2) => process_roots fires rd controller it roots s2
      | (Raise e, s2) => (Raise e, s2)
      end
  | (Raise e, s1) => (Raise e, s1)
  end.
Proof.
  cbn [process_roots]. run_monad.
  by destruct (read_timed_out fires s) as [[[]|] s1].
Qed.

Lemma traversed_timed_out ns S s s' :
  traversed ns S s s' -> no_timeout fires -> timed_out s' = timed_out s.
Proof. intros (T & H). apply H. Qed.

(** What the traversal of a list of trees does, given what that of each
    tree does. *)
Lemma process_roots_from roots :
  Forall (fun a => forall s, exists s' ns S,
    process_action fires rd controller it a s = (Ok (), s') /\
    traversed ns S s s' /\ ns `sublist_of` preorder a /\
    (no_timeout fires -> replay_ok controller -> timed_out s = false ->
     ns = preorder a)) roots ->
  forall s, exists s' ns S,
    process_roots fires rd controller it roots s = (Ok (), s') /\
    traversed ns S s s' /\ ns `sublist_of` forest roots /\
    (no_timeout fires -> replay_ok controller -> timed_out s = false ->
     ns = forest roots).
Proof.
  unfold forest. induction 1 as [|a roots Ha _ IH]; intros s.
  - exists s, [], []. split; [done |]. split; [apply traversed_refl |]. done.
  - rewrite process_roots_cons.
    destruct (read_timed_out_spec s) as (b & s1 & -> & Hread & Hb & Hcalm).
    destruct b.
    + exists s1, [], []. split; [done |]. split; [done |].
      split; [apply sublist_nil_l |].
      intros Hnt _ Hs. specialize (Hcalm Hnt). congruence.
    + destruct (Ha s1) as (s2 & ns1 & S1 & -> & Htr1 & Hsub1 & Hall1).
      destruct (IH s2) as (s3 & ns2 & S2 & -> & Htr2 & Hsub2 & Hall2).
      exists s3, (ns1 ++ ns2), (S1 ++ S2). split; [done |].
      split; [exact (traversed_trans _ _ _ _ _ _ _ Hread
                       (traversed_trans _ _ _ _ _ _ _ Htr1 Htr2)) |].
      split; [by apply sublist_app |].
      intros Hnt Hok Hs.
      assert (timed_out s1 = false) as Hs1
        by (rewrite (traversed_timed_out _ _ _ _ Hread Hnt); done).
      assert (timed_out s2 = false) as Hs2
        by (rewrite (traversed_timed_out _ _ _ _ Htr1 Hnt); done).
      cbn [flat_map]. by rewrite (Hall1 Hnt Hok Hs1), (Hall2 Hnt Hok Hs2).
Qed.

(** The traversal of one tree: it returns; it examines a subsequence of
    the nodes, parents first, and all of them when no timeout occurs and
    every replay succeeds. *)
Lemma process_action_spec a : forall s, exists s' ns S,
  process_action fires rd controller it a s = (Ok (), s') /\
  traversed ns S s s' /\ ns `sublist_of` preorder a /\
  (no_timeout fires -> replay_ok controller -> timed_out s = false ->
   ns = preorder a).
Proof.
  induction a as [e f ni nn cs IH] using ActionDescription_forall_ind. intros s.
  set (a := mkAction e f ni nn cs). rewrite process_action_unfold.
  destruct (read_timed_out_spec s) as (b & s1 & -> & Hread & Hb & Hcalm).
  destruct b.
  - exists s1, [], []. split; [done |]. split; [done |].
    split; [apply sublist_nil_l |].
    intros Hnt _ Hs. specialize (Hcalm Hnt). congruence.
  - destruct (node_spec a s1) as (go & s2 & S1 & -> & Hnode & Hgo).
    rewrite preorder_unfold. change (children a) with cs. destruct go.
    + destruct (process_roots_from cs IH s2) as (s3 & ns2 & S2 & -> & Htr2 & Hsub2 & Hall2).
      exists s3, ([a] ++ ns2), (S1 ++ S2). split; [done |].
      split; [exact (traversed_trans _ _ _ _ _ _ _ Hread
                       (traversed_trans _ _ _ _ _ _ _ Hnode Htr2)) |].
      split; [by apply sublist_skip |].
      intros Hnt Hok Hs.
      assert (timed_out s1 = false) as Hs1
        by (rewrite (traversed_timed_out _ _ _ _ Hread Hnt); done).
      assert (timed_out s2 = false) as Hs2
        by (rewrite (traversed_timed_out _ _ _ _ Hnode Hnt); done).
      cbn [app]. f_equal. exact (Hall2 Hnt Hok Hs2).
    + exists s2, [a], S1. split; [done |].
      split; [exact (traversed_trans _ _ _ _ _ _ _ Hread Hnode) |].
      split; [apply sublist_skip, sublist_nil_l |].
      intros _ Hok _. specialize (Hgo Hok). done.
Qed.

Lemma process_roots_spec roots s : exists s' ns S,
  process_roots fires rd controller it roots s = (Ok (), s') /\
  traversed ns S s s' /\ ns `sublist_of` forest roots /\
  (no_timeout fires -> replay_ok controller -> timed_out s = false ->
   ns = forest roots).
Proof.
  apply process_roots_from. apply Forall_forall. intros a _. apply process_action_spec.
Qed.

End Traversal.
(** [analyze] on its own, as the static phase runs it. *)
Lemma analyze_recorded_spec m (an : Analyzer World Data) s :
  raises_Exceptions (analyze an) ->
  exists s' o,
    try_except
      (result ← call_analyze m an;
       modify (fun s =>
         set_results (<[m := Success result an]> (results s)) s))
      (fun e =>
         modify (fun s => set_errors (<[m := exn_str e]> (errors s)) s);;
         modify (fun s =>
           set_results (<[m := Error (exn_str e)]> (results s)) s)) s = (Ok (), s') /\
    trace s' = trace s ++ [EvAnalyze m o] /\
    timeout s' = timeout s /\ timeout_timer s' = timeout_timer s /\
    timed_out s' = timed_out s /\ clock s' = clock s /\
    recorded m o s s' /\
    (forall m', m' <> m ->
       errors s' !! m' = errors s !! m' /\ results s' !! m' = results s !! m').
Proof.
  intros Hexc. specialize (Hexc (world s)).
  unfold call_analyze. run_monad.
  destruct (analyze an (world s)) as [[d|e] w]; cbn.
  - eexists _, None. split; [done |]. cbn. repeat split; try done.
    + exists d, an. by rewrite lookup_insert_eq.
    + by rewrite lookup_insert_ne.
  - rewrite (Hexc e eq_refl).
    eexists _, (Some e). split; [done |]. cbn. repeat split; try done.
    + by rewrite lookup_insert_eq.
    + by rewrite lookup_insert_eq.
    + by rewrite lookup_insert_ne.
    + by rewrite lookup_insert_ne.
Qed.

Lemma read_timed_out_frame s :
  exists b s',
    read_timed_out fires s = (Ok b, s') /\
    trace s' = trace s /\ errors s' = errors s /\ results s' = results s /\
    timeout s' = timeout s /\ timeout_timer s' = timeout_timer s /\
    b = timed_out s' /\ (no_timeout fires -> b = timed_out s).
Proof.
  unfold read_timed_out. eexists _, _. split; [reflexivity |].
  repeat split; try (by destruct (timer_running s && fires (clock s))).
  intros Hc. by rewrite (Hc (clock s)), andb_false_r.
Qed.

Lemma outside_traversal_nil : outside_traversal [].
Proof. by repeat split. Qed.

Lemma outside_traversal_app T1 T2 :
  outside_traversal T1 -> outside_traversal T2 -> outside_traversal (T1 ++ T2).
Proof.
  unfold outside_traversal, visits, replays, timers, replay_calls.
  intros (V1 & R1 & M1 & C1 & P1) (V2 & R2 & M2 & C2 & P2).
  rewrite !omap_app, V1, V2, R1, R2, M1, M2, P1, P2. repeat split; try done.
  intros m. by rewrite calls_app, C1, C2.
Qed.

Lemma static_ids_cons m n (an : Analyzer World Data) needs analyzers :
  static_ids ((m, n, an, needs) :: analyzers) =
  if needs then static_ids analyzers else m :: static_ids analyzers.
Proof. unfold static_ids. cbn. by destruct needs. Qed.

(** The static phase: it returns; when no timeout occurs it calls
    [analyze] on every static analyzer, in order, and records each outcome. *)
Lemma run_static_spec analyzers :
  analyzers_raise_Exceptions analyzers ->
  forall s, exists s' T,
  run_static_analyzers fires analyzers s = (Ok (), s') /\
  trace s' = trace s ++ T /\
  outside_traversal T /\ finalized T = [] /\
  timeout s' = timeout s /\ timeout_timer s' = timeout_timer s /\
  (forall m, m ∉ static_ids analyzers ->
     errors s' !! m = errors s !! m /\ results s' !! m = results s !! m) /\
  (no_timeout fires -> timed_out s = false ->
     timed_out s' = false /\
     (analyzed T).*1 = static_ids analyzers /\
     (NoDup (static_ids analyzers) ->
      forall m o, (m, o) ∈ analyzed T -> recorded m o s s')).
Proof.
  unfold run_static_analyzers.
  induction analyzers as [|[[[m n] an] needs] analyzers IH]; intros Hexc s.
  - exists s, []. rewrite app_nil_r. split; [done |]. split; [done |].
    split; [apply outside_traversal_nil |]. repeat split; try done.
    intros _ m o Hm. by apply elem_of_nil in Hm.
  - apply Forall_cons in Hexc as [[Hexc1 _] Hexc]. specialize (IH Hexc).
    rewrite for_each_cons, static_ids_cons. cbn [run_static_analyzer].
    destruct needs.
    + run_monad. apply IH.
    + unfold mbind at 1. unfold M_bind at 1.
      destruct (read_timed_out_frame s)
        as (b & sr & -> & Rtr & Rer & Rre & Rto & Rtm & Rb & Rcalm).
      destruct b.
      * unfold modify at 1.
        match goal with |- context [for_each analyzers _ ?s0] => set (s1 := s0) end.
        destruct (IH s1) as (s' & T & -> & Htr & Hout & Hfin & Hto & Htm & Hoth & Hcalm).
        exists s', T. split; [done |]. split; [by rewrite Htr; cbn; rewrite Rtr |].
        split; [done |]. split; [done |].
        split; [by rewrite Hto; cbn |]. split; [by rewrite Htm; cbn |].
        split.
        -- intros m' Hm'. apply not_elem_of_cons in Hm' as [Hne Hm'].
           destruct (Hoth m' Hm') as [-> ->]. cbn.
           by rewrite lookup_insert_ne, Rer, Rre.
        -- intros Hnt Hs. specialize (Rcalm Hnt). congruence.
      * destruct (analyze_recorded_spec m an sr Hexc1)
          as (s1 & o & -> & Atr & Ato & Atm & Ati & Acl & Arec & Aoth).
        destruct (IH s1) as (s' & T & -> & Htr & Hout & Hfin & Hto & Htm & Hoth & Hcalm).
        exists s', ([EvAnalyze m o] ++ T). split; [done |].
        split; [by rewrite Htr, Atr, Rtr, app_assoc |].
        split; [apply outside_traversal_app; [by repeat split | done] |].
        split; [unfold finalized in *; by rewrite omap_app, Hfin |].
        split; [congruence |]. split; [congruence |].
        split.
        -- intros m' Hm'. apply not_elem_of_cons in Hm' as [Hne Hm'].
           destruct (Hoth m' Hm') as [-> ->]. destruct (Aoth m' Hne) as [-> ->].
           by rewrite Rer, Rre.
        -- intros Hnt Hs. specialize (Rcalm Hnt).
           assert (timed_out s1 = false) as Hs1 by congruence.
           destruct (Hcalm Hnt Hs1) as (Hs' & Han & Hrec).
           split; [done |]. split.
           ++ unfold analyzed in *. rewrite omap_app, fmap_app, Han. done.
           ++ intros Hnd. apply NoDup_cons in Hnd as [Hm Hnd].
              intros m' o' Hin. unfold analyzed in Hin. rewrite omap_app in Hin.
              apply elem_of_app in Hin as [Hin|Hin].
              ** apply list_elem_of_singleton in Hin. simplify_eq.
                 destruct (Hoth m Hm) as [He Hr].
                 unfold recorded in *. rewrite He, Hr, <- Rer. exact Arec.
              ** assert (m' ∈ static_ids analyzers) as Hm'.
                 { rewrite <- Han. apply list_elem_of_fmap. by exists (m', o'). }
                 assert (m' <> m) as Hne by (intros ->; done).
                 specialize (Hrec Hnd m' o' Hin). unfold recorded in *.
                 destruct (Aoth m' Hne) as [He Hr].
                 destruct o'; [done |]. by rewrite <- Rer, <- He.
Qed.

(** The [try] block that ends the iteration phase for one module. *)
Lemma finalize_and_analyze_spec m (an : Analyzer World Data) s :
  analyzer_raises_Exceptions an ->
  exists s' T o,
    finalize_and_analyze m an s = (Ok (), s') /\
    trace s' = trace s ++ T /\ outside_traversal T /\
    (finalized T).*1 = [m] /\
    timeout s' = timeout s /\ timeout_timer s' = timeout_timer s /\
    timed_out s' = timed_out s /\
    recorded m o s s' /\
    (forall m', m' <> m ->
       errors s' !! m' = errors s !! m' /\ results s' !! m' = results s !! m') /\
    analyzed_after_finalize T.
Proof.
  intros (Hana & _ & Hfin).
  unfold finalize_and_analyze, call_finalize, call_analyze. run_monad.
  destruct (finalize an (world s)) as [[[]|e] w] eqn:Ef; cbn.
  - destruct (analyze an w) as [[d|e] w'] eqn:Ea; cbn.
    + eexists _, [_; _], None. split; [done |]. cbn.
      split; [by rewrite <- app_assoc |]. repeat split; try done.
      * exists d, an. by rewrite lookup_insert_eq.
      * by rewrite lookup_insert_ne.
    + assert (is_Exception e = true) as -> by (apply (Hana w); by rewrite Ea).
      eexists _, [_; _], (Some e). split; [done |]. cbn.
      split; [by rewrite <- app_assoc |]. repeat split; try done.
      * by rewrite lookup_insert_eq.
      * by rewrite lookup_insert_eq.
      * by rewrite lookup_insert_ne.
      * by rewrite lookup_insert_ne.
  - assert (is_Exception e = true) as -> by (apply (Hfin (world s)); by rewrite Ef).
    eexists _, [_], (Some e). split; [done |]. cbn. repeat split; try done.
    + by rewrite lookup_insert_eq.
    + by rewrite lookup_insert_eq.
    + by rewrite lookup_insert_ne.
    + by rewrite lookup_insert_ne.
Qed.

Lemma filter_ext_in {A} (P Q : A -> Prop) `{!forall x, Decision (P x)}
    `{!forall x, Decision (Q x)} (l : list A) :
  (forall x, x ∈ l -> P x <-> Q x) -> filter P l = filter Q l.
Proof.
  induction l as [|x l IH]; intros Hext; [done |].
  rewrite !filter_cons, IH by (intros y Hy; apply Hext; by right).
  pose proof (Hext x ltac:(by left)). repeat case_decide; tauto.
Qed.

Lemma action_failed_ext (e1 e2 : gmap string string) m :
  e1 !! m = e2 !! m -> action_failed e1 m = action_failed e2 m.
Proof. unfold action_failed. by intros ->. Qed.

(** One round of the last loop of the iteration phase. *)
Lemma finish_analyzer_spec m n (an : Analyzer World Data) s :
  analyzer_raises_Exceptions an ->
  exists s1 T1,
    finish_analyzer (m, n, an) s = (Ok (), s1) /\
    trace s1 = trace s ++ T1 /\ outside_traversal T1 /\
    (finalized T1).*1 = (if action_failed (errors s) m then [] else [m]) /\
    timeout s1 = timeout s /\ timeout_timer s1 = timeout_timer s /\
    timed_out s1 = timed_out s /\
    (forall m', m' <> m ->
       errors s1 !! m' = errors s !! m' /\ results s1 !! m' = results s !! m') /\
    (if action_failed (errors s) m
     then exists msg, errors s !! m = Some msg /\ errors s1 !! m = Some msg /\
                      results s1 !! m = Some (Partial msg)
     else exists o, recorded m o s s1) /\
    analyzed_after_finalize T1.
Proof.
  intros Hexc.
  unfold finish_analyzer. run_monad. unfold action_failed.
  destruct (errors s !! m) as [msg|] eqn:E;
    [destruct (contains "analyze_action" msg) eqn:Ec |].
  - eexists _, []. split; [done |]. cbn. rewrite app_nil_r.
    split; [done |]. split; [apply outside_traversal_nil |].
    repeat split; try done.
    + by rewrite lookup_insert_ne.
    + exists msg. by rewrite lookup_insert_eq.
  - destruct (finalize_and_analyze_spec m an s Hexc)
      as (s1 & T1 & o & -> & Ftr & Fout & Ffin & Fto & Ftm & Fti & Frec & Foth & Faf).
    exists s1, T1. split; [done |]. split; [done |]. split; [done |].
    split; [done |]. split; [done |]. split; [done |]. split; [done |].
    split; [exact Foth |]. split; [by exists o | done].
  - destruct (finalize_and_analyze_spec m an s Hexc)
      as (s1 & T1 & o & -> & Ftr & Fout & Ffin & Fto & Ftm & Fti & Frec & Foth & Faf).
    exists s1, T1. split; [done |]. split; [done |]. split; [done |].
    split; [done |]. split; [done |]. split; [done |]. split; [done |].
    split; [exact Foth |]. split; [by exists o | done].
Qed.

(** The last loop of the iteration phase: it returns; with distinct
    module ids it calls [finalize] and [analyze] for exactly the modules
    without a recorded [analyze_action] failure. *)
Lemma finish_spec (it : list (string * string * Analyzer World Data)) :
  entries_raise_Exceptions it ->
  forall s, exists s' T,
    for_each it finish_analyzer s = (Ok (), s') /\
    trace s' = trace s ++ T /\ outside_traversal T /\
    timeout s' = timeout s /\ timeout_timer s' = timeout_timer s /\
    timed_out s' = timed_out s /\
    (forall m, m ∉ entry_ids it ->
       errors s' !! m = errors s !! m /\ results s' !! m = results s !! m) /\
    analyzed_after_finalize T /\
    (NoDup (entry_ids it) ->
     (finalized T).*1 =
       filter (fun m => action_failed (errors s) m = false) (entry_ids it) /\
     forall m, m ∈ entry_ids it ->
       if action_failed (errors s) m
       then exists msg, errors s !! m = Some msg /\ errors s' !! m = Some msg /\
                        results s' !! m = Some (Partial msg)
       else exists o, recorded m o s s').
Proof.
  induction it as [|[[m n] an] it IH]; intros Hexc s.
  - exists s, []. rewrite app_nil_r. split; [done |]. split; [done |].
    split; [apply outside_traversal_nil |]. repeat split; try done.
    intros m Hm. by apply elem_of_nil in Hm.
  - apply Forall_cons in Hexc as [Hexc1 Hexc].
    rewrite for_each_cons.
    destruct (finish_analyzer_spec m n an s Hexc1)
      as (s1 & T1 & Hrun1 & Htr1 & Hout1 & Hfin1 & Hto1 & Htm1 & Hti1 & Hoth1 & Hrec1
          & Haf1).
    rewrite Hrun1.
    destruct (IH Hexc s1) as (s' & T2 & -> & Htr2 & Hout2 & Hto2 & Htm2 & Hti2
                              & Hoth2 & Haf2 & Hnd2).
    exists s', (T1 ++ T2). split; [done |].
    split; [by rewrite Htr2, Htr1, app_assoc |].
    split; [by apply outside_traversal_app |].
    split; [congruence |]. split; [congruence |]. split; [congruence |].
    split.
    { intros m' Hm'. unfold entry_ids in Hm'. cbn in Hm'.
      apply not_elem_of_cons in Hm' as [Hne Hm'].
      destruct (Hoth2 m' Hm') as [-> ->]. by apply Hoth1. }
    split.
    { unfold analyzed_after_finalize, analyzed, finalized in *.
      by rewrite !omap_app, filter_app, !fmap_app, Haf1, Haf2. }
    intros Hnd. unfold entry_ids in Hnd. cbn in Hnd.
    apply NoDup_cons in Hnd as [Hm Hnd]. fold (entry_ids it) in Hm, Hnd.
    destruct (Hnd2 Hnd) as [Hfin2 Hrec2]. split.
    { unfold finalized in *. rewrite omap_app, fmap_app, Hfin1, Hfin2.
      unfold entry_ids at 2. cbn [fmap list_fmap fst]. fold (entry_ids it).
      rewrite filter_cons.
      assert (filter (fun m0 => action_failed (errors s1) m0 = false) (entry_ids it) =
              filter (fun m0 => action_failed (errors s) m0 = false) (entry_ids it)) as ->.
      { apply filter_ext_in. intros m' Hm'.
        assert (m' <> m) as Hne by (intros ->; done).
        by rewrite (action_failed_ext (errors s1) (errors s) m' (proj1 (Hoth1 m' Hne))). }
      destruct (action_failed (errors s) m); by case_decide. }
    intros m' Hm'. unfold entry_ids in Hm'. cbn in Hm'.
    apply elem_of_cons in Hm' as [->|Hm'].
    + destruct (Hoth2 m Hm) as [He Hr].
      destruct (action_failed (errors s) m).
      * destruct Hrec1 as (msg & ? & ? & ?). exists msg. by rewrite He, Hr.
      * destruct Hrec1 as [o Ho]. exists o. unfold recorded in *.
        by rewrite He, Hr.
    + assert (m' <> m) as Hne by (intros ->; done).
      destruct (Hoth1 m' Hne) as [He Hr].
      specialize (Hrec2 m' Hm').
      rewrite (action_failed_ext (errors s1) (errors s) m' He) in Hrec2.
      destruct (action_failed (errors s) m').
      * by rewrite <- He.
      * destruct Hrec2 as [o Ho]. exists o. unfold recorded in *.
        destruct o; [done |]. by rewrite <- He.
Qed.

Lemma contains_analyze_action msg :
  contains "analyze_action" ("analyze_action 失败: " +:+ msg) = true.
Proof. reflexivity. Qed.

(** The iteration phase: the traversal from [s] to [sm], then the last
    loop from [sm] to [s']. *)
Lemma iteration_entries_raise_Exceptions
    (analyzers : list (string * string * Analyzer World Data * bool)) :
  analyzers_raise_Exceptions analyzers ->
  entries_raise_Exceptions (iteration_entries analyzers).
Proof.
  unfold analyzers_raise_Exceptions, entries_raise_Exceptions, iteration_entries.
  induction 1 as [|[[[m n] an] needs] analyzers Han _ IH]; [constructor |].
  cbn. destruct needs; [by constructor | exact IH].
Qed.

Lemma replay_ok_raises_Exceptions : replay_ok controller -> replay_raises_Exceptions controller.
Proof.
  intros Hok. split.
  - intros eid w e H. destruct (Hok w) as [Hs _]. by rewrite Hs in H.
  - intros w e H. destruct (Hok w) as [_ Hg]. by rewrite H in Hg.
Qed.

Lemma run_iteration_spec analyzers roots w s :
  let it := iteration_entries analyzers in
  entries_raise_Exceptions it ->
  replay_raises_Exceptions controller ->
  GetRootActions controller (world s) = (Ok roots, w) ->
  exists s' sm T2 ns S,
    run_iteration_analyzers fires rd controller analyzers s = (Ok (), s') /\
    traversed fires rd controller it ns S s sm /\
    ns `sublist_of` forest roots /\
    (it <> [] -> no_timeout fires -> replay_ok controller -> timed_out s = false ->
     ns = forest roots) /\
    trace s' = trace sm ++ T2 /\ outside_traversal T2 /\
    timeout s' = timeout sm /\ timeout_timer s' = timeout_timer sm /\
    timed_out s' = timed_out sm /\
    (forall m, m ∉ entry_ids it ->
       errors s' !! m = errors sm !! m /\ results s' !! m = results sm !! m) /\
    analyzed_after_finalize T2 /\
    (NoDup (entry_ids it) ->
     (finalized T2).*1 =
       filter (fun m => action_failed (errors sm) m = false) (entry_ids it) /\
     forall m, m ∈ entry_ids it ->
       if action_failed (errors sm) m
       then exists msg, errors sm !! m = Some msg /\ errors s' !! m = Some msg /\
                        results s' !! m = Some (Partial msg)
       else exists o, recorded m o sm s').
Proof.
  intros it Hit Hrep Hroots.
  unfold run_iteration_analyzers. fold it.
  destruct it as [|entry it'] eqn:Eit.
  - exists s, s, [], [], []. split; [reflexivity |].
    split; [apply traversed_refl |]. split; [apply sublist_nil_l |].
    split; [intros Hne; by destruct Hne |].
    split; [by rewrite app_nil_r |]. split; [apply outside_traversal_nil |].
    repeat split; try done. intros m Hm. by apply elem_of_nil in Hm.
  - rewrite <- Eit in *. run_monad. cbn [fst snd].
    change (world (set_processed 0 s)) with (world s). rewrite Hroots.
    destruct (process_roots_spec it Hit Hrep roots (set_world w (set_processed 0 s)))
      as (sm & ns & S & -> & Htr & Hsub & Hall).
    destruct (finish_spec it Hit sm) as (s' & T2 & -> & Htr2 & Hout2 & Hto2 & Htm2 & Hti2
                                         & Hoth2 & Haf2 & Hnd2).
    exists s', sm, T2, ns, S. split; [done |]. split; [exact Htr |].
    split; [done |]. split; [intros _; exact Hall |]. done.
Qed.

Lemma returned_fst (l : list ActionDescription) : (returned <$> l).*1 = l.
Proof. induction l as [|a l IH]; [done |]. cbn. by rewrite IH. Qed.

Lemma all_returned_returned (l : list ActionDescription) :
  all_returned (returned <$> l) = true.
Proof. induction l as [|a l IH]; [done |]. exact IH. Qed.

Lemma all_returned_raise cs a e : all_returned (cs ++ [(a, Raise e)]) = false.
Proof.
  unfold all_returned. rewrite forallb_app. cbn. apply andb_false_r.
Qed.

(** What the calls of a module along the traversal say about its record of
    an [analyze_action] failure. *)
Lemma module_along_outcome m S s s' T :
  errors s !! m = None -> module_along m S s s' T ->
  action_failed (errors s') m = negb (all_returned (calls m T)) /\
  (calls m T).*1 `sublist_of` S.
Proof.
  unfold module_along, action_failed. intros ->.
  intros [[-> ->]|(k & a & e & Hk & -> & ->)].
  - by rewrite all_returned_returned, returned_fst.
  - rewrite all_returned_raise, contains_analyze_action. split; [done |].
    rewrite fmap_app, returned_fst. cbn [fmap list_fmap fst].
    rewrite <- (take_S_r _ _ _ Hk). apply sublist_take.
Qed.

(** C1, amended. With at least one analyzer that needs the traversal, no
    timeout, every replay succeeding, [GetRootActions()] returning, analyzers
    that raise nothing but instances of [Exception], distinct module ids and
    no error on record for them, [run_iteration_analyzers] returns after one
    traversal [T1] followed by the last loop [T2]: the traversal examines
    every node of the tree under [GetRootActions()] exactly once, parents
    first; the actions on which it calls [analyze_action] of a module are a
    subsequence of the draws and dispatches it examines; [finalize] is
    called only after the traversal, exactly once for each module all of
    whose [analyze_action] calls returned, and not at all for a module one
    of whose calls raised. *)
Theorem one_traversal_for_all_analyzers analyzers roots w s :
  let it := iteration_entries analyzers in
  it <> [] -> NoDup (entry_ids it) ->
  (forall m, m ∈ entry_ids it -> errors s !! m = None) ->
  no_timeout fires -> timed_out s = false -> replay_ok controller ->
  entries_raise_Exceptions it ->
  GetRootActions controller (world s) = (Ok roots, w) ->
  exists s' T1 T2,
    run_iteration_analyzers fires rd controller analyzers s = (Ok (), s') /\
    trace s' = trace s ++ T1 ++ T2 /\
    visits T1 = forest roots /\
    (forall m, m ∈ entry_ids it ->
       (calls m T1).*1 `sublist_of`
         filter (fun a => is_draw_or_dispatch rd a = true) (visits T1)) /\
    finalized T1 = [] /\
    visits T2 = [] /\ (forall m, calls m T2 = []) /\
    (finalized T2).*1 =
      filter (fun m => all_returned (calls m T1) = true) (entry_ids it).
Proof.
  intros it Hne Hnd Hclean Hnt Hs Hok Hexc Hroots.
  destruct (run_iteration_spec analyzers roots w s Hexc
              (replay_ok_raises_Exceptions Hok) Hroots)
    as (s' & sm & T2 & ns & S & Hrun & Htrav & _ & Hall & Htr2 & Hout & _ & _ & _ & _ & _
        & Hfin).
  fold it in Htrav, Hall, Hfin.
  destruct Htrav as (T1 & Htr1 & Hv & _ & _ & Hf1 & _ & _ & HS & _ & _ & _ & _ & Hin & _).
  destruct Hout as (Hv2 & _ & _ & Hc2 & _).
  destruct (Hfin Hnd) as [Hfin2 _].
  exists s', T1, T2. split; [exact Hrun |].
  split; [by rewrite Htr2, Htr1, app_assoc |].
  split; [rewrite Hv; by apply Hall |].
  split.
  { intros m Hm. rewrite Hv, <- (HS Hok).
    exact (proj2 (module_along_outcome m S s sm T1 (Hclean m Hm) (Hin Hnd m Hm))). }
  split; [exact Hf1 |]. split; [exact Hv2 |]. split; [exact Hc2 |].
  rewrite Hfin2. apply filter_ext_in. intros m Hm.
  rewrite (proj1 (module_along_outcome m S s sm T1 (Hclean m Hm) (Hin Hnd m Hm))).
  by destruct (all_returned (calls m T1)).
Qed.

(** The events of one pass through [process_action] on a draw or
    dispatch, when the replay succeeds. *)
Lemma process_draw_events it a s0 s1 :
  entries_raise_Exceptions it -> replay_ok controller ->
  is_draw_or_dispatch rd a = true ->
  read_timed_out fires s0 = (Ok false, s1) ->
  exists s' rest,
    process_action fires rd controller it a s0 = (Ok (), s') /\
    trace s' =
      trace s0 ++
      EvVisit a :: EvSetFrameEvent (eventId a) false :: EvGetPipelineState :: rest.
Proof.
  intros Hit Hok Hdd Hread. rewrite process_action_unfold, Hread.
  assert (trace s1 = trace s0) as Htr01.
  { unfold read_timed_out in Hread. injection Hread as _ <-.
    by destruct (timer_running s0 && fires (clock s0)). }
  rewrite <- Htr01. clear Hread Htr01.
  run_monad. cbn [fst snd]. rewrite Hdd.
  unfold process_draw, replay. run_monad. cbn.
  destruct (Hok (world s1)) as [Hset _]. specialize (Hset (eventId a)).
  destruct (SetFrameEvent controller (eventId a) false (world s1)) as [r1 w1].
  cbn in Hset. subst r1. cbn.
  destruct (Hok w1) as [_ Hget].
  destruct (GetPipelineState controller w1) as [[pipe|e2] w2]; [| done]. cbn.
  match goal with |- context [for_each it _ ?s0] => set (s_mid := s0) end.
  destruct (call_analyzers_spec a pipe it Hit s_mid) as (s2 & Tc & -> & Htr & _).
  destruct (process_roots_spec it Hit (replay_ok_raises_Exceptions Hok) (children a) s2)
    as (s3 & ns & S & -> & (T & HT & _) & _).
  exists s3, (Tc ++ T). split; [done |].
  rewrite HT, Htr. cbn. by rewrite <- !app_assoc.
Qed.

(** C2, amended. With at least one analyzer that needs the traversal, no
    timeout, every replay succeeding, [GetRootActions()] returning and
    analyzers that raise nothing but instances of [Exception],
    [run_iteration_analyzers] examines every node of the tree, and its calls
    into the replay engine are, in order, [SetFrameEvent(action.eventId,
    False)] followed by [GetPipelineState()] for each draw and dispatch of
    the tree, and nothing else; [analyze_action] is only called on draws and
    dispatches of the tree. At an action without the [Drawcall] or
    [Dispatch] flag, [process_action] records the visit and loops over the
    children, and does nothing else. At a draw or dispatch reached before a
    timeout, it calls [SetFrameEvent(action.eventId, False)] and
    [GetPipelineState()] next. *)
Theorem replay_exactly_at_draws_and_dispatches analyzers roots w s :
  let it := iteration_entries analyzers in
  it <> [] -> no_timeout fires -> timed_out s = false -> replay_ok controller ->
  entries_raise_Exceptions it ->
  GetRootActions controller (world s) = (Ok roots, w) ->
  (exists s' T,
     run_iteration_analyzers fires rd controller analyzers s = (Ok (), s') /\
     trace s' = trace s ++ T /\
     visits T = forest roots /\
     replay_calls T =
       flat_map replay_to
         (filter (fun a => is_draw_or_dispatch rd a = true) (forest roots)) /\
     (forall m a r, (a, r) ∈ calls m T ->
        a ∈ forest roots /\ is_draw_or_dispatch rd a = true)) /\
  (forall a s0,
     is_draw_or_dispatch rd a = false ->
     process_action fires rd controller it a s0 =
     (timed ← read_timed_out fires;
      if timed : bool then mret ()
      else modify (emit (EvVisit a));;
           process_roots fires rd controller it (children a)) s0) /\
  (forall a s0 s1,
     is_draw_or_dispatch rd a = true ->
     read_timed_out fires s0 = (Ok false, s1) ->
     exists s' rest,
       process_action fires rd controller it a s0 = (Ok (), s') /\
       trace s' =
         trace s0 ++
         EvVisit a :: EvSetFrameEvent (eventId a) false :: EvGetPipelineState :: rest).
Proof.
  intros it Hne Hnt Hs Hok Hexc Hroots. split; [| split].
  - destruct (run_iteration_spec analyzers roots w s Hexc
                (replay_ok_raises_Exceptions Hok) Hroots)
      as (s' & sm & T2 & ns & S & Hrun & Htrav & _ & Hall & Htr2 & Hout & _).
    fold it in Htrav, Hall. specialize (Hall Hne Hnt Hok Hs). subst ns.
    destruct Htrav as (T1 & Htr1 & Hv & _ & _ & _ & _ & HS & _ & _ & _ & _ & _ & _ & _
                       & Hat & Hrc).
    destruct Hout as (Hv2 & _ & _ & Hc2 & Hrc2).
    exists s', (T1 ++ T2). split; [exact Hrun |].
    split; [by rewrite Htr2, Htr1, app_assoc |].
    split; [unfold visits in *; by rewrite omap_app, Hv, Hv2, app_nil_r |].
    split.
    { specialize (Hrc Hok). unfold replay_calls in *.
      by rewrite omap_app, Hrc, Hrc2, app_nil_r. }
    intros m a r. rewrite calls_app, Hc2, app_nil_r. intros Hin.
    assert (a ∈ filter (fun a => is_draw_or_dispatch rd a = true) (forest roots)) as Ha
      by (eapply elem_of_sublist; [by eapply Hat | exact HS]).
    apply list_elem_of_filter in Ha as [? ?]. done.
  - intros a s0 Hdd. rewrite process_action_unfold. run_monad.
    destruct (read_timed_out fires s0) as [[[]|e] s1]; [done | | done].
    cbn [fst snd]. by rewrite Hdd.
  - intros a s0 s1. by apply process_draw_events.
Qed.


End SchedulerFacts.

(** The counterexample to C1 as stated: on the sample tree and without a
    timeout, the analyzer [raiser] needs the traversal and its [finalize]
    is never called. *)
Lemma finalize_skipped_after_failure :
  let s' := (Scheduler.run_iteration_analyzers SampleRun.never Sample.rd
               SampleRun.controller SampleRun.analyzers SampleRun.start).2 in
  entry_ids (Scheduler.iteration_entries SampleRun.analyzers) =
    ["counter"; "raiser"; "counter2"] /\
  visits (Scheduler.trace s') = [Sample.marker; Sample.draw; Sample.clear] /\
  (finalized (Scheduler.trace s')).*1 = ["counter"; "counter2"].
Proof. vm_compute. done. Qed.

(** The counterexample to C2 as stated: the tree is a draw with a draw
    below it, the timer never fires, and the replay to the first draw
    raises. [process_action] returns at once, so that the second draw is
    neither examined nor replayed to, although no timeout has occurred. *)
Lemma replay_failure_skips_the_children :
  let run := Scheduler.run_iteration_analyzers SampleRun.never Sample.rd
               SampleRun.failing_controller SampleRun.analyzers SampleRun.start in
  run.1 = Ok () /\ Scheduler.timed_out run.2 = false /\
  forest [SampleRun.nested] = [SampleRun.nested; Sample.draw] /\
  Scheduler.is_draw_or_dispatch Sample.rd Sample.draw = true /\
  visits (Scheduler.trace run.2) = [SampleRun.nested] /\
  replay_calls (Scheduler.trace run.2) = [CallSetFrameEvent 20 false].
Proof. vm_compute. done. Qed.


(** [start_timeout] starts a thread: a daemon [threading.Timer]. *)
Lemma start_timeout_starts_a_thread :
  timers (Scheduler.trace (Scheduler.start_timeout SampleRun.start)) =
  [ {| Scheduler.interval := 600; Scheduler.daemon := true;
       Scheduler.started := true; Scheduler.cancelled := false |} ].
Proof. reflexivity. Qed.

(** ** The sample run *)

Lemma sample_iteration_ids_NoDup :
  NoDup (entry_ids (Scheduler.iteration_entries SampleRun.analyzers)).
Proof. apply (bool_decide_unpack _). vm_compute. exact I. Qed.

Lemma sample_static_ids_NoDup : NoDup (static_ids SampleRun.analyzers).
Proof. apply (bool_decide_unpack _). vm_compute. exact I. Qed.

Lemma sample_never : no_timeout SampleRun.never.
Proof. intros n. reflexivity. Qed.

Lemma sample_replay_ok : replay_ok SampleRun.controller.
Proof. intros w. split; [intros eid |]; reflexivity. Qed.

Lemma sample_replay_raises_Exceptions : replay_raises_Exceptions SampleRun.controller.
Proof. split; [intros eid |]; intros w e H; discriminate H. Qed.

Lemma sample_no_errors m :
  m ∈ entry_ids (Scheduler.iteration_entries SampleRun.analyzers) ->
  Scheduler.errors SampleRun.start !! m = None.
Proof. intros _. apply lookup_empty. Qed.

(** The sample analyzers raise a [KeyError] and a [RuntimeError]. *)
Lemma sample_raises_Exceptions : analyzers_raise_Exceptions SampleRun.analyzers.
Proof.
  unfold analyzers_raise_Exceptions, SampleRun.analyzers.
  repeat apply Forall_cons_2; [.. | apply Forall_nil_2];
    (split; [| split]); repeat intro;
    match goal with H : _ = Raise _ |- _ => cbn in H; by simplify_eq end.
Qed.

Lemma sample_entries_raise_Exceptions :
  entries_raise_Exceptions (Scheduler.iteration_entries SampleRun.analyzers).
Proof. apply iteration_entries_raise_Exceptions, sample_raises_Exceptions. Qed.

Lemma sample_roots w :
  Scheduler.GetRootActions SampleRun.controller w = (Ok [Sample.marker], w).
Proof. reflexivity. Qed.

(** The amended C1 on the sample run: three analyzers need the traversal,
    with distinct ids, one of them raises a [KeyError], the timer never
    fires and every replay succeeds. *)
Lemma one_traversal_for_all_analyzers_witness :
  let it := Scheduler.iteration_entries SampleRun.analyzers in
  let roots := [Sample.marker] in
  (length it = 3%nat /\ NoDup (entry_ids it) /\ no_timeout SampleRun.never /\
   replay_ok SampleRun.controller /\ entries_raise_Exceptions it) /\
  exists s' T1 T2,
    Scheduler.run_iteration_analyzers SampleRun.never Sample.rd SampleRun.controller
      SampleRun.analyzers SampleRun.start = (Ok (), s') /\
    Scheduler.trace s' = Scheduler.trace SampleRun.start ++ T1 ++ T2 /\
    visits T1 = forest roots /\
    (forall m, m ∈ entry_ids it ->
       (calls m T1).*1 `sublist_of`
         filter (fun a => Scheduler.is_draw_or_dispatch Sample.rd a = true) (visits T1)) /\
    finalized T1 = [] /\
    visits T2 = [] /\ (forall m, calls m T2 = []) /\
    (finalized T2).*1 =
      filter (fun m => all_returned (calls m T1) = true) (entry_ids it).
Proof.
  split.
  - split; [reflexivity |]. split; [exact sample_iteration_ids_NoDup |].
    split; [exact sample_never |]. split; [exact sample_replay_ok |].
    exact sample_entries_raise_Exceptions.
  - apply (one_traversal_for_all_analyzers SampleRun.never Sample.rd
             SampleRun.controller SampleRun.analyzers [Sample.marker] 0%nat
             SampleRun.start).
    + discriminate.
    + exact sample_iteration_ids_NoDup.
    + exact sample_no_errors.
    + exact sample_never.
    + reflexivity.
    + exact sample_replay_ok.
    + exact sample_entries_raise_Exceptions.
    + reflexivity.
Defined.

(** The amended C2 on the sample run: the replays are those of the one draw
    of the tree. *)
Lemma replay_exactly_at_draws_and_dispatches_witness :
  (Scheduler.iteration_entries SampleRun.analyzers <> [] /\
   no_timeout SampleRun.never /\ replay_ok SampleRun.controller /\
   entries_raise_Exceptions (Scheduler.iteration_entries SampleRun.analyzers)) /\
  exists s' T,
    Scheduler.run_iteration_analyzers SampleRun.never Sample.rd SampleRun.controller
      SampleRun.analyzers SampleRun.start = (Ok (), s') /\
    Scheduler.trace s' = Scheduler.trace SampleRun.start ++ T /\
    visits T = [Sample.marker; Sample.draw; Sample.clear] /\
    replay_calls T = [CallSetFrameEvent 11 false; CallGetPipelineState].
Proof.
  split.
  - split; [discriminate |]. split; [exact sample_never |].
    split; [exact sample_replay_ok | exact sample_entries_raise_Exceptions].
  - destruct (replay_exactly_at_draws_and_dispatches SampleRun.never Sample.rd
                SampleRun.controller SampleRun.analyzers [Sample.marker] 0%nat
                SampleRun.start ltac:(discriminate) sample_never eq_refl
                sample_replay_ok sample_entries_raise_Exceptions eq_refl)
      as [(s' & T & Hrun & Htr & Hv & Hrc & _) _].
    exists s', T. split; [exact Hrun |]. split; [exact Htr |].
    split; [exact Hv | exact Hrc].
Defined.


(** * Further properties of the code *)

Section CreateFacts.

Import Scheduler.

Context {World Data : Type}.

#[local] Existing Instance M_ret.
#[local] Existing Instance M_bind.

Implicit Types s : Sched World Data.
Implicit Types reg : list (string * string * AnalyzerClass (World:=World) (Data:=Data) * bool).
Implicit Types outs :
  list (string * string * AnalyzerClass (World:=World) (Data:=Data) * bool *
        Res (Analyzer World Data)).

Ltac run_monad :=
  unfold mbind, M_bind, mret, M_ret, modify, gets, call, try_except.

Lemma selected_entries_sublist {X : Type} enabled (reg : list (string * string * X * bool)) :
  module_ids (selected_entries enabled reg) `sublist_of` module_ids reg.
Proof. apply fmap_sublist, sublist_filter. Qed.

Lemma selected_entries_all {X : Type} enabled (reg : list (string * string * X * bool)) :
  enabled = None \/ enabled = Some [] -> selected_entries enabled reg = reg.
Proof.
  intros H. unfold selected_entries.
  induction reg as [|x reg IH]; [done |].
  rewrite filter_cons, decide_True by (by destruct H as [-> | ->]).
  by rewrite IH.
Qed.

Lemma selected_entries_cons {X : Type} enabled (e : string * string * X * bool)
    (reg : list (string * string * X * bool)) :
  selected_entries enabled (e :: reg) =
  if selected enabled e.1.1.1 then e :: selected_entries enabled reg
  else selected_entries enabled reg.
Proof.
  unfold selected_entries. rewrite filter_cons.
  destruct (selected enabled e.1.1.1); case_decide; congruence.
Qed.

(** The test [enabled_modules and mod_id not in enabled_modules]. *)
Lemma skip_selected enabled (m : string) :
  match enabled with
  | Some ((_ :: _) as ms) => bool_decide (m ∉ ms)
  | _ => false
  end = negb (selected enabled m).
Proof.
  unfold selected. destruct enabled as [[|m1 ms]|]; [done | | done].
  destruct (bool_decide_reflect (m ∈ m1 :: ms)) as [Hi|Hi],
           (bool_decide_reflect (m ∉ m1 :: ms)) as [Ho|Ho]; cbn.
  all: first [done | by destruct Ho].
Qed.

Lemma constructor_outcomes_entries reg : forall w,
  (constructor_outcomes reg w).1.*1 = reg.
Proof.
  induction reg as [|e reg IH]; intros w; [done |]. cbn [constructor_outcomes].
  destruct (e.1.2 w) as [r w1]. specialize (IH w1).
  destruct (constructor_outcomes reg w1) as [rs w2]. cbn in *. by rewrite IH.
Qed.

(** The loop of [create_analyzers], from any place in it. *)
Lemma create_from (enabled : option (list string)) reg :
  forall (acc : M World Data (list (string * string * Analyzer World Data * bool))) s l0 s0,
    acc s = (Ok l0, s0) ->
    Forall (fun e => raises_Exceptions e.1.2) (selected_entries enabled reg) ->
    let outs := constructor_outcomes (selected_entries enabled reg) (world s0) in
    exists s',
      foldl
        (fun (acc : M World Data (list (string * string * Analyzer World Data * bool)))
             '(mod_id, mod_name, cls, needs_iteration) =>
           analyzers ← acc;
           let skip :=
             match enabled with
             | Some ((_ :: _) as ms) => bool_decide (mod_id ∉ ms)
             | _ => false
             end in
           if skip then mret analyzers
           else
             try_except
               (analyzer ← call cls;
                mret (analyzers ++ [(mod_id, mod_name, analyzer, needs_iteration)]))
               (fun e =>
                  modify (fun s =>
                    set_errors (<[mod_id := "初始化失败: " +:+ exn_str e]> (errors s)) s);;
                  mret analyzers))
        acc reg s = (Ok (l0 ++ created outs.1), s') /\
      world s' = outs.2 /\
      trace s' = trace s0 /\ results s' = results s0 /\
      timeout s' = timeout s0 /\ timeout_timer s' = timeout_timer s0 /\
      timed_out s' = timed_out s0 /\
      errors s' = errors_after (errors s0) outs.1.
Proof.
  induction reg as [|[[[m n] cls] b] reg IH]; intros acc s l0 s0 Hacc Hexc outs.
  - exists s0. cbn. rewrite app_nil_r. done.
  - cbn [foldl]. subst outs. rewrite selected_entries_cons in Hexc |- *. cbn [fst snd] in *.
    match goal with |- context [foldl ?f ?a reg s] => set (acc1 := a) end.
    destruct (selected enabled m) eqn:Hsel.
    + apply Forall_cons in Hexc as [Hcls Hexc]. cbn in Hcls.
      cbn [constructor_outcomes fst snd]. specialize (Hcls (world s0)).
      destruct (cls (world s0)) as [[an|e] w1] eqn:Ecls.
      * assert (acc1 s = (Ok (l0 ++ [(m, n, an, b)]), set_world w1 s0)) as Hacc1.
        { subst acc1. run_monad. rewrite Hacc, skip_selected, Hsel. cbn.
          by rewrite Ecls. }
        destruct (IH acc1 s _ _ Hacc1 Hexc)
          as (s' & Hrun & Hw & Htr & Hre & Hto & Htm & Hti & Herr).
        cbn [world set_world] in *.
        destruct (constructor_outcomes (selected_entries enabled reg) w1) as [rs w2].
        cbn [fst snd] in *. exists s'. split.
        { rewrite Hrun. unfold created. cbn. by rewrite <- app_assoc. }
        done.
      * assert (acc1 s =
                (Ok l0, set_errors (<[m := construction_error e]> (errors s0))
                          (set_world w1 s0))) as Hacc1.
        { subst acc1. run_monad. rewrite Hacc, skip_selected, Hsel. cbn.
          by rewrite Ecls, (Hcls e eq_refl). }
        destruct (IH acc1 s _ _ Hacc1 Hexc)
          as (s' & Hrun & Hw & Htr & Hre & Hto & Htm & Hti & Herr).
        cbn [world set_world set_errors] in *.
        destruct (constructor_outcomes (selected_entries enabled reg) w1) as [rs w2].
        cbn [fst snd] in *. exists s'. split; [by rewrite Hrun |]. done.
    + assert (acc1 s = (Ok l0, s0)) as Hacc1.
      { subst acc1. run_monad. by rewrite Hacc, skip_selected, Hsel. }
      exact (IH acc1 s _ _ Hacc1 Hexc).
Qed.

(** The outcomes of entries with other ids leave a module alone. *)
Lemma outcomes_other outs (m : string) : forall errs,
  m ∉ module_ids outs.*1 ->
  (m ∉ module_ids (created outs)) /\ errors_after errs outs !! m = errs !! m.
Proof.
  induction outs as [|[[[[m1 n1] cls1] b1] r1] outs IH]; intros errs Hm.
  - split; [apply not_elem_of_nil | done].
  - cbn in Hm. apply not_elem_of_cons in Hm as [Hne Hm].
    unfold errors_after, created. cbn [foldl omap fst snd].
    destruct r1 as [an|e]; cbn.
    + destruct (IH errs Hm) as [H1 H2]. split; [| exact H2].
      apply not_elem_of_cons. done.
    + destruct (IH (<[m1 := construction_error e]> errs) Hm) as [H1 H2].
      split; [exact H1 |]. unfold errors_after in H2. by rewrite H2, lookup_insert_ne.
Qed.

(** With distinct ids, what the loop leaves for the module of an outcome. *)
Lemma outcomes_each outs : forall errs,
  NoDup (module_ids outs.*1) ->
  forall m n cls b r, (m, n, cls, b, r) ∈ outs ->
    match r with
    | Ok an =>
        (m, n, an, b) ∈ created outs /\ errors_after errs outs !! m = errs !! m
    | Raise e =>
        (m ∉ module_ids (created outs)) /\
        errors_after errs outs !! m = Some (construction_error e)
    end.
Proof.
  induction outs as [|[[[[m1 n1] cls1] b1] r1] outs IH]; intros errs Hnd m n cls b r Hin.
  - by apply elem_of_nil in Hin.
  - cbn in Hnd. apply NoDup_cons in Hnd as [Hm1 Hnd].
    apply elem_of_cons in Hin as [Heq|Hin].
    + injection Heq as -> -> -> -> ->.
      unfold errors_after, created. cbn [foldl omap fst snd].
      destruct r1 as [an|e]; cbn.
      * destruct (outcomes_other outs m1 errs Hm1) as [_ H2].
        split; [by left | exact H2].
      * destruct (outcomes_other outs m1 (<[m1 := construction_error e]> errs) Hm1)
          as [H1 H2].
        split; [exact H1 |]. unfold errors_after in H2.
        by rewrite H2, lookup_insert_eq.
    + assert (m <> m1) as Hne.
      { intros ->. apply Hm1. unfold module_ids. rewrite <- list_fmap_compose.
        apply list_elem_of_fmap. by exists (m1, n, cls, b, r). }
      unfold errors_after, created. cbn [foldl omap fst snd].
      destruct r1 as [an1|e1]; cbn.
      * specialize (IH errs Hnd m n cls b r Hin).
        destruct r as [an|e]; destruct IH as [H1 H2].
        -- split; [by right | exact H2].
        -- split; [| exact H2]. by apply not_elem_of_cons.
      * specialize (IH (<[m1 := construction_error e1]> errs) Hnd m n cls b r Hin).
        unfold errors_after in IH.
        destruct r as [an|e]; destruct IH as [H1 H2].
        -- split; [exact H1 |]. by rewrite H2, lookup_insert_ne.
        -- split; [exact H1 | exact H2].
Qed.

(** X1. Let [outs] be the outcomes of the constructors of the selected
    entries of the registry, called one after the other. When these
    constructors raise nothing but instances of [Exception] and the ids of
    the registry are distinct, [create_analyzers] returns, and what it
    returns are the analyzers of the constructors that returned, in the
    order of the registry and with its names and flags. It touches nothing
    but [self.errors]: a module whose constructor returned keeps its entry
    as it was, a module whose constructor raised [e] is left out of the
    result and gets the error [初始化失败: <e>], and a module that is not
    selected is not constructed and keeps its entry. [None] and the empty
    list both select the whole registry. *)
Theorem create_analyzers_isolates_constructors reg (enabled : option (list string)) s :
  let sel := selected_entries enabled reg in
  let outs := (constructor_outcomes sel (world s)).1 in
  NoDup (module_ids reg) ->
  Forall (fun e => raises_Exceptions e.1.2) sel ->
  exists s',
    create_analyzers reg enabled s = (Ok (created outs), s') /\
    outs.*1 = sel /\
    world s' = (constructor_outcomes sel (world s)).2 /\
    trace s' = trace s /\ results s' = results s /\
    timeout_timer s' = timeout_timer s /\ timed_out s' = timed_out s /\
    (forall m n cls b r, (m, n, cls, b, r) ∈ outs ->
       match r with
       | Ok an =>
           (m, n, an, b) ∈ created outs /\ errors s' !! m = errors s !! m
       | Raise e =>
           (m ∉ module_ids (created outs)) /\
           errors s' !! m = Some ("初始化失败: " +:+ exn_str e)
       end) /\
    (forall m, m ∉ module_ids sel ->
       (m ∉ module_ids (created outs)) /\ errors s' !! m = errors s !! m) /\
    (enabled = None \/ enabled = Some [] -> sel = reg).
Proof.
  intros sel outs Hnd Hexc. unfold create_analyzers.
  destruct (create_from enabled reg (mret []) s [] s eq_refl Hexc)
    as (s' & Hrun & Hw & Htr & Hre & Hto & Htm & Hti & Herr).
  fold sel in Hrun, Hw, Herr. fold outs in Hrun, Herr.
  pose proof (constructor_outcomes_entries sel (world s)) as Hent. fold outs in Hent.
  assert (NoDup (module_ids outs.*1)) as Hnd'.
  { rewrite Hent. exact (sublist_NoDup _ _ Hnd (selected_entries_sublist enabled reg)). }
  exists s'. split; [exact Hrun |]. split; [exact Hent |].
  split; [exact Hw |]. split; [exact Htr |]. split; [exact Hre |].
  split; [exact Htm |]. split; [exact Hti |].
  split; [| split].
  - intros m n cls b r Hin. rewrite Herr.
    exact (outcomes_each outs (errors s) Hnd' m n cls b r Hin).
  - intros m Hm. rewrite Herr. apply outcomes_other. by rewrite Hent.
  - apply selected_entries_all.
Qed.

End CreateFacts.

(** X1 on the sample registry, with the modules [broken] and [counter]
    enabled: [counter] is created, [broken] gets its error. *)
Lemma create_analyzers_isolates_constructors_witness :
  let enabled := Some ["counter"; "broken"] in
  (NoDup (module_ids SampleRegistry.registry) /\
   Forall (fun e => raises_Exceptions e.1.2)
     (selected_entries enabled SampleRegistry.registry)) /\
  exists l s',
    Scheduler.create_analyzers SampleRegistry.registry enabled SampleRun.start = (Ok l, s') /\
    module_ids l = ["counter"] /\
    Scheduler.errors s' !! "broken" = Some "初始化失败: no controller".
Proof.
  assert (NoDup (module_ids SampleRegistry.registry)) as Hnd
    by (apply (bool_decide_unpack _); vm_compute; exact I).
  assert (Forall (fun e => raises_Exceptions e.1.2)
            (selected_entries (Some ["counter"; "broken"]) SampleRegistry.registry))
    as Hexc.
  { repeat apply Forall_cons_2; [.. | apply Forall_nil_2];
      intros w e H; cbn in H; by simplify_eq. }
  split; [by split |].
  destruct (create_analyzers_isolates_constructors SampleRegistry.registry
              (Some ["counter"; "broken"]) SampleRun.start Hnd Hexc)
    as (s' & Hrun & _).
  eexists _, s'. split; [exact Hrun |].
  vm_compute in Hrun. injection Hrun as <-. split; reflexivity.
Defined.

Section TimeoutFacts.

Import Scheduler.

Context {World Data : Type}.
Context (fires : nat -> bool) (rd : RenderDoc) (controller : Controller World).

#[local] Existing Instance M_ret.
#[local] Existing Instance M_bind.

Implicit Types s : Sched World Data.
Implicit Types T : list event.

Ltac run_monad :=
  unfold mbind, M_bind, mret, M_ret, modify, gets, call, try_except.

(** A read of [self.timed_out] after the flag was set. *)
Lemma read_when_timed_out s :
  timed_out s = true ->
  exists s1,
    read_timed_out fires s = (Ok true, s1) /\
    trace s1 = trace s /\ errors s1 = errors s /\ results s1 = results s /\
    timeout s1 = timeout s /\ timeout_timer s1 = timeout_timer s /\
    world s1 = world s /\ timed_out s1 = true.
Proof.
  intros Hs. unfold read_timed_out.
  exists (tick (if timer_running s && fires (clock s) then on_timeout s else s)).
  destruct (timer_running s && fires (clock s)); cbn; by rewrite ?Hs.
Qed.

(** The loop over the roots (and over the children) after the flag was
    set: it ends at its first read. *)
Lemma roots_when_timed_out it roots s :
  timed_out s = true ->
  exists s1,
    process_roots fires rd controller it roots s = (Ok (), s1) /\
    trace s1 = trace s /\ errors s1 = errors s /\ results s1 = results s /\
    timeout s1 = timeout s /\ timeout_timer s1 = timeout_timer s /\
    world s1 = world s /\ timed_out s1 = true.
Proof.
  intros Hs. destruct roots as [|a roots].
  - exists s. by repeat split.
  - rewrite process_roots_cons.
    destruct (read_when_timed_out s Hs) as (s1 & -> & H). by exists s1.
Qed.

(** X2. Once the timeout flag is set, [run_static_analyzers] calls no
    analyzer: every static module gets the error [超时跳过] and no entry in
    [self.results]; the modules that need the traversal are not touched. *)
Theorem static_phase_after_timeout
    (analyzers : list (string * string * Analyzer World Data * bool)) s :
  timed_out s = true ->
  exists s',
    run_static_analyzers fires analyzers s = (Ok (), s') /\
    trace s' = trace s /\ results s' = results s /\ world s' = world s /\
    timed_out s' = true /\
    (forall m, m ∈ static_ids analyzers -> errors s' !! m = Some "超时跳过") /\
    (forall m, m ∉ static_ids analyzers -> errors s' !! m = errors s !! m).
Proof.
  unfold run_static_analyzers. revert s.
  induction analyzers as [|[[[m n] an] needs] analyzers IH]; intros s Hs.
  - exists s. repeat split; try done. intros m Hm. by apply elem_of_nil in Hm.
  - rewrite for_each_cons. unfold run_static_analyzer at 1.
    rewrite static_ids_cons. destruct needs.
    + run_monad. destruct (IH s Hs) as (s' & Hrun & H). exists s'. by rewrite Hrun.
    + run_monad. destruct (read_when_timed_out s Hs)
        as (s1 & -> & Htr1 & He1 & Hr1 & _ & _ & Hw1 & Hs1).
      match goal with |- context [for_each analyzers _ ?s0] => set (s2 := s0) end.
      destruct (IH s2 Hs1) as (s' & Hrun & Htr & Hre & Hw & Hti & Hin & Hout).
      exists s'. split; [exact Hrun |].
      split; [by rewrite Htr |]. split; [by rewrite Hre |]. split; [by rewrite Hw |].
      split; [exact Hti |]. split.
      * intros m0 Hm0. destruct (decide (m0 ∈ static_ids analyzers)) as [H|H].
        -- by apply Hin.
        -- apply elem_of_cons in Hm0 as [->|Hm0]; [| done].
           rewrite (Hout m H). subst s2. cbn. by rewrite lookup_insert_eq.
      * intros m0 Hm0. apply not_elem_of_cons in Hm0 as [Hne Hm0].
        rewrite (Hout m0 Hm0). subst s2. cbn. by rewrite lookup_insert_ne, He1.
Qed.


(** ** A timeout cuts the traversal short *)

Section Prefix.

Context (it : list (string * string * Analyzer World Data)).
Hypothesis Hit : entries_raise_Exceptions it.
Hypothesis Hok : replay_ok controller.

#[local] Abbreviation traversed := (traversed fires rd controller it).

Lemma visits_of_traversed ns S s s' T :
  traversed ns S s s' -> trace s' = trace s ++ T -> ns = visits T.
Proof.
  intros (T' & Htr & Hv & _) HT. rewrite Htr in HT.
  apply app_inv_head in HT. by subst.
Qed.

Lemma process_roots_cut roots :
  Forall (fun a => forall s, exists s' ns S,
    process_action fires rd controller it a s = (Ok (), s') /\
    traversed ns S s s' /\ cut_or_complete (preorder a) ns s') roots ->
  forall s, exists s' ns S,
    process_roots fires rd controller it roots s = (Ok (), s') /\
    traversed ns S s s' /\ cut_or_complete (forest roots) ns s'.
Proof.
  unfold forest. induction 1 as [|a roots Ha _ IH]; intros s.
  - exists s, [], []. split; [done |]. split; [apply traversed_refl |]. by left.
  - rewrite process_roots_cons.
    destruct (read_timed_out_spec fires rd controller it s)
      as (b & s1 & -> & Hread & Hb & _).
    destruct b.
    + exists s1, [], []. split; [done |]. split; [done |].
      right. split; [done | apply prefix_nil].
    + destruct (Ha s1) as (s2 & ns1 & S1 & -> & Htr1 & Hcut1).
      destruct Hcut1 as [-> | [Hs2 Hpre]].
      * destruct (IH s2) as (s3 & ns2 & S2 & -> & Htr2 & Hcut2).
        exists s3, (preorder a ++ ns2), (S1 ++ S2). split; [done |].
        split; [exact (traversed_trans _ _ _ _ _ _ _ _ _ _ _ Hread
                         (traversed_trans _ _ _ _ _ _ _ _ _ _ _ Htr1 Htr2)) |].
        cbn [flat_map]. destruct Hcut2 as [-> | [Hs3 Hpre2]]; [by left |].
        right. split; [done |]. by apply prefix_app.
      * destruct (roots_when_timed_out it roots s2 Hs2)
          as (s3 & Hrun & Htr3 & _ & _ & _ & _ & _ & Hs3).
        destruct (IH s2) as (s3' & ns2 & S2 & Hrun' & Htr2 & _).
        rewrite Hrun in Hrun'. injection Hrun' as <-. rewrite Hrun.
        assert (ns2 = []) as ->.
        { rewrite (visits_of_traversed ns2 S2 s2 s3 [] Htr2); [done |].
          by rewrite app_nil_r. }
        exists s3, (ns1 ++ []), (S1 ++ S2). split; [done |].
        split; [exact (traversed_trans _ _ _ _ _ _ _ _ _ _ _ Hread
                         (traversed_trans _ _ _ _ _ _ _ _ _ _ _ Htr1 Htr2)) |].
        right. split; [done |]. rewrite app_nil_r. cbn [flat_map].
        by apply prefix_app_r.
Qed.

Lemma process_action_cut a : forall s, exists s' ns S,
  process_action fires rd controller it a s = (Ok (), s') /\
  traversed ns S s s' /\ cut_or_complete (preorder a) ns s'.
Proof.
  induction a as [e f ni nn cs IH] using ActionDescription_forall_ind. intros s.
  set (a := mkAction e f ni nn cs). rewrite process_action_unfold.
  destruct (read_timed_out_spec fires rd controller it s)
    as (b & s1 & -> & Hread & Hb & _).
  destruct b.
  - exists s1, [], []. split; [done |]. split; [done |].
    right. split; [done | apply prefix_nil].
  - destruct (node_spec fires rd controller it Hit
                (replay_ok_raises_Exceptions controller Hok) a s1)
      as (go & s2 & S1 & -> & Hnode & Hgo).
    rewrite (Hgo Hok). rewrite preorder_unfold. change (children a) with cs.
    destruct (process_roots_cut cs IH s2) as (s3 & ns2 & S2 & -> & Htr2 & Hcut2).
    exists s3, ([a] ++ ns2), (S1 ++ S2). split; [done |].
    split; [exact (traversed_trans _ _ _ _ _ _ _ _ _ _ _ Hread
                     (traversed_trans _ _ _ _ _ _ _ _ _ _ _ Hnode Htr2)) |].
    destruct Hcut2 as [-> | [Hs3 Hpre2]]; [by left |].
    right. split; [done |]. by apply prefix_cons.
Qed.

Lemma process_roots_cut_spec roots s : exists s' ns S,
  process_roots fires rd controller it roots s = (Ok (), s') /\
  traversed ns S s s' /\ cut_or_complete (forest roots) ns s'.
Proof.
  apply process_roots_cut. apply Forall_forall. intros a _. apply process_action_cut.
Qed.

End Prefix.

(** X4. When every replay succeeds, [GetRootActions()] returns and the
    analyzers raise nothing but instances of [Exception], the actions that
    [run_iteration_analyzers] examines are a prefix of the tree under
    [GetRootActions()] read parents first, whatever the timer does; the
    replays are those of the draws and dispatches of that prefix; and with
    at least one analyzer that needs the traversal, the prefix is the whole
    tree unless the timeout flag is set when the function returns. *)
Theorem timeout_cuts_a_prefix
    (analyzers : list (string * string * Analyzer World Data * bool)) roots w s :
  let it := iteration_entries analyzers in
  replay_ok controller ->
  entries_raise_Exceptions it ->
  GetRootActions controller (world s) = (Ok roots, w) ->
  exists s' T,
    run_iteration_analyzers fires rd controller analyzers s = (Ok (), s') /\
    trace s' = trace s ++ T /\
    visits T `prefix_of` forest roots /\
    replays T =
      eventId <$> filter (fun a => is_draw_or_dispatch rd a = true) (visits T) /\
    (it <> [] -> visits T <> forest roots -> timed_out s' = true).
Proof.
  intros it Hok Hit Hroots. unfold run_iteration_analyzers. fold it.
  destruct it as [|e0 it'] eqn:E.
  - exists s, []. rewrite app_nil_r. split; [done |]. split; [done |].
    split; [apply prefix_nil |]. split; [done |]. intros H. by destruct H.
  - rewrite <- E in *. run_monad. cbn [fst snd].
    change (world (set_processed 0 s)) with (world s). rewrite Hroots.
    destruct (process_roots_cut_spec it Hit Hok roots (set_world w (set_processed 0 s)))
      as (sm & ns & S & -> & Htrav & Hcut).
    destruct (finish_spec it Hit sm)
      as (s' & T2 & -> & Htr2 & (Hv2 & Hr2 & _ & _) & _ & _ & Hti2 & _).
    destruct Htrav as (T1 & Htr1 & Hv1 & Hr1 & _).
    exists s', (T1 ++ T2). split; [done |].
    split; [rewrite Htr2, Htr1; cbn; by rewrite app_assoc |].
    assert (visits (T1 ++ T2) = ns) as Hvis
      by (unfold visits in *; by rewrite omap_app, Hv1, Hv2, app_nil_r).
    rewrite Hvis.
    split; [destruct Hcut as [-> | [_ H]]; done |].
    split; [unfold replays in *; by rewrite omap_app, Hr1, Hr2, app_nil_r |].
    intros _ Hne. destruct Hcut as [-> | [H _]]; [done |]. by rewrite Hti2.
Qed.

End TimeoutFacts.

(** X2 on the sample run, started with the flag set. *)
Lemma static_phase_after_timeout_witness :
  let s := Scheduler.set_timed_out true SampleRun.start in
  Scheduler.timed_out s = true /\
  exists s',
    Scheduler.run_static_analyzers SampleRun.never SampleRun.analyzers s = (Ok (), s') /\
    Scheduler.trace s' = [] /\
    Scheduler.errors s' !! "static_counter" = Some "超时跳过" /\
    Scheduler.results s' !! "static_counter" = None.
Proof.
  intros s. split; [reflexivity |].
  destruct (static_phase_after_timeout SampleRun.never SampleRun.analyzers s eq_refl)
    as (s' & Hrun & Htr & Hre & _ & _ & Hin & _).
  exists s'. split; [exact Hrun |]. split; [exact Htr |].
  split.
  - apply Hin. apply (bool_decide_unpack _). vm_compute. exact I.
  - rewrite Hre. apply lookup_empty.
Defined.


(** X4 on the sample run: every replay of the sample controller succeeds,
    and the timer fires after the first action. *)
Lemma timeout_cuts_a_prefix_witness :
  (replay_ok SampleRun.controller /\
   entries_raise_Exceptions (Scheduler.iteration_entries SampleRun.analyzers)) /\
  exists s' T,
    Scheduler.run_iteration_analyzers (fun n => Nat.eqb n 3) Sample.rd
      SampleRun.controller SampleRun.analyzers
      (Scheduler.start_timeout SampleRun.start) = (Ok (), s') /\
    Scheduler.trace s' = Scheduler.trace (Scheduler.start_timeout SampleRun.start) ++ T /\
    visits T `prefix_of` forest [Sample.marker] /\
    visits T = [Sample.marker] /\
    Scheduler.timed_out s' = true.
Proof.
  split; [split; [exact sample_replay_ok | exact sample_entries_raise_Exceptions] |].
  destruct (timeout_cuts_a_prefix (fun n => Nat.eqb n 3) Sample.rd SampleRun.controller
              SampleRun.analyzers [Sample.marker] 0%nat
              (Scheduler.start_timeout SampleRun.start)
              sample_replay_ok sample_entries_raise_Exceptions eq_refl)
    as (s' & T & Hrun & Htr & Hpre & _ & _).
  exists s', T. split; [exact Hrun |]. split; [exact Htr |]. split; [exact Hpre |].
  vm_compute in Hrun. injection Hrun as <-.
  vm_compute in Htr. injection Htr as HT. subst T.
  split; reflexivity.
Defined.

Section MemoryTableFacts.

Import Memory.

(** The entry of a format after some more textures of it were counted. *)
Let grown (old : option format_stat) (g : list TextureDescription)
    : option format_stat :=
  match g with
  | [] => old
  | _ :: _ =>
      let o := default {| fs_count := 0; fs_size := 0 |} old in
      Some {| fs_count := fs_count o + Z.of_nat (length g);
              fs_size := fs_size o + Zsum (texture_bytes <$> g) |}
  end.

Lemma texture_step_formats r m tex :
  (texture_step (r, m) tex).2 =
  add_format (format_name (tex_format tex)) (texture_bytes tex) m.
Proof. reflexivity. Qed.

Lemma texture_loop_formats k l : forall r m,
  (foldl texture_step (r, m) l).2 !! k = grown (m !! k) (textures_of_format k l).
Proof.
  unfold textures_of_format.
  induction l as [|tex l IH]; intros r m; cbn [foldl]; [done |].
  destruct (texture_step (r, m) tex) as [r1 m1] eqn:E.
  rewrite IH. pose proof (texture_step_formats r m tex) as Hm. rewrite E in Hm.
  cbn [snd] in Hm. subst m1. rewrite filter_cons. unfold add_format.
  destruct (decide (format_name (tex_format tex) = k)) as [->|Hne].
  - rewrite lookup_insert_eq.
    destruct (filter _ l) as [|t g]; unfold grown; cbn [default length fmap list_fmap].
    + f_equal. unfold Zsum. cbn [foldr]. f_equal; lia.
    + f_equal. cbv zeta. cbn [fs_count fs_size default id]. unfold Zsum.
      cbn [foldr fmap list_fmap length]. f_equal; lia.
  - by rewrite lookup_insert_ne.
Qed.

(** X5. The table [texture_formats] that [MemoryAnalyzer.analyze] returns
    groups the textures by the name of their format: a format that no
    texture has is not in the table; for any other format, ['count'] is the
    number of its textures and ['size'] the sum of their [byteSize] (0 for
    a texture without the attribute). *)
Theorem texture_formats_groups_by_format
    (textures : list TextureDescription) (buffers : list BufferDescription)
    (k : string) :
  texture_formats (analyze textures buffers) !! k =
  match textures_of_format k textures with
  | [] => None
  | g => Some {| fs_count := Z.of_nat (length g);
                 fs_size := Zsum (texture_bytes <$> g) |}
  end.
Proof.
  unfold analyze.
  match goal with |- context [foldl texture_step (?r, ∅) textures] =>
    pose proof (texture_loop_formats k textures r ∅) as H;
    destruct (foldl texture_step (r, ∅) textures) as [r1 m1] end.
  cbn [snd] in H. cbn [texture_formats]. rewrite H, lookup_empty.
  by destruct (textures_of_format k textures).
Qed.

End MemoryTableFacts.

Section MemoryLargeFacts.

Import Memory.

Lemma name_or_nonempty o d : d <> "" -> name_or o d <> "".
Proof.
  intros Hd. unfold name_or. destruct o as [s|]; [| done].
  destruct (String.eqb_spec s ""); done.
Qed.

Lemma texture_step_large r m tex :
  exists extra,
    large_textures (texture_step (r, m) tex).1 = large_textures r ++ extra /\
    lt_size <$> extra = sizes_above (16 * 1024 * 1024) [texture_bytes tex] /\
    Forall (fun t => lt_name t <> "") extra /\
    large_buffers (texture_step (r, m) tex).1 = large_buffers r.
Proof.
  unfold texture_step, sizes_above, texture_bytes. cbn [fst large_textures large_buffers].
  rewrite filter_cons, filter_nil.
  destruct (Z.ltb_spec (16 * 1024 * 1024) (attr_or 0 (tex_byteSize tex))) as [Hlt|Hge].
  - rewrite decide_True by done. eexists [_]. split; [done |]. split; [done |].
    split; [| done]. constructor; [| done]. cbn. by apply name_or_nonempty.
  - rewrite decide_False by lia. exists []. by rewrite app_nil_r.
Qed.

Lemma buffer_step_large r buf :
  exists extra,
    large_buffers (buffer_step r buf) = large_buffers r ++ extra /\
    lb_size <$> extra = sizes_above (8 * 1024 * 1024) [buffer_bytes buf] /\
    Forall (fun t => lb_name t <> "") extra /\
    large_textures (buffer_step r buf) = large_textures r.
Proof.
  unfold buffer_step, sizes_above, buffer_bytes. cbn [large_textures large_buffers].
  rewrite filter_cons, filter_nil.
  destruct (Z.ltb_spec (8 * 1024 * 1024) (attr_or 0 (buf_length buf))) as [Hlt|Hge].
  - rewrite decide_True by done. eexists [_]. split; [done |]. split; [done |].
    split; [| done]. constructor; [| done]. cbn. by apply name_or_nonempty.
  - rewrite decide_False by lia. exists []. by rewrite app_nil_r.
Qed.

Lemma sizes_above_cons t x l : sizes_above t (x :: l) = sizes_above t [x] ++ sizes_above t l.
Proof.
  unfold sizes_above. rewrite !filter_cons, filter_nil. by destruct (decide (t < x)).
Qed.

Lemma texture_loop_large l : forall r m,
  let r' := (foldl texture_step (r, m) l).1 in
  lt_size <$> large_textures r' =
    (lt_size <$> large_textures r) ++
    sizes_above (16 * 1024 * 1024) (texture_bytes <$> l) /\
  (Forall (fun t => lt_name t <> "") (large_textures r) ->
   Forall (fun t => lt_name t <> "") (large_textures r')) /\
  large_buffers r' = large_buffers r.
Proof.
  induction l as [|tex l IH]; intros r m; cbn [foldl].
  - cbn. by rewrite app_nil_r.
  - destruct (texture_step_large r m tex) as (extra & E1 & E2 & E3 & E4).
    destruct (texture_step (r, m) tex) as [r1 m1]. cbn [fst] in E1, E4.
    destruct (IH r1 m1) as (H1 & H2 & H3). cbv zeta. rewrite H1, H3, E1, E4.
    cbn [fmap list_fmap]. rewrite sizes_above_cons, fmap_app, E2, <- app_assoc.
    split; [done |]. split; [| done].
    intros HF. apply H2. rewrite E1. by apply Forall_app.
Qed.

Lemma buffer_loop_large l : forall r,
  let r' := foldl buffer_step r l in
  lb_size <$> large_buffers r' =
    (lb_size <$> large_buffers r) ++
    sizes_above (8 * 1024 * 1024) (buffer_bytes <$> l) /\
  (Forall (fun t => lb_name t <> "") (large_buffers r) ->
   Forall (fun t => lb_name t <> "") (large_buffers r')) /\
  large_textures r' = large_textures r.
Proof.
  induction l as [|buf l IH]; intros r; cbn [foldl].
  - cbn. by rewrite app_nil_r.
  - destruct (buffer_step_large r buf) as (extra & E1 & E2 & E3 & E4).
    destruct (IH (buffer_step r buf)) as (H1 & H2 & H3). cbv zeta.
    rewrite H1, H3, E1, E4.
    cbn [fmap list_fmap]. rewrite sizes_above_cons, fmap_app, E2, <- app_assoc.
    split; [done |]. split; [| done].
    intros HF. apply H2. rewrite E1. by apply Forall_app.
Qed.

Lemma StronglySorted_weaken {A} (R1 R2 : A -> A -> Prop) l :
  (forall x y, R1 x y -> R2 x y) -> StronglySorted R1 l -> StronglySorted R2 l.
Proof.
  intros H. induction 1 as [|x l Hl IH Hx]; constructor; [done |].
  eapply Forall_impl; [exact Hx | auto].
Qed.

Lemma sorted_by_size {A} (key : A -> Z) (l : list A) :
  StronglySorted (fun x y => key y <= key x)
    (stable_sort (fun x y => key y <=? key x) l).
Proof.
  eapply StronglySorted_weaken;
    [| apply (stable_sort_sorted (fun x y => key y <=? key x))].
  - intros x y H. cbn in H. lia.
  - intros x y. destruct (Z.le_ge_cases (key x) (key y)); [right | left]; lia.
  - intros x y z ? ?. lia.
Qed.

(** X6. [large_textures] holds exactly the textures above 16 MiB (a
    texture of 16 MiB is not listed) and [large_buffers] the buffers above
    8 MiB, largest first; no entry has an empty name. *)
Theorem large_resources_listed
    (textures : list TextureDescription) (buffers : list BufferDescription) :
  let r := analyze textures buffers in
  lt_size <$> large_textures r ≡ₚ
    sizes_above (16 * 1024 * 1024) (texture_bytes <$> textures) /\
  lb_size <$> large_buffers r ≡ₚ
    sizes_above (8 * 1024 * 1024) (buffer_bytes <$> buffers) /\
  StronglySorted (fun x y => lt_size y <= lt_size x) (large_textures r) /\
  StronglySorted (fun x y => lb_size y <= lb_size x) (large_buffers r) /\
  Forall (fun t => lt_name t <> "") (large_textures r) /\
  Forall (fun b => lb_name b <> "") (large_buffers r).
Proof.
  unfold analyze.
  match goal with |- context [foldl texture_step (?r, ∅) textures] =>
    pose proof (texture_loop_large textures r ∅) as Ht;
    destruct (foldl texture_step (r, ∅) textures) as [r1 m1] end.
  cbn [fst large_textures large_buffers fmap list_fmap app] in Ht.
  destruct Ht as (T1 & T2 & T3).
  match goal with |- context [foldl buffer_step ?r buffers] =>
    pose proof (buffer_loop_large buffers r) as Hb;
    destruct (foldl buffer_step r buffers) as [] eqn:E end.
  cbn [large_textures large_buffers] in Hb. destruct Hb as (B1 & B2 & B3).
  rewrite T3 in B1. cbn [fmap list_fmap app] in B1.
  cbn [large_textures large_buffers].
  split; [by rewrite stable_sort_perm, B3, T1 |].
  split; [by rewrite stable_sort_perm, B1 |].
  split; [apply sorted_by_size |]. split; [apply sorted_by_size |].
  split.
  - rewrite stable_sort_perm, B3. by apply T2.
  - rewrite stable_sort_perm. apply B2. by rewrite T3.
Qed.

End MemoryLargeFacts.

Section VertexAttrsInvariants.

Import VertexAttrs.

Let good (m : gmap string sem_stat) : Prop :=
  forall k st, m !! k = Some st -> consistent_sem_stat st.

Lemma good_stat_of m k : good m -> consistent_sem_stat (stat_of m k).
Proof.
  intros H. unfold stat_of. destruct (m !! k) as [st|] eqn:E; cbn.
  - by eapply H.
  - unfold consistent_sem_stat; cbn; lia.
Qed.

Lemma good_insert m k st :
  good m -> consistent_sem_stat st -> good (<[k := st]> m).
Proof.
  intros Hm Hst k' st'. destruct (decide (k' = k)) as [->|Hne].
  - rewrite lookup_insert_eq. by intros [= <-].
  - rewrite lookup_insert_ne by done. apply Hm.
Qed.

Lemma good_bump_used k m : good m -> good (bump_used k m).
Proof.
  intros H. apply good_insert; [done |].
  pose proof (good_stat_of m k H) as (? & ? & ?).
  unfold consistent_sem_stat; cbn; lia.
Qed.

Lemma good_bump_provided k m : good m -> good (bump_provided k m).
Proof.
  intros H. apply good_insert; [done |].
  pose proof (good_stat_of m k H) as (? & ? & ?).
  unfold consistent_sem_stat; cbn; lia.
Qed.

Lemma good_bump_provided_wasted k m :
  good m -> good (bump_wasted k (bump_provided k m)).
Proof.
  intros H. unfold bump_wasted. apply good_insert; [by apply good_bump_provided |].
  unfold bump_provided. rewrite stat_of_insert, decide_True by done.
  pose proof (good_stat_of m k H) as (? & ? & ?).
  unfold consistent_sem_stat; cbn; lia.
Qed.

Lemma sig_loop_good sigs : forall used m,
  good m -> good (foldl sig_step (used, m) sigs).2.
Proof.
  induction sigs as [|sig sigs IH]; intros used m Hm; cbn [foldl]; [done |].
  unfold sig_step at 2. destruct (sig_semanticName sig); [| by apply IH].
  apply IH. by apply good_bump_used.
Qed.

Lemma attr_loop_good used attrs : forall acc,
  good (acc_stats acc) -> good (acc_stats (foldl (attr_step used) acc attrs)).
Proof.
  induction attrs as [|attr attrs IH]; intros acc Hacc; cbn [foldl]; [done |].
  apply IH. unfold attr_step. destruct (semanticName attr); [| done].
  case_bool_decide; cbn [acc_stats].
  - by apply good_bump_provided_wasted.
  - by apply good_bump_provided.
Qed.

(** What a call of [analyze_action] keeps. *)
Let inv (n : Z) (st : state) : Prop :=
  total_draws st = n /\
  0 <= wasted_draws st /\ wasted_draws st <= total_draws st /\
  good (semantic_stats st) /\
  Forall (fun d => 100 * 1024 < wd_wasted_bytes d /\ wd_wasted_attrs d <> [])
         (worst_draws st).

Lemma record_waste_inv action acc st n :
  inv n st -> wasted_draws st < total_draws st -> inv n (record_waste action acc st).
Proof.
  intros (H1 & H2 & H3 & H4 & H5) Hlt. unfold record_waste.
  destruct (acc_wasted_attrs acc) as [|w ws] eqn:E; [by split_and! |].
  split_and!; cbn; try done; try lia.
  destruct (Z.ltb_spec (100 * 1024)
              (acc_wasted_bytes_per_vertex acc *
               (attr_or 0 (numIndices action) * attr_or 1 (numInstances action))));
    cbn [andb]; [| done].
  destruct (_ <? _); [| done].
  apply Forall_app. split; [done |]. constructor; [| done]. cbn. done.
Qed.

Lemma analyze_action_inv action pipe st n :
  inv n st -> inv (n + 1) (analyze_action action pipe st).
Proof.
  intros (H1 & H2 & H3 & H4 & H5). unfold analyze_action.
  match goal with |- context [GetShaderReflection pipe Vertex] =>
    destruct (GetShaderReflection pipe Vertex) as [[refl|]|] end;
    try (split_and!; cbn; try done; lia).
  match goal with |- context [foldl sig_step ?a ?l] =>
    set (out := foldl sig_step a l) end.
  assert (good out.2) as Hsig by (apply sig_loop_good; exact H4).
  destruct out as [used stats1]. cbn [snd] in Hsig.
  destruct (GetIAState pipe) as [[[ia|]|]|];
    try (split_and!; cbn; try done; lia).
  apply record_waste_inv; [| cbn; lia].
  split_and!; cbn; try done; try lia.
  apply attr_loop_good. exact Hsig.
Qed.

Lemma vertex_attrs_after_inv calls :
  inv (Z.of_nat (length calls)) (vertex_attrs_after calls).
Proof.
  unfold vertex_attrs_after.
  induction calls as [|c calls IH] using rev_ind.
  - split_and!; cbn; done.
  - rewrite foldl_app, length_app, Nat2Z.inj_add. cbn [foldl length].
    by apply analyze_action_inv.
Qed.

Lemma vertex_attrs_draws_bound calls :
  let st := vertex_attrs_after calls in
  0 <= wasted_draws st <= total_draws st.
Proof.
  destruct (vertex_attrs_after_inv calls) as (H1 & H2 & H3 & H4 & H5). cbv zeta. lia.
Qed.

(** X7. After any sequence of [analyze_action] calls on a fresh
    [VertexAttributeAnalyzer]: [total_draws] is the number of calls;
    [wasted_draws] is between 0 and [total_draws]; for every semantic the
    counters are not negative and [wasted] is at most [provided]; every
    entry of [worst_draws] wastes more than 100 KiB and names at least one
    attribute. [finalize] keeps all of this. *)
Theorem vertex_attrs_counters_consistent
    (calls : list (ActionDescription * PipelineState)) :
  let st := vertex_attrs_after calls in
  total_draws st = Z.of_nat (length calls) /\
  0 <= wasted_draws st <= total_draws st /\
  (forall sem stat, semantic_stats st !! sem = Some stat -> consistent_sem_stat stat) /\
  Forall (fun d => 100 * 1024 < wd_wasted_bytes d /\ wd_wasted_attrs d <> [])
         (worst_draws st) /\
  Forall (fun d => 100 * 1024 < wd_wasted_bytes d /\ wd_wasted_attrs d <> [])
         (worst_draws (finalize st)) /\
  semantic_stats (finalize st) = semantic_stats st /\
  wasted_draws (finalize st) = wasted_draws st /\
  total_draws (finalize st) = total_draws st.
Proof.
  destruct (vertex_attrs_after_inv calls) as (H1 & H2 & H3 & H4 & H5).
  cbv zeta. split_and!; try done.
  cbn [finalize worst_draws]. by rewrite stable_sort_perm.
Qed.

End VertexAttrsInvariants.

Section ShaderBindingsInvariants.

Import ShaderBindings.

Variable rd : RenderDoc.

Lemma binding_stat_of_insert k v (m : gmap string binding_stat) kind :
  stat_of (<[k := v]> m) kind = if decide (k = kind) then v else stat_of m kind.
Proof.
  unfold stat_of. case_decide as E.
  - subst. by rewrite lookup_insert_eq.
  - by rewrite lookup_insert_ne.
Qed.

(** The table adds up to the totals, and holds no other kind. *)
Let table_ok (st : state) : Prop :=
  total_bindings st =
    bs_total (binding_stat_of st "SRV") + bs_total (binding_stat_of st "UAV") +
    bs_total (binding_stat_of st "CBV") /\
  unused_bindings st =
    bs_unused (binding_stat_of st "SRV") + bs_unused (binding_stat_of st "UAV") +
    bs_unused (binding_stat_of st "CBV") /\
  (forall kind, 0 <= bs_unused (binding_stat_of st kind) <=
                bs_total (binding_stat_of st kind)) /\
  (forall kind, kind <> "SRV" -> kind <> "UAV" -> kind <> "CBV" ->
                binding_stats st !! kind = None).

Let known (kind : string) : Prop := kind = "SRV" \/ kind = "UAV" \/ kind = "CBV".

(** What the loops over the bindings keep; [d] is the local
    [draw_unused]. *)
Let inv (acc : state * Z) : Prop :=
  table_ok acc.1 /\ 0 <= acc.2.

Lemma binding_step_inv kind acc b :
  known kind -> inv acc ->
  inv (binding_step rd kind acc b) /\
  draws_with_waste (binding_step rd kind acc b).1 = draws_with_waste acc.1 /\
  total_draws (binding_step rd kind acc b).1 = total_draws acc.1 /\
  worst_draws (binding_step rd kind acc b).1 = worst_draws acc.1.
Proof.
  intros Hk [(T1 & T2 & T3 & T4) Hd]. destruct acc as [st d]. cbn [fst snd] in *.
  assert (inv (st, d)) as Hkeep by (unfold inv, table_ok; by split_and!).
  unfold binding_step. destruct (descriptor b) as [desc|]; [| done].
  destruct (resource desc =? ResourceId_Null rd); [done |].
  split; [| done].
  clear Hkeep. unfold inv, table_ok, binding_stat_of in *. cbn [fst snd].
  cbn [total_bindings unused_bindings binding_stats].
  set (m := binding_stats st) in *.
  pose proof (T3 kind) as Tk. pose proof (T3 "SRV") as Ts.
  pose proof (T3 "UAV") as Tu. pose proof (T3 "CBV") as Tc.
  destruct (is_statically_unused b); unfold bump_unused, bump_total; cbv zeta.
  - rewrite !binding_stat_of_insert.
    split; [| lia]. split_and!.
    + destruct Hk as [-> | [-> | ->]]; repeat case_decide; try done; cbn; lia.
    + destruct Hk as [-> | [-> | ->]]; repeat case_decide; try done; cbn; lia.
    + intros k'. pose proof (T3 k') as Tk'. rewrite !binding_stat_of_insert.
      repeat case_decide; subst; try done; cbn; lia.
    + intros k' N1 N2 N3.
      rewrite !lookup_insert_ne by (intros <-; destruct Hk as [?|[?|?]]; done).
      by apply T4.
  - rewrite !binding_stat_of_insert. split; [| lia]. split_and!.
    + destruct Hk as [-> | [-> | ->]]; repeat case_decide; try done; cbn; lia.
    + destruct Hk as [-> | [-> | ->]]; repeat case_decide; try done; cbn; lia.
    + intros k'. pose proof (T3 k') as Tk'. rewrite !binding_stat_of_insert.
      repeat case_decide; subst; try done; cbn; lia.
    + intros k' N1 N2 N3.
      rewrite !lookup_insert_ne by (intros <-; destruct Hk as [?|[?|?]]; done).
      by apply T4.
Qed.

Lemma scan_inv kind got acc :
  known kind -> inv acc ->
  inv (scan rd kind got acc) /\
  draws_with_waste (scan rd kind got acc).1 = draws_with_waste acc.1 /\
  total_draws (scan rd kind got acc).1 = total_draws acc.1 /\
  worst_draws (scan rd kind got acc).1 = worst_draws acc.1.
Proof.
  intros Hk. destruct got as [bs|e]; cbn [scan]; [| done].
  revert acc. induction bs as [|b bs IH]; intros acc Hacc; cbn [foldl]; [done |].
  destruct (binding_step_inv kind acc b Hk Hacc) as (I1 & I2 & I3 & I4).
  destruct (IH _ I1) as (J1 & J2 & J3 & J4).
  split; [done |]. split; [congruence |]. split; congruence.
Qed.

Lemma stages_inv pipe stages : forall acc,
  inv acc ->
  let out := foldl (stage_step rd pipe) acc stages in
  inv out /\
  draws_with_waste out.1 = draws_with_waste acc.1 /\
  total_draws out.1 = total_draws acc.1 /\
  worst_draws out.1 = worst_draws acc.1.
Proof.
  induction stages as [|stage stages IH]; intros acc Hacc; cbn [foldl]; [done |].
  assert (inv (stage_step rd pipe acc stage) /\
          draws_with_waste (stage_step rd pipe acc stage).1 = draws_with_waste acc.1 /\
          total_draws (stage_step rd pipe acc stage).1 = total_draws acc.1 /\
          worst_draws (stage_step rd pipe acc stage).1 = worst_draws acc.1)
    as (I1 & I2 & I3 & I4).
  { unfold stage_step. destruct (GetShader pipe stage) as [sh|]; [| done].
    destruct (sh =? ResourceId_Null rd); [done |].
    destruct (scan_inv "SRV" (GetReadOnlyResources pipe stage) acc) as (A1 & A2 & A3 & A4);
      [by left | done |].
    destruct (scan_inv "UAV" (GetReadWriteResources pipe stage)
                (scan rd "SRV" (GetReadOnlyResources pipe stage) acc))
      as (B1 & B2 & B3 & B4); [by right; left | done |].
    destruct (scan_inv "CBV" (GetConstantBlocks pipe stage false)
                (scan rd "UAV" (GetReadWriteResources pipe stage)
                   (scan rd "SRV" (GetReadOnlyResources pipe stage) acc)))
      as (C1 & C2 & C3 & C4); [by right; right | done |].
    split; [done |]. split; [congruence |]. split; congruence. }
  destruct (IH _ I1) as (J1 & J2 & J3 & J4).
  cbv zeta. split; [done |]. split; [congruence |]. split; congruence.
Qed.

Let state_inv (n : Z) (st : state) : Prop :=
  total_draws st = n /\
  0 <= draws_with_waste st /\ draws_with_waste st <= total_draws st /\
  table_ok st /\
  Forall (fun d => 3 <= wd_unused_count d) (worst_draws st).

Lemma shader_analyze_action_inv action pipe st n :
  state_inv n st -> state_inv (n + 1) (analyze_action rd action pipe st).
Proof.
  intros (H1 & H2 & H3 & H4 & H5). unfold analyze_action.
  match goal with |- context [foldl (stage_step rd pipe) ?acc stages] =>
    pose proof (stages_inv pipe stages acc) as Hs;
    destruct (foldl (stage_step rd pipe) acc stages) as [st1 d] end.
  cbn [fst snd] in Hs.
  destruct Hs as ([I1 I0] & I2 & I3 & I4); [split; [exact H4 | cbn; lia] |].
  cbn [fst snd draws_with_waste total_draws worst_draws] in *.
  destruct (Z.ltb_spec 0 d) as [Hd|Hd].
  - repeat split; cbn [total_draws draws_with_waste worst_draws]; try lia.
    + destruct I1 as (T1 & _). exact T1.
    + destruct I1 as (_ & T2 & _). exact T2.
    + destruct I1 as (_ & _ & T3 & _). apply T3.
    + destruct I1 as (_ & _ & T3 & _). apply T3.
    + destruct I1 as (_ & _ & _ & T4). exact T4.
    + destruct (Z.leb_spec 3 d); cbn [andb]; [| by rewrite I4].
      destruct (_ <? _); [| by rewrite I4].
      apply Forall_app. split; [by rewrite I4 |]. constructor; [| done]. cbn. lia.
  - repeat split; try lia; try (by rewrite I4); apply I1.
Qed.

Lemma shader_bindings_after_inv calls :
  state_inv (Z.of_nat (length calls)) (shader_bindings_after rd calls).
Proof.
  unfold shader_bindings_after.
  induction calls as [|c calls IH] using rev_ind.
  - repeat split; cbn; done.
  - rewrite foldl_app, length_app, Nat2Z.inj_add. cbn [foldl length].
    by apply shader_analyze_action_inv.
Qed.

Lemma shader_bindings_unused_bound calls :
  let st := shader_bindings_after rd calls in
  0 <= unused_bindings st <= total_bindings st.
Proof.
  destruct (shader_bindings_after_inv calls)
    as (H1 & H2 & H3 & (T1 & T2 & T3 & T4) & H5).
  cbv zeta. rewrite T1, T2.
  pose proof (T3 "SRV"). pose proof (T3 "UAV"). pose proof (T3 "CBV"). lia.
Qed.

(** X8. After any sequence of [analyze_action] calls on a fresh
    [ShaderBindingAnalyzer]: [total_draws] is the number of calls and
    [draws_with_waste] is between 0 and it; the table [binding_stats] holds
    no kind besides SRV, UAV and CBV, its totals add up to
    [total_bindings] and its unused counts to [unused_bindings]; for every
    kind the unused count is between 0 and the total; every entry of
    [worst_draws] has at least 3 unused bindings. *)
Theorem shader_bindings_counters_consistent
    (calls : list (ActionDescription * PipelineState)) :
  let st := shader_bindings_after rd calls in
  total_draws st = Z.of_nat (length calls) /\
  0 <= draws_with_waste st <= total_draws st /\
  total_bindings st =
    bs_total (binding_stat_of st "SRV") + bs_total (binding_stat_of st "UAV") +
    bs_total (binding_stat_of st "CBV") /\
  unused_bindings st =
    bs_unused (binding_stat_of st "SRV") + bs_unused (binding_stat_of st "UAV") +
    bs_unused (binding_stat_of st "CBV") /\
  (forall kind, 0 <= bs_unused (binding_stat_of st kind) <=
                bs_total (binding_stat_of st kind)) /\
  0 <= unused_bindings st <= total_bindings st /\
  (forall kind, kind <> "SRV" -> kind <> "UAV" -> kind <> "CBV" ->
                binding_stats st !! kind = None) /\
  Forall (fun d => 3 <= wd_unused_count d) (worst_draws st).
Proof.
  destruct (shader_bindings_after_inv calls)
    as (H1 & H2 & H3 & (T1 & T2 & T3 & T4) & H5).
  cbv zeta. repeat split; try done; try apply T3.
  - rewrite T2. pose proof (T3 "SRV"). pose proof (T3 "UAV"). pose proof (T3 "CBV"). lia.
  - rewrite T1, T2. pose proof (T3 "SRV"). pose proof (T3 "UAV"). pose proof (T3 "CBV").
    lia.
Qed.

End ShaderBindingsInvariants.

Section MainResolutionFacts.

Import Overdraw.

Variable rd : RenderDoc.

Lemma occurrences_snoc key k seen :
  occurrences key (seen ++ [k]) =
  occurrences key seen + (if decide (k = key) then 1 else 0).
Proof.
  unfold occurrences. rewrite filter_app, length_app, filter_cons, filter_nil.
  repeat case_decide; cbn [length]; try done; lia.
Qed.

Lemma occurrences_pos key seen : 0 < occurrences key seen <-> key ∈ seen.
Proof.
  unfold occurrences. induction seen as [|k seen IH].
  - rewrite elem_of_nil, filter_nil. cbn. lia.
  - rewrite filter_cons, elem_of_cons. case_decide; subst; cbn [length].
    + split; [by left | lia].
    + rewrite IH. split; [by right |]. intros [->|H']; done.
Qed.

Lemma count_in_bump key l k :
  count_in (bump_resolution key l) k =
  count_in l k + (if decide (key = k) then 1 else 0).
Proof.
  induction l as [|[k0 c0] l IH]; cbn [bump_resolution count_in].
  - repeat case_decide; try done; lia.
  - case_bool_decide as E; cbn [count_in].
    + subst. repeat case_decide; try done; lia.
    + rewrite IH. repeat case_decide; subst; try done; lia.
Qed.

Lemma bump_keys key l :
  (bump_resolution key l).*1 = if decide (key ∈ l.*1) then l.*1 else l.*1 ++ [key].
Proof.
  induction l as [|[k0 c0] l IH]; cbn [bump_resolution fmap list_fmap fst].
  - rewrite decide_False; [done |]. apply not_elem_of_nil.
  - case_bool_decide as E; cbn [fmap list_fmap fst].
    + subst. rewrite decide_True; [done | by left].
    + rewrite IH. destruct (decide (key ∈ l.*1)) as [H|H].
      * rewrite decide_True; [done | by right].
      * rewrite decide_False; [done |]. rewrite not_elem_of_cons. split; [done | done].
Qed.

(** The table holds every resolution seen, once, with its number of
    occurrences. *)
Let table_of (l : list (Z * Z * Z)) (seen : list (Z * Z)) : Prop :=
  NoDup l.*1 /\ (forall key, key ∈ l.*1 <-> key ∈ seen) /\
  forall key, count_in l key = occurrences key seen.

Lemma bump_table key l seen :
  table_of l seen -> table_of (bump_resolution key l) (seen ++ [key]).
Proof.
  intros (Hnd & Hkeys & Hcnt). split_and!.
  - rewrite bump_keys. case_decide as E; [done |].
    apply NoDup_app. split_and!; [done | | apply NoDup_singleton].
    intros x Hx ->%list_elem_of_singleton. done.
  - intros k. rewrite bump_keys, elem_of_app, list_elem_of_singleton, <- Hkeys.
    case_decide as E.
    + split; [by left |]. intros [H| ->]; done.
    + by rewrite elem_of_app, list_elem_of_singleton.
  - intros k. by rewrite count_in_bump, occurrences_snoc, Hcnt.
Qed.

Lemma resolution_loop texs : forall l seen,
  table_of l seen ->
  table_of (foldl (resolution_step rd) l texs)
           (seen ++ color_target_resolutions rd texs).
Proof.
  unfold color_target_resolutions.
  induction texs as [|tex texs IH]; intros l seen Hl; cbn [foldl].
  - by rewrite filter_nil, app_nil_r.
  - rewrite filter_cons.
    assert (resolution_step rd l tex =
            if is_color_target rd tex
            then bump_resolution (tex_width tex, tex_height tex) l else l) as ->.
    { unfold resolution_step, is_color_target.
      destruct (tex_creationFlags tex), (TextureCategory_ColorTarget rd); try done. }
    destruct (is_color_target rd tex).
    + rewrite decide_True by done. cbn [fmap list_fmap].
      rewrite (cons_middle _ seen), app_assoc. apply IH. by apply bump_table.
    + rewrite decide_False by done. by apply IH.
Qed.

Lemma count_in_entry l key cnt :
  NoDup l.*1 -> (key, cnt) ∈ l -> count_in l key = cnt.
Proof.
  induction l as [|[k0 c0] l IH]; intros Hnd Hin; [by apply elem_of_nil in Hin |].
  cbn in Hnd. apply NoDup_cons in Hnd as [Hk0 Hnd]. cbn [count_in].
  apply elem_of_cons in Hin as [[= <- <-]|Hin].
  - by rewrite decide_True.
  - rewrite decide_False; [by apply IH |].
    intros ->. apply Hk0. apply list_elem_of_fmap. by exists (key, cnt).
Qed.

Lemma entry_of_key (l : list (Z * Z * Z)) key :
  key ∈ l.*1 -> exists cnt, (key, cnt) ∈ l.
Proof.
  intros ([k c] & -> & H)%list_elem_of_fmap. by exists c.
Qed.

(** X9. The main screen that [OverdrawAnalyzer] assumes: without a colour
    target of at least 256 by 256 that is not square (or when
    [GetTextures()] raises) [main_screen_pixels] stays 0; otherwise it is
    the pixel count [w * h] of such a resolution, one that no other such
    resolution exceeds in its number of colour targets. So
    [main_screen_pixels] is 0 or at least 256 * 257. *)
Theorem main_resolution_is_most_frequent (textures : Res (list TextureDescription)) :
  let px := detect_main_resolution rd textures in
  match textures with
  | Raise _ => px = 0
  | Ok texs =>
      let seen := color_target_resolutions rd texs in
      ((forall key, key ∈ seen -> ~ screen_candidate key) /\ px = 0) \/
      (exists w h,
         px = w * h /\ (w, h) ∈ seen /\ screen_candidate (w, h) /\
         forall key, key ∈ seen -> screen_candidate key ->
           occurrences key seen <= occurrences (w, h) seen)
  end /\
  (px = 0 \/ 256 * 257 <= px).
Proof.
  cbv zeta. unfold detect_main_resolution.
  destruct textures as [texs|e]; [| cbn; split; [done | by left]].
  pose proof (resolution_loop texs [] []) as Htab.
  cbn [app] in Htab.
  destruct Htab as (Hnd & Hkeys & Hcnt);
    [split_and!; [constructor | done | done] |].
  set (rt := foldl (resolution_step rd) [] texs) in *.
  set (seen := color_target_resolutions rd texs) in *.
  set (P := fun '(w, h, cnt) => 256 <= w /\ 256 <= h /\ w <> h).
  set (before := fun x y : Z * Z * Z => - x.2 <=? - y.2).
  pose proof (stable_sort_perm before (filter P rt)) as Hperm.
  pose proof (stable_sort_sorted before) as Hsorted.
  specialize (Hsorted ltac:(intros x y; unfold before;
                            destruct (Z.le_ge_cases (- x.2) (- y.2)); [left | right]; lia)).
  specialize (Hsorted ltac:(intros x y z; unfold before; lia)).
  specialize (Hsorted (filter P rt)).
  destruct (stable_sort before (filter P rt)) as [|[[w h] c] rest] eqn:E.
  - split; [| by left]. left. split; [| done].
    intros key Hkey Hcand. apply Hkeys in Hkey as [cnt Hin]%entry_of_key.
    assert ((key, cnt) ∈ filter P rt) as Hf.
    { apply list_elem_of_filter. split; [| done]. destruct key as [w h]. exact Hcand. }
    rewrite <- Hperm in Hf. by apply elem_of_nil in Hf.
  - assert ((w, h, c) ∈ filter P rt) as Hhead by (rewrite <- Hperm; by left).
    apply list_elem_of_filter in Hhead as [Hcand Hin].
    assert (screen_candidate (w, h)) as Hcand' by exact Hcand.
    split.
    + right. exists w, h. split; [done |].
      split; [apply Hkeys, list_elem_of_fmap; by exists (w, h, c) |].
      split; [done |].
      intros key Hkey Hkc. apply Hkeys in Hkey as [cnt Hin']%entry_of_key.
      rewrite <- !Hcnt, (count_in_entry rt key cnt Hnd Hin'),
        (count_in_entry rt (w, h) c Hnd Hin).
      assert ((key, cnt) ∈ (w, h, c) :: rest) as Hk.
      { rewrite Hperm. apply list_elem_of_filter. split; [| done].
        destruct key as [w' h']. exact Hkc. }
      apply StronglySorted_inv in Hsorted as [_ Hall].
      apply elem_of_cons in Hk as [[= _ <-]|Hk]; [lia |].
      rewrite Forall_forall in Hall. specialize (Hall _ Hk).
      unfold before in Hall. cbn in Hall. lia.
    + right. destruct Hcand' as (H1 & H2 & H3). cbn in H1, H2, H3. nia.
Qed.

End MainResolutionFacts.

Section OverdrawCounterFacts.

Import Overdraw.

(** What a call of [analyze_action] keeps. *)
Let inv (st : state) : Prop :=
  Forall (fun d => (3 < hd_overdraw d)%Q /\ 0 < hd_triangles d)
         (high_overdraw_draws st).

Lemma overdraw_step a st :
  let st' := (analyze_action a st).2 in
  total_vertices st' =
    total_vertices st + attr_or 0 (numIndices a) * attr_or 1 (numInstances a) /\
  total_instances st' = total_instances st + attr_or 1 (numInstances a) /\
  (inv st -> inv st').
Proof.
  unfold analyze_action, inv.
  destruct ((0 <? main_screen_pixels _) && (0 <? _)) eqn:E1;
    [| cbn; by split_and!].
  destruct (PyFloat.int_truediv _ _) as [overdraw|e]; [| cbn; by split_and!].
  destruct (PyFloat.ltb 3 overdraw && _) eqn:E2; [| cbn; by split_and!].
  apply andb_true_iff in E1 as [_ Ht%Z.ltb_lt].
  apply andb_true_iff in E2 as [E3%ltb_lt _].
  cbn [snd total_vertices total_instances high_overdraw_draws].
  split; [done |]. split; [done |].
  intros Hinv. apply Forall_app. split; [done |]. constructor; [| done].
  cbn. done.
Qed.

Lemma overdraw_loop actions : forall st,
  let st' := overdraw_after st actions in
  total_vertices st' =
    total_vertices st +
    Zsum ((fun a => attr_or 0 (numIndices a) * attr_or 1 (numInstances a)) <$> actions) /\
  total_instances st' =
    total_instances st + Zsum ((fun a => attr_or 1 (numInstances a)) <$> actions) /\
  (inv st -> inv st').
Proof.
  unfold overdraw_after.
  induction actions as [|a actions IH]; intros st; cbn [foldl].
  - unfold Zsum. cbn. split_and!; [lia | lia | done].
  - destruct (IH (analyze_action a st).2) as (H1 & H2 & H3).
    destruct (overdraw_step a st) as (S1 & S2 & S3).
    cbv zeta in *. rewrite H1, H2, S1, S2. unfold Zsum. cbn [fmap list_fmap foldr].
    split_and!; [lia | lia | auto].
Qed.

(** X10. After any sequence of [analyze_action] calls on a fresh
    [OverdrawAnalyzer]: [total_vertices] is the sum of
    [numIndices * numInstances] and [total_instances] the sum of
    [numInstances] over the calls (0 indices and 1 instance for an action
    without the attribute), also for the calls that raised; every entry
    of [high_overdraw_draws] has an overdraw above 3.0 and a positive
    triangle count. *)
Theorem overdraw_counters (rd : RenderDoc) (textures : Res (list TextureDescription))
    (actions : list ActionDescription) :
  let st := overdraw_after (init rd textures) actions in
  total_vertices st =
    Zsum ((fun a => attr_or 0 (numIndices a) * attr_or 1 (numInstances a)) <$> actions) /\
  total_instances st = Zsum ((fun a => attr_or 1 (numInstances a)) <$> actions) /\
  Forall (fun d => (3 < hd_overdraw d)%Q /\ 0 < hd_triangles d)
         (high_overdraw_draws st) /\
  Forall (fun d => (3 < hd_overdraw d)%Q /\ 0 < hd_triangles d)
         (high_overdraw_draws (finalize st)).
Proof.
  destruct (overdraw_loop actions (init rd textures)) as (H1 & H2 & H3).
  cbv zeta in *. cbn [init total_vertices total_instances] in H1, H2.
  assert (inv (overdraw_after (init rd textures) actions)) as Hinv
    by (apply H3; constructor).
  split_and!; [lia | lia | exact Hinv |].
  cbn [finalize high_overdraw_draws]. by rewrite stable_sort_perm.
Qed.

(** X11. [OverdrawAnalyzer.analyze_action] raises only when the estimate
    leaves the range of a float: it returns whenever the triangle count of
    the action, times 100, is below [2^1023]. *)
Theorem overdraw_analyze_action_returns (a : ActionDescription) (st : state) :
  triangles_of a * 100 < 2 ^ 1023 ->
  (analyze_action a st).1 = Ok ().
Proof.
  intros Hsmall. unfold analyze_action. cbn [main_screen_pixels].
  fold (triangles_of a).
  destruct (Z.ltb_spec 0 (main_screen_pixels st)) as [Hp|Hp]; cbn [andb]; [| done].
  destruct (Z.ltb_spec 0 (triangles_of a)) as [Ht|Ht]; cbn [andb]; [| done].
  unfold PyFloat.int_truediv.
  rewrite (proj2 (Z.eqb_neq _ _)) by lia.
  set (q := (inject_Z (triangles_of a * 100) / inject_Z (main_screen_pixels st))%Q).
  assert (0 < q)%Q as Hq.
  { unfold q. apply Qlt_shift_div_l; [by apply inject_Z_pos |].
    rewrite Qmult_0_l. apply inject_Z_pos. lia. }
  assert (q < inject_Z (2 ^ 1023))%Q as Hq2.
  { unfold q. apply Qlt_shift_div_r; [by apply inject_Z_pos |].
    rewrite <- inject_Z_mult, <- Zlt_Qlt.
    assert (0 < 2 ^ 1023) by (apply Z.pow_pos_nonneg; lia). nia. }
  rewrite round_of_pos by done.
  rewrite overflows_false.
  - destruct (PyFloat.ltb 3 (PyFloat.round_pos q) && _); done.
  - pose proof (round_pos_mantissa q Hq) as [[Hm _] _]. cbv zeta in Hm.
    unfold PyFloat.round_pos. apply Qmult_le_0_compat.
    + rewrite Zle_Qle in Hm. exact Hm.
    + apply Qlt_le_weak, pow2_pos.
  - apply round_pos_finite; [done |].
    eapply Qlt_le_trans; [exact Hq2 |].
    rewrite (pow2_Z 1024), (pow2_Z 970) by lia.
    unfold Qminus. rewrite <- inject_Z_opp, <- inject_Z_plus, <- Zle_Qle.
    apply Z.leb_le. vm_compute. reflexivity.
Qed.

End OverdrawCounterFacts.

(** X11 on the sample draw, 4000 triangles for each of 2 instances, with a
    main screen of 1280 by 720 pixels, so that the estimate is computed. *)
Lemma overdraw_analyze_action_returns_witness :
  let st := Overdraw.init Sample.rd (Ok [Sample.screen]) in
  triangles_of Sample.draw * 100 < 2 ^ 1023 /\
  Overdraw.main_screen_pixels st = 921600 /\
  (Overdraw.analyze_action Sample.draw st).1 = Ok ().
Proof.
  assert (triangles_of Sample.draw * 100 < 2 ^ 1023) as H by (vm_compute; reflexivity).
  split; [exact H |]. split; [vm_compute; reflexivity |].
  exact (overdraw_analyze_action_returns Sample.draw _ H).
Defined.

Section SmallSizes.

Import PyFloat.

Lemma string_app_assoc (s1 s2 s3 : string) : (s1 +:+ s2) +:+ s3 = s1 +:+ (s2 +:+ s3).
Proof.
  induction s1 as [|c s1 IH]; [done |].
  change (String c ((s1 +:+ s2) +:+ s3) = String c (s1 +:+ (s2 +:+ s3))).
  by rewrite IH.
Qed.

Lemma pretty_Z_neg n : n < 0 -> pretty n = "-" +:+ pretty (- n).
Proof. destruct n as [|p|p]; [lia | lia |]. reflexivity. Qed.

Lemma format_2f_int n : format_2f (inject_Z n) = pretty n +:+ ".00".
Proof.
  unfold format_2f.
  assert (round_half_even (Qabs (inject_Z n) * 100) = Z.abs n * 100) as ->.
  { rewrite <- (round_half_even_Z (Z.abs n * 100)). apply round_half_even_comp.
    rewrite inject_Z_mult. apply Qmult_comp; [| reflexivity].
    unfold Qabs, inject_Z. cbn. reflexivity. }
  rewrite Z.div_mul, Z.mod_mul by lia.
  change (two_digits 0) with "00".
  destruct (Z.ltb_spec n 0) as [Hn|Hn].
  - assert (ltb (inject_Z n) 0 = true) as ->
      by (apply ltb_lt; change 0%Q with (inject_Z 0); by rewrite <- Zlt_Qlt).
    rewrite Z.abs_neq by lia. rewrite (pretty_Z_neg n Hn).
    by rewrite !string_app_assoc.
  - assert (ltb (inject_Z n) 0 = false) as ->
      by (apply ltb_ge; change 0%Q with (inject_Z 0); by rewrite <- Zle_Qle).
    rewrite Z.abs_eq by lia. done.
Qed.

Lemma round_pos_int m :
  0 < m <= 2 ^ 53 -> round_pos (inject_Z m) == inject_Z m.
Proof.
  intros Hm.
  assert (inject_Z m == inject_Z m * pow2 0) as E by (rewrite pow2_0; ring).
  rewrite (round_pos_comp (inject_Z m) (inject_Z m * pow2 0)); [| | exact E].
  - rewrite round_pos_exact by lia. by rewrite <- E.
  - change 0%Q with (inject_Z 0). rewrite <- Zlt_Qlt. lia.
Qed.

Lemma of_int_exact n :
  - 2 ^ 53 <= n <= 2 ^ 53 ->
  exists v, of_int n = Ok v /\ v == inject_Z n.
Proof.
  intros Hn. unfold of_int.
  assert (round (inject_Z n) == inject_Z n) as Hv.
  { unfold round.
    destruct (Qcompare_spec (inject_Z n) 0) as [E|E|E].
    - by rewrite E.
    - assert (n < 0) as Hneg
        by (rewrite Zlt_Qlt; exact E).
      assert (round_pos (- inject_Z n) == inject_Z (- n)) as ->.
      { rewrite (round_pos_comp (- inject_Z n) (inject_Z (- n))).
        - apply round_pos_int. lia.
        - rewrite <- inject_Z_opp. change 0%Q with (inject_Z 0).
          rewrite <- Zlt_Qlt. lia.
        - by rewrite inject_Z_opp. }
      rewrite inject_Z_opp. ring.
    - assert (0 < n) as Hpos by (rewrite Zlt_Qlt; exact E).
      apply round_pos_int. lia. }
  assert (overflows (round (inject_Z n)) = false) as ->.
  { unfold overflows. destruct (Qle_bool _ _) eqn:E; [| done].
    apply Qle_bool_iff in E. rewrite Hv in E. exfalso.
    assert (Qabs (inject_Z n) == inject_Z (Z.abs n)) as Ea
      by (unfold Qabs, inject_Z; cbn; reflexivity).
    rewrite Ea, (pow2_Z 1024) in E by lia. rewrite <- Zle_Qle in E.
    assert (2 ^ 53 < 2 ^ 1024) by (apply Z.pow_lt_mono_r; lia). lia. }
  eexists. split; [done | exact Hv].
Qed.

(** X12. For an int [size] from [-2^53] up to 1023, [format_bytes] gives
    the decimal numeral of [size] followed by [.00 B]: a size below 1024
    is shown in bytes, and a negative size is never scaled to a larger
    unit. *)
Theorem format_bytes_small (size : Z) :
  - 2 ^ 53 <= size < 1024 ->
  Base.format_bytes size = Ok (pretty size +:+ ".00 B").
Proof.
  intros Hs. unfold Base.format_bytes, Base.units.
  cbn [Base.format_bytes_loop Base.lt_1024].
  rewrite (proj2 (Z.ltb_lt _ _)) by lia.
  cbn [Base.format_size].
  destruct (of_int_exact size) as (v & -> & Hv).
  { assert (1024 < 2 ^ 53) by (vm_compute; reflexivity). lia. }
  cbv [mbind Res_bind mret Res_ret].
  rewrite (format_2f_comp v (inject_Z size) Hv), format_2f_int.
  by rewrite !string_app_assoc.
Qed.

End SmallSizes.

(** X12 at [-5]: the result is [-5.00 B]. *)
Lemma format_bytes_small_witness :
  - 2 ^ 53 <= -5 < 1024 /\ Base.format_bytes (-5) = Ok "-5.00 B".
Proof.
  assert (- 2 ^ 53 <= -5 < 1024) as H
    by (split; [apply Z.leb_le | apply Z.ltb_lt]; vm_compute; reflexivity).
  split; [exact H |]. exact (format_bytes_small (-5) H).
Defined.

Section BasicStatsBounds.

Import BasicStats.

Variable rd : RenderDoc.

Lemma count_flag_bounds bit ns : 0 <= count_flag bit ns <= Z.of_nat (length ns).
Proof.
  unfold count_flag. pose proof (length_filter (fun a => has_flag (flags a) bit = true) ns).
  lia.
Qed.

(** The depths of the nodes of a tree whose root is at depth [d]. *)
Lemma nodes_at_depths a : forall d,
  Forall (fun x => d <= x < d + Z.of_nat (length (nodes_at d a))) (nodes_at d a).*1.
Proof.
  induction a as [e f ni nn cs IH] using ActionDescription_forall_ind. intros d.
  rewrite nodes_at_unfold. cbn [children fmap list_fmap fst length].
  constructor; [lia |].
  assert (Forall (fun x => d + 1 <= x < d + 1 + Z.of_nat (length (flat_map (nodes_at (d + 1)) cs)))
                 (flat_map (nodes_at (d + 1)) cs).*1) as H.
  { induction IH as [|c cs Hc _ IHcs]; cbn [flat_map]; [constructor |].
    rewrite fmap_app, length_app. apply Forall_app. split.
    - eapply Forall_impl; [apply Hc |]. cbn. intros x Hx. lia.
    - eapply Forall_impl; [apply IHcs |]. cbn. intros x Hx. lia. }
  eapply Forall_impl; [exact H |]. cbn. intros x Hx. lia.
Qed.

Lemma forest_depths roots :
  Forall (fun x => 0 <= x < Z.of_nat (length (flat_map (nodes_at 0) roots)))
         (flat_map (nodes_at 0) roots).*1.
Proof.
  induction roots as [|a roots IH]; cbn [flat_map]; [constructor |].
  rewrite fmap_app, length_app. apply Forall_app. split.
  - eapply Forall_impl; [apply nodes_at_depths |]. cbn. intros x Hx. lia.
  - eapply Forall_impl; [apply IH |]. cbn. intros x Hx. lia.
Qed.

Lemma deepest_bound (ds : list Z) n :
  0 <= n -> Forall (fun x => 0 <= x <= n) ds -> 0 <= deepest ds <= n.
Proof.
  intros Hn. unfold deepest. induction 1 as [|x ds Hx _ IH]; cbn; lia.
Qed.

(** X13. What [BasicStatsAnalyzer.analyze] reports is consistent: every
    category count is between 0 and [total_actions]; [max_depth] is not
    negative and, for a capture with actions, below [total_actions];
    without root actions every number is 0. *)
Theorem basic_stats_bounds (roots : list ActionDescription) :
  let r := analyze rd roots in
  0 <= draw_count r <= total_actions r /\
  0 <= dispatch_count r <= total_actions r /\
  0 <= clear_count r <= total_actions r /\
  0 <= copy_count r <= total_actions r /\
  0 <= marker_count r <= total_actions r /\
  0 <= max_depth r /\
  (roots <> [] -> max_depth r < total_actions r) /\
  (roots = [] -> r = init).
Proof.
  unfold analyze. rewrite analyze_fold.
  pose proof (fold_flags rd (flat_map (nodes_at 0) roots) init) as Hf.
  pose proof (fold_total rd (flat_map (nodes_at 0) roots) init) as Ht.
  pose proof (fold_max_depth rd (flat_map (nodes_at 0) roots) init ltac:(done)) as Hd.
  cbv zeta in Hf. destruct Hf as (F1 & F2 & F3 & F4 & F5).
  cbv zeta. rewrite F1, F2, F3, F4, F5, Ht, Hd. cbn [init draw_count dispatch_count
    clear_count copy_count marker_count total_actions max_depth].
  assert (length (flat_map (nodes_at 0) roots).*2 = length (flat_map (nodes_at 0) roots))
    as Hlen by apply length_fmap.
  pose proof (forest_depths roots) as Hdep.
  split_and!;
    try (match goal with |- context [count_flag ?b ?l] =>
           pose proof (count_flag_bounds b l) end; lia).
  - assert (0 <= deepest (flat_map (nodes_at 0) roots).*1); [| lia].
    unfold deepest. generalize ((flat_map (nodes_at 0) roots).*1). intros l.
    induction l; cbn; lia.
  - intros Hne.
    assert (0 < Z.of_nat (length (flat_map (nodes_at 0) roots))) as Hpos.
    { destruct roots as [|a roots']; [done |]. cbn [flat_map].
      rewrite length_app, nodes_at_unfold. cbn [length]. lia. }
    pose proof (deepest_bound (flat_map (nodes_at 0) roots).*1
                  (Z.of_nat (length (flat_map (nodes_at 0) roots)) - 1) ltac:(lia)) as Hb.
    destruct Hb as [_ Hb]; [| lia].
    eapply Forall_impl; [exact Hdep |]. cbn. intros x Hx. lia.
  - intros ->. reflexivity.
Qed.

End BasicStatsBounds.

Section RatioFacts.

Import PyFloat.

Lemma round_pos_le_1 x : (0 < x)%Q -> (x <= 1)%Q -> (0 <= round_pos x <= 1)%Q.
Proof.
  intros Hx Hx1.
  pose proof (round_pos_mantissa x Hx) as [[Hm0 Hm1] _]. cbv zeta in Hm0, Hm1.
  unfold round_pos.
  set (e := Z.max (ilog2 x - 52) (-1074)) in *.
  set (m := round_half_even (x / pow2 e)) in *.
  pose proof (pow2_pos e) as He.
  split.
  - apply Qmult_le_0_compat; [| by apply Qlt_le_weak].
    change 0%Q with (inject_Z 0). by rewrite <- Zle_Qle.
  - destruct (Qlt_le_dec x 1) as [Hlt|Hge].
    + assert (ilog2 x < 0) as Hl.
      { destruct (ilog2_spec x Hx) as [Hlo _].
        apply pow2_lt_inv. rewrite pow2_0. by eapply Qle_lt_trans. }
      assert (e + 53 <= 0) as He53 by (unfold e; lia).
      assert (inject_Z m <= pow2 53)%Q as Hm.
      { rewrite (pow2_Z 53) by lia. by rewrite <- Zle_Qle. }
      assert (pow2 53 * pow2 e <= 1)%Q as Hp.
      { rewrite <- pow2_add, <- pow2_0. apply pow2_le. lia. }
      eapply Qle_trans; [| exact Hp].
      apply Qmult_le_compat_r; [exact Hm | by apply Qlt_le_weak].
    + assert (x == 1)%Q as Ex by (by apply Qle_antisym).
      assert (inject_Z m * pow2 e == round_pos 1)%Q as ->.
      { symmetry. subst m e. exact (round_pos_comp 1 x ltac:(reflexivity) ltac:(by symmetry)). }
      pose proof (round_pos_exact 1 0 ltac:(lia) ltac:(lia)) as H1.
      assert (round_pos 1 == 1)%Q as ->.
      { rewrite (round_pos_comp 1 (inject_Z 1 * pow2 0)) by (try reflexivity; by rewrite pow2_0).
        rewrite H1, pow2_0. reflexivity. }
      apply Qle_refl.
Qed.

Lemma ratio_or_zero_unit x y :
  0 <= x <= y -> exists r, ratio_or_zero x y = Ok r /\ unit_ratio r.
Proof.
  intros Hxy. unfold ratio_or_zero.
  destruct (Z.ltb_spec 0 y) as [Hy|Hy]; [| by exists (NInt 0)].
  unfold int_truediv. rewrite (proj2 (Z.eqb_neq _ _)) by lia.
  set (q := (inject_Z x / inject_Z y)%Q).
  assert (0 < inject_Z y)%Q as Hyq
    by (change 0%Q with (inject_Z 0); by rewrite <- Zlt_Qlt).
  assert (0 <= round q <= 1)%Q as Hr.
  { unfold round. destruct (Qcompare_spec q 0) as [E|E|E].
    - split; [apply Qle_refl | done].
    - exfalso. apply (Qlt_not_le _ _ E). unfold q.
      apply Qle_shift_div_l; [done |]. rewrite Qmult_0_l.
      change 0%Q with (inject_Z 0). rewrite <- Zle_Qle. lia.
    - apply round_pos_le_1; [done |]. unfold q.
      apply Qle_shift_div_r; [done |]. rewrite Qmult_1_l, <- Zle_Qle. lia. }
  rewrite overflows_false.
  - eexists. split; [done |]. exact Hr.
  - apply Hr.
  - eapply Qle_lt_trans; [apply Hr |]. rewrite <- pow2_0. apply pow2_lt. lia.
Qed.

End RatioFacts.

(** X14. After any sequence of [analyze_action] calls on a fresh
    analyzer, [get_summary] of [VertexAttributeAnalyzer] and of
    [ShaderBindingAnalyzer] returns, and the ratio it reports is the int 0
    or a float between 0 and 1; the other entry is the counter as it
    stands. *)
Theorem summary_ratios_are_fractions (rd : RenderDoc)
    (calls : list (ActionDescription * PipelineState)) :
  (exists s,
     VertexAttrsSummary.get_summary (vertex_attrs_after calls) = Ok s /\
     unit_ratio (VertexAttrsSummary.vertex_waste_ratio s) /\
     VertexAttrsSummary.vertex_waste_bytes s =
       VertexAttrs.wasted_bytes (vertex_attrs_after calls)) /\
  (exists s,
     ShaderBindingsSummary.get_summary (shader_bindings_after rd calls) = Ok s /\
     unit_ratio (ShaderBindingsSummary.binding_waste_ratio s) /\
     ShaderBindingsSummary.unused_bindings s =
       ShaderBindings.unused_bindings (shader_bindings_after rd calls)).
Proof.
  split.
  - unfold VertexAttrsSummary.get_summary.
    destruct (ratio_or_zero_unit _ _ (vertex_attrs_draws_bound calls)) as (r & -> & Hr).
    eexists. split; [done |]. split; [exact Hr | done].
  - unfold ShaderBindingsSummary.get_summary.
    destruct (ratio_or_zero_unit _ _ (shader_bindings_unused_bound rd calls))
      as (r & -> & Hr).
    eexists. split; [done |]. split; [exact Hr | done].
Qed.

Section RunFacts.

Import Scheduler SchedulerRun.

Context {World Data : Type}.
Context (fires : nat -> bool) (rd : RenderDoc) (controller : Controller World).
Context (cap : Capture World Data).

#[local] Existing Instance M_ret.
#[local] Existing Instance M_bind.

Implicit Types s : Sched World Data.

Lemma timer_untouched_refl s : timer_untouched s s.
Proof. exists []. by rewrite app_nil_r. Qed.

Lemma timer_untouched_trans s1 s2 s3 :
  timer_untouched s1 s2 -> timer_untouched s2 s3 -> timer_untouched s1 s3.
Proof.
  intros (T1 & H1 & H2 & H3 & H4) (T2 & H5 & H6 & H7 & H8). exists (T1 ++ T2).
  split; [by rewrite H5, H1, app_assoc |].
  split; [unfold timer_events in *; by rewrite omap_app, H2, H6 |].
  split; congruence.
Qed.

(** A step that emits no event and leaves the timer alone. *)
Lemma timer_untouched_silent s s' :
  trace s' = trace s -> timeout_timer s' = timeout_timer s -> timeout s' = timeout s ->
  timer_untouched s s'.
Proof. intros H1 H2 H3. exists []. by rewrite app_nil_r. Qed.

Lemma keeps_ret {A} (a : A) : keeps_timer (mret a : M World Data A).
Proof. intros s. apply timer_untouched_refl. Qed.

Lemma keeps_bind {A B} (m : M World Data A) (f : A -> M World Data B) :
  keeps_timer m -> (forall a, keeps_timer (f a)) -> keeps_timer (m ≫= f).
Proof.
  intros Hm Hf s. unfold mbind, M_bind. specialize (Hm s).
  destruct (m s) as [[a|e] s1]; cbn in *; [| done].
  eapply timer_untouched_trans; [exact Hm | apply Hf].
Qed.

Lemma keeps_try_except {A} (body : M World Data A) handler :
  keeps_timer body -> (forall e, keeps_timer (handler e)) ->
  keeps_timer (try_except body handler).
Proof.
  intros Hb Hh s. unfold try_except. specialize (Hb s).
  destruct (body s) as [[a|e] s1]; cbn in *; [done |].
  destruct (is_Exception e); [| done].
  eapply timer_untouched_trans; [exact Hb | apply Hh].
Qed.

Lemma keeps_modify (f : Sched World Data -> Sched World Data) :
  (forall s, timer_untouched s (f s)) -> keeps_timer (modify f).
Proof. intros Hf s. apply Hf. Qed.

Lemma keeps_gets {A} (f : Sched World Data -> A) : keeps_timer (gets f).
Proof. intros s. apply timer_untouched_refl. Qed.

Lemma keeps_call {A} (op : World -> Res A * World) :
  keeps_timer (Data:=Data) (call op).
Proof.
  intros s. unfold call. destruct (op (world s)) as [r w]. by apply timer_untouched_silent.
Qed.

Lemma keeps_read_timed_out : keeps_timer (World:=World) (Data:=Data) (read_timed_out fires).
Proof.
  intros s. unfold read_timed_out. cbn.
  apply timer_untouched_silent; by destruct (timer_running s && fires (clock s)).
Qed.

Lemma keeps_call_analyze m (an : Analyzer World Data) : keeps_timer (call_analyze m an).
Proof.
  intros s. unfold call_analyze. destruct (analyze an (world s)) as [r w].
  exists [EvAnalyze m (raised_by r)]. done.
Qed.

Lemma keeps_call_finalize m (an : Analyzer World Data) : keeps_timer (call_finalize m an).
Proof.
  intros s. unfold call_finalize. destruct (finalize an (world s)) as [r w].
  exists [EvFinalize m (raised_by r)]. done.
Qed.

Lemma keeps_for_each {A} (l : list A) (body : A -> M World Data ()) :
  (forall x, keeps_timer (body x)) -> keeps_timer (for_each l body).
Proof.
  intros Hb. induction l as [|x l IH]; [apply keeps_ret |].
  cbn [for_each]. apply keeps_bind; [apply Hb | intros _; exact IH].
Qed.

(** The setters of everything but the timer. *)
Lemma keeps_set_errors (f : Sched World Data -> gmap string string) :
  keeps_timer (World:=World) (Data:=Data) (modify (fun s => set_errors (f s) s)).
Proof. apply keeps_modify. intros s. by apply timer_untouched_silent. Qed.

Lemma keeps_set_results (f : Sched World Data -> gmap string (mod_result World Data)) :
  keeps_timer (World:=World) (Data:=Data) (modify (fun s => set_results (f s) s)).
Proof. apply keeps_modify. intros s. by apply timer_untouched_silent. Qed.

Lemma keeps_set_processed (f : Sched World Data -> Z) :
  keeps_timer (World:=World) (Data:=Data) (modify (fun s => set_processed (f s) s)).
Proof. apply keeps_modify. intros s. by apply timer_untouched_silent. Qed.

Lemma keeps_create_analyzers
    (reg : list (string * string * AnalyzerClass (World:=World) (Data:=Data) * bool))
    enabled :
  keeps_timer (create_analyzers reg enabled).
Proof.
  unfold create_analyzers.
  generalize (mret [] : M World Data (list (string * string * Analyzer World Data * bool))),
             (keeps_ret (@nil (string * string * Analyzer World Data * bool))).
  induction reg as [|[[[m n] cls] b] reg IH]; intros acc Hacc; [exact Hacc |].
  cbn [foldl]. apply IH.
  apply keeps_bind; [exact Hacc |]. intros l. cbv zeta.
  destruct (match enabled with
            | Some ((_ :: _) as ms) => bool_decide (m ∉ ms)
            | _ => false
            end); [apply keeps_ret |].
  apply keeps_try_except.
  - apply keeps_bind; [apply keeps_call | intros an; apply keeps_ret].
  - intros e. apply keeps_bind; [apply keeps_set_errors | intros _; apply keeps_ret].
Qed.

Lemma keeps_run_static_analyzers
    (analyzers : list (string * string * Analyzer World Data * bool)) :
  keeps_timer (run_static_analyzers fires analyzers).
Proof.
  apply keeps_for_each. intros [[[m n] an] needs]. cbn [run_static_analyzer].
  destruct needs; [apply keeps_ret |].
  apply keeps_bind; [apply keeps_read_timed_out |]. intros [|].
  - apply keeps_set_errors.
  - apply keeps_try_except.
    + apply keeps_bind; [apply keeps_call_analyze | intros d; apply keeps_set_results].
    + intros e. apply keeps_bind; [apply keeps_set_errors | intros _; apply keeps_set_results].
Qed.

Lemma keeps_call_analyzer a pipe (entry : string * string * Analyzer World Data) :
  keeps_timer (call_analyzer a pipe entry).
Proof.
  destruct entry as [[m n] an]. cbn [call_analyzer].
  apply keeps_bind; [apply keeps_gets |]. intros errs.
  destruct (bool_decide (is_Some (errs !! m))); [apply keeps_ret |].
  apply keeps_try_except.
  - intros s. cbn beta. destruct (analyze_action an a pipe (world s)) as [r w].
    exists [EvAnalyzeAction m a r]. done.
  - intros e. apply keeps_bind; [apply keeps_gets |]. intros errs'.
    destruct (bool_decide (is_Some (errs' !! m))); [apply keeps_ret |].
    apply keeps_set_errors.
Qed.

Lemma keeps_process_draw (it : list (string * string * Analyzer World Data)) a :
  keeps_timer (process_draw controller it a).
Proof.
  unfold process_draw.
  apply keeps_bind; [apply keeps_set_processed |]. intros _.
  apply keeps_bind.
  - apply keeps_try_except; [| intros e; apply keeps_ret].
    apply keeps_bind; [| intros pipe; apply keeps_ret].
    unfold replay.
    apply keeps_bind; [apply keeps_modify; intros s; by exists [EvSetFrameEvent (eventId a) false] |].
    intros _. apply keeps_bind; [apply keeps_call |]. intros _.
    apply keeps_bind; [apply keeps_modify; intros s; by exists [EvGetPipelineState] |].
    intros _. apply keeps_call.
  - intros [pipe|]; [| apply keeps_ret].
    apply keeps_bind; [| intros _; apply keeps_ret].
    apply keeps_for_each. intros entry. apply keeps_call_analyzer.
Qed.

(** The part of [process_action] before the loop over the children. *)
Lemma keeps_node (it : list (string * string * Analyzer World Data)) a :
  keeps_timer (modify (emit (EvVisit a));;
               if is_draw_or_dispatch rd a
               then process_draw controller it a
               else mret true).
Proof.
  apply keeps_bind; [apply keeps_modify; intros s; by exists [EvVisit a] |].
  intros _. destruct (is_draw_or_dispatch rd a); [apply keeps_process_draw | apply keeps_ret].
Qed.

Lemma keeps_process_roots_from (it : list (string * string * Analyzer World Data)) roots :
  Forall (fun a => keeps_timer (process_action fires rd controller it a)) roots ->
  keeps_timer (process_roots fires rd controller it roots).
Proof.
  induction 1 as [|a roots Ha _ IH]; [apply keeps_ret |].
  intros s. rewrite process_roots_cons.
  pose proof (keeps_read_timed_out s) as Hread.
  destruct (read_timed_out fires s) as [[[|]|e] s1]; cbn in *; [done | | done].
  specialize (Ha s1).
  destruct (process_action fires rd controller it a s1) as [[[]|e] s2]; cbn in *.
  - eapply timer_untouched_trans; [exact Hread |].
    eapply timer_untouched_trans; [exact Ha | apply IH].
  - by eapply timer_untouched_trans.
Qed.

Lemma keeps_process_action (it : list (string * string * Analyzer World Data)) a :
  keeps_timer (process_action fires rd controller it a).
Proof.
  induction a as [e f ni nn cs IH] using ActionDescription_forall_ind.
  set (a := mkAction e f ni nn cs). intros s. rewrite process_action_unfold.
  pose proof (keeps_read_timed_out s) as Hread.
  destruct (read_timed_out fires s) as [[[|]|e0] s1]; cbn in *; [done | | done].
  pose proof (keeps_node it a s1) as Hnode.
  match goal with |- context [match ?X with _ => _ end] =>
    destruct X as [[[|]|e1] s2] end; cbn in *.
  - eapply timer_untouched_trans; [exact Hread |].
    eapply timer_untouched_trans; [exact Hnode |].
    by apply keeps_process_roots_from.
  - by eapply timer_untouched_trans.
  - by eapply timer_untouched_trans.
Qed.

Lemma keeps_process_roots (it : list (string * string * Analyzer World Data)) roots :
  keeps_timer (process_roots fires rd controller it roots).
Proof.
  apply keeps_process_roots_from, Forall_forall. intros a _. apply keeps_process_action.
Qed.

Lemma keeps_finish_analyzer (entry : string * string * Analyzer World Data) :
  keeps_timer (finish_analyzer entry).
Proof.
  assert (forall m (an : Analyzer World Data), keeps_timer (finalize_and_analyze m an)) as Hfa.
  { intros m an. unfold finalize_and_analyze. apply keeps_try_except.
    - apply keeps_bind; [apply keeps_call_finalize |]. intros _.
      apply keeps_bind; [apply keeps_call_analyze | intros d; apply keeps_set_results].
    - intros e. apply keeps_bind; [apply keeps_set_errors | intros _; apply keeps_set_results]. }
  destruct entry as [[m n] an]. cbn [finish_analyzer].
  apply keeps_bind; [apply keeps_gets |]. intros errs.
  destruct (errs !! m) as [msg|]; [| apply Hfa].
  destruct (contains "analyze_action" msg); [apply keeps_set_results | apply Hfa].
Qed.

Lemma keeps_run_iteration_analyzers
    (analyzers : list (string * string * Analyzer World Data * bool)) :
  keeps_timer (run_iteration_analyzers fires rd controller analyzers).
Proof.
  unfold run_iteration_analyzers.
  destruct (iteration_entries analyzers) as [|entry it'] eqn:E; [apply keeps_ret |].
  rewrite <- E.
  apply keeps_bind; [apply keeps_modify; intros s; by apply timer_untouched_silent |].
  intros _. apply keeps_bind; [apply keeps_call |]. intros roots.
  apply keeps_bind; [apply keeps_process_roots |]. intros _.
  apply keeps_for_each, keeps_finish_analyzer.
Qed.

Lemma keeps_call_generate_report : keeps_timer (call_generate_report cap).
Proof.
  intros s. unfold call_generate_report.
  destruct (generate_report cap (results s) (errors s) (world s)) as [r w].
  by apply timer_untouched_silent.
Qed.

(** The [try] block of [run]. *)
Lemma keeps_run_body
    (reg : list (string * string * AnalyzerClass (World:=World) (Data:=Data) * bool))
    enabled :
  keeps_timer
    (ok ← call (init_renderdoc cap);
     if negb ok then mret None
     else
       ok ← call (open_capture cap);
       if negb ok then mret None
       else
         analyzers ← create_analyzers reg enabled;
         match analyzers with
         | [] => mret None
         | _ :: _ =>
             run_static_analyzers fires analyzers;;
             timed ← read_timed_out fires;
             (if timed : bool then mret ()
              else run_iteration_analyzers fires rd controller analyzers);;
             report ← call_generate_report cap;
             mret (Some report)
         end).
Proof.
  apply keeps_bind; [apply keeps_call |]. intros [|]; cbn [negb]; [| apply keeps_ret].
  apply keeps_bind; [apply keeps_call |]. intros [|]; cbn [negb]; [| apply keeps_ret].
  apply keeps_bind; [apply keeps_create_analyzers |]. intros [|entry l]; [apply keeps_ret |].
  apply keeps_bind; [apply keeps_run_static_analyzers |]. intros _.
  apply keeps_bind; [apply keeps_read_timed_out |]. intros timed.
  apply keeps_bind.
  - destruct timed; [apply keeps_ret | apply keeps_run_iteration_analyzers].
  - intros _. apply keeps_bind; [apply keeps_call_generate_report |].
    intros report. apply keeps_ret.
Qed.

(** X15. [run] starts one daemon timer with the interval [self.timeout]
    and, however its [try] block ends, with a [return] or with an exception
    of any class raised anywhere in it, it cancels that timer and then
    calls [close_capture]: between the start and the cancellation no timer
    is started or cancelled, and no timer is running when [run] returns or
    raises. When
    [init_renderdoc] returns [False], [run] returns [None] and nothing
    happens between the start and the cancellation. *)
Theorem run_always_cancels_the_timer
    (reg : list (string * string * AnalyzerClass (World:=World) (Data:=Data) * bool))
    (enabled : option (list string)) s :
  exists r s1 s' t T,
    run fires rd controller cap reg enabled s = (r, s') /\
    trace s' = trace s ++ [EvTimerStart t] ++ T ++ [EvTimerCancel] /\
    timer_events T = [] /\
    daemon t = true /\ started t = true /\ interval t = timeout s /\
    timer_running s' = false /\
    world s' = close_capture cap (world s1) /\
    ((init_renderdoc cap (world s)).1 = Ok false -> r = Ok None /\ T = []).
Proof.
  unfold run, try_finally.
  unfold mbind at 1. unfold M_bind at 1. unfold modify at 1.
  pose proof (keeps_run_body reg enabled (start_timeout s)) as Hbody.
  match goal with |- context [let '(r, s1) := ?X in _] =>
    assert ((init_renderdoc cap (world s)).1 = Ok false ->
            X.1 = Ok None /\ trace X.2 = trace (start_timeout s)) as Hinit;
    [| destruct X as [r s1]] end.
  { intros H0. unfold mbind, M_bind, call. cbn [world start_timeout emit set_timer].
    destruct (init_renderdoc cap (world s)) as [r0 w0]. cbn in H0. subst r0. done. }
  cbn [fst snd] in *. destruct Hbody as (T & Htr & Ht & Htm & Hto).
  unfold mbind, M_bind, modify. unfold cancel_timeout.
  rewrite Htm. cbn [start_timeout timeout_timer set_timer emit].
  eexists r, s1, _, _, T. split; [reflexivity |].
  cbn [trace emit set_timer set_world world]. rewrite Htr.
  cbn [start_timeout trace emit set_timer].
  split; [by rewrite <- !app_assoc |].
  split; [exact Ht |]. split; [done |]. split; [done |]. split; [done |].
  split; [done |]. split; [done |].
  intros H0. destruct (Hinit H0) as [-> Htr1]. split; [done |].
  rewrite Htr1 in Htr. apply (app_inv_head (trace (start_timeout s))).
  by rewrite app_nil_r.
Qed.

End RunFacts.
